(** * Port format and period-size adaptation layer of JACK
      (common/JackFormatConverter.cpp, common/jack/format_converter.h)

    A shallow embedding of the sample conversion primitives, the port
    converters, the two period adapters and the buffer-converter
    aggregator, followed by the properties proved about them.

    Conventions of the embedding.
    - [jack_nframes_t] is [uint32_t]: a [Z] in [0, 2^32); every sum and
      difference of frame counters is wrapped by [u32] where the C++
      computes it.
    - A buffer is a map from frame index to the bit pattern of the sample
      stored there ([Z -> Z]).  Server samples are IEEE-754 binary32 bit
      patterns, the shadow samples of an integer converter are the two's
      complement patterns of the [int32_t]/[int16_t] stored.  The arrays of
      the C++ have [BUFFER_SIZE_MAX] frames, a constant of the host that
      is declared outside these sources; accesses beyond it are undefined
      in C++ and are not distinguished here.
    - Pointers handed to the client are byte addresses ([Z], [NULL] is 0).
    - [jack_error] appends its format string to a log that is returned
      next to the result. *)

From Stdlib Require Import ZArith Lia List Bool String.
From Stdlib Require Import Floats.SpecFloat.
Import ListNotations.

Local Open Scope Z_scope.

(* ------------------------------------------------------------------ *)
(** * Machine integers *)

Definition jack_nframes_t := Z.

Definition u32 (x : Z) : Z := x mod 2 ^ 32.
Definition u16 (x : Z) : Z := x mod 2 ^ 16.

(** Reading a 32-bit (16-bit) pattern as [int32_t] ([int16_t]). *)
Definition s32 (x : Z) : Z := (x + 2 ^ 31) mod 2 ^ 32 - 2 ^ 31.
Definition s16 (x : Z) : Z := (x + 2 ^ 15) mod 2 ^ 16 - 2 ^ 15.

Definition EINVAL : Z := 22.
Definition NULL : Z := 0.

(* ------------------------------------------------------------------ *)
(** * IEEE-754 arithmetic of the C types [float] and [double] *)

Module F32.
Definition prec : Z := 24.
Definition emax : Z := 128.

Definition mul : spec_float -> spec_float -> spec_float := SFmul prec emax.
Definition leb : spec_float -> spec_float -> bool := SFleb.

(** Conversion of an integer to [float] (round to nearest, ties to even). *)
Definition of_Z (z : Z) : spec_float := binary_normalize prec emax z 0 false.

(** Conversion of a [double] to [float]. *)
Definition of_double (x : spec_float) : spec_float :=
  match x with
  | S754_finite s m e => binary_round prec emax s m e
  | _ => x
  end.

(** The bit pattern of a [float] and back. *)
Definition of_bits (b : Z) : spec_float :=
  let s := Z.testbit b 31 in
  let e := Z.land (Z.shiftr b 23) 255 in
  let m := Z.land b (2 ^ 23 - 1) in
  if e =? 0 then
    match m with
    | Zpos p => S754_finite s p (-149)
    | _ => S754_zero s
    end
  else if e =? 255 then
    if m =? 0 then S754_infinity s else S754_nan
  else
    match m + 2 ^ 23 with
    | Zpos p => S754_finite s p (e - 150)
    | _ => S754_nan
    end.

Definition sign_bit (s : bool) : Z := if s then 2 ^ 31 else 0.

Definition to_bits (x : spec_float) : Z :=
  match x with
  | S754_zero s => sign_bit s
  | S754_infinity s => sign_bit s + 255 * 2 ^ 23
  | S754_nan => 255 * 2 ^ 23 + 2 ^ 22
  | S754_finite s m e =>
      if Zpos m <? 2 ^ 23 then sign_bit s + Zpos m
      else sign_bit s + (e + 150) * 2 ^ 23 + (Zpos m - 2 ^ 23)
  end.

Definition one : spec_float := S754_finite false (2 ^ 23) (-23).
Definition minus_one : spec_float := S754_finite true (2 ^ 23) (-23).
End F32.

Module F64.
Definition prec : Z := 53.
Definition emax : Z := 1024.

Definition div : spec_float -> spec_float -> spec_float := SFdiv prec emax.
Definition of_Z (z : Z) : spec_float := binary_normalize prec emax z 0 false.
Definition one : spec_float := S754_finite false (2 ^ 52) (-52).
End F64.

Definition LONG_MIN : Z := - 2 ^ 63.
Definition LONG_MAX : Z := 2 ^ 63 - 1.

(** Rounding of the dyadic number [m * 2^e] to the nearest integer, ties to
    even: the default rounding direction that [lrintf] follows. *)
Definition round_half_even (m e : Z) : Z :=
  if 0 <=? e then m * 2 ^ e
  else
    let d := 2 ^ (- e) in
    let q := m / d in
    let r := m mod d in
    match 2 * r ?= d with
    | Lt => q
    | Gt => q + 1
    | Eq => if Z.even q then q else q + 1
    end.

(** [lrintf] of <math.h> on an LP64 target.  The C standard leaves the result
    unspecified when the rounded value does not fit a [long] (NaN, the
    infinities, huge magnitudes); x86-64 returns [LONG_MIN] there, which is
    what is written down here. *)
Definition lrintf (x : spec_float) : Z :=
  match x with
  | S754_zero _ => 0
  | S754_finite s m e =>
      let r := round_half_even (Zpos m) e in
      let v := if s then - r else r in
      if (LONG_MIN <=? v) && (v <=? LONG_MAX) then v else LONG_MIN
  | _ => LONG_MIN
  end.

(* ------------------------------------------------------------------ *)
(** * Constants of JackFormatConverter.cpp *)

Definition SAMPLE_32BIT_SCALING : Z := 0x7FFFFFFF.
Definition SAMPLE_16BIT_SCALING : Z := 0x7FFF.
Definition NORMALIZED_FLOAT_MIN : spec_float := F32.minus_one.
Definition NORMALIZED_FLOAT_MAX : spec_float := F32.one.
Definition BUF_ALIGN_BYTES : Z := 32.
Definition BUF_ALIGN_MASK : Z := Z.lnot (BUF_ALIGN_BYTES - 1).

Definition GET_32BYTE_ALIGN_BUFFER (buf : Z) : Z :=
  Z.land buf BUF_ALIGN_MASK + BUF_ALIGN_BYTES.

(* ------------------------------------------------------------------ *)
(** * Buffers *)

Definition samples := Z -> Z.

(** [memcpy]/[memmove] of [n] frames from [src] at frame [soff] to [dst] at
    frame [doff]. *)
Definition memcpy (dst : samples) (doff : Z) (src : samples) (soff : Z) (n : Z)
  : samples :=
  fun i => if (doff <=? i) && (i <? doff + n) then src (soff + (i - doff))
           else dst i.

Definition memmove (buf : samples) (doff soff n : Z) : samples :=
  memcpy buf doff buf soff n.

Definition memset0 (dst : samples) (n : Z) : samples :=
  fun i => if (0 <=? i) && (i <? n) then 0 else dst i.

Definition store (dst : samples) (i : Z) (v : Z) : samples :=
  fun j => if j =? i then v else dst j.

(* ------------------------------------------------------------------ *)
(** * Sample conversion primitives *)

(** One iteration of the loops, on one sample. *)

Definition float_of_s32 (src32 : Z) : spec_float :=
  let scaling := F32.of_double (F64.div F64.one (F64.of_Z SAMPLE_32BIT_SCALING)) in
  F32.mul (F32.of_Z src32) scaling.

Definition s32_of_float (x : spec_float) : Z :=
  let scaling := SAMPLE_32BIT_SCALING in
  if F32.leb x NORMALIZED_FLOAT_MIN then - scaling
  else if F32.leb NORMALIZED_FLOAT_MAX x then scaling
  else s32 (lrintf (F32.mul x (F32.of_Z scaling))).

Definition float_of_s16 (src16 : Z) : spec_float :=
  let scaling := F32.of_double (F64.div F64.one (F64.of_Z SAMPLE_16BIT_SCALING)) in
  F32.mul (F32.of_Z src16) scaling.

Definition s16_of_float (x : spec_float) : Z :=
  if F32.leb x NORMALIZED_FLOAT_MIN then - SAMPLE_16BIT_SCALING
  else if F32.leb NORMALIZED_FLOAT_MAX x then SAMPLE_16BIT_SCALING
  else s16 (lrintf (F32.mul x (F32.of_Z SAMPLE_16BIT_SCALING))).

(** The loops.  [dst] and [src] are the buffers the two pointers point into,
    [d] and [s] the frames they point at.  The stride [src_skip]/[dst_skip]
    is in bytes in the C++ and always the sample size of the shadow buffer,
    that is one frame. *)

Fixpoint sample_move_dS_s32 (dst : samples) (d : Z) (src : samples) (s : Z)
  (nsamples : nat) : samples :=
  match nsamples with
  | O => dst
  | S n =>
      let src32 := s32 (src s) in
      let dst' := store dst d (F32.to_bits (float_of_s32 src32)) in
      sample_move_dS_s32 dst' (d + 1) src (s + 1) n
  end.

Fixpoint sample_move_d32_sS (dst : samples) (d : Z) (src : samples) (s : Z)
  (nsamples : nat) : samples :=
  match nsamples with
  | O => dst
  | S n =>
      let dst' := store dst d (u32 (s32_of_float (F32.of_bits (src s)))) in
      sample_move_d32_sS dst' (d + 1) src (s + 1) n
  end.

Fixpoint sample_move_dS_s16 (dst : samples) (d : Z) (src : samples) (s : Z)
  (nsamples : nat) : samples :=
  match nsamples with
  | O => dst
  | S n =>
      let src16 := s16 (src s) in
      let dst' := store dst d (F32.to_bits (float_of_s16 src16)) in
      sample_move_dS_s16 dst' (d + 1) src (s + 1) n
  end.

Fixpoint sample_move_d16_sS (dst : samples) (d : Z) (src : samples) (s : Z)
  (nsamples : nat) : samples :=
  match nsamples with
  | O => dst
  | S n =>
      let dst' := store dst d (u16 (s16_of_float (F32.of_bits (src s)))) in
      sample_move_d16_sS dst' (d + 1) src (s + 1) n
  end.


(** The conversion function pair stored in an [IntegerJackPortConverter]
    ([ReadCopyFunction], [WriteCopyFunction]): destination buffer and frame,
    source buffer and frame, number of samples. *)
Definition CopyFunction := samples -> Z -> samples -> Z -> nat -> samples.

(* ------------------------------------------------------------------ *)
(** * The host side of a port *)

(** Modelled from the spec: the opaque server port handle.  The host offers
    "get buffer for N frames", which yields a raw float pointer or null, and
    the port flags; [port_data] holds the samples behind [port_buffer]. *)
Record jack_port_t := {
  port_buffer : Z;
  port_data : samples;
  port_flags : Z
}.

Definition jack_port_get_buffer (port : jack_port_t) (frames : jack_nframes_t) : Z :=
  port_buffer port.

Definition jack_port_flags (port : jack_port_t) : Z := port_flags port.

(** Modelled from the spec: the direction flag of a port ([JackPortIsOutput]
    of the host's <jack/types.h>). *)
Definition JackPortIsOutput : Z := 2.
Definition JackPortIsInput : Z := 1.

Definition set_port_data (port : jack_port_t) (d : samples) : jack_port_t :=
  {| port_buffer := port_buffer port; port_data := d; port_flags := port_flags port |}.

(** A pointer passed in by the caller together with the frames stored
    behind it. *)
Record source := { src_ptr : Z; src_data : samples }.

Definition sizeof_float : Z := 4.

(* ------------------------------------------------------------------ *)
(** * class ForwardJackPortConverter *)

Module ForwardJackPortConverter.

Record t := {
  port : jack_port_t;
  buffer : Z
}.

Definition create (pt : jack_port_t) : t := {| port := pt; buffer := NULL |}.

Definition get_buffer (c : t) (frames : jack_nframes_t) : Z :=
  jack_port_get_buffer (port c) frames.

Definition get (c : t) (frames : jack_nframes_t) : Z * t :=
  let b := get_buffer c frames in
  (b, {| port := port c; buffer := b |}).

(** The [memcpy] writes through the pointer [get_buffer] returns and reads
    through [buf]; the C++ tests neither.  [None] is the copy through a null
    pointer, which has no result. *)
Definition set (c : t) (buf : source) (frames : jack_nframes_t) : option t :=
  if src_ptr buf =? buffer c then Some c
  else if (get_buffer c frames =? NULL) || (src_ptr buf =? NULL) then None
  else
    Some {| port := set_port_data (port c)
                      (memcpy (port_data (port c)) 0 (src_data buf) 0 frames);
            buffer := buffer c |}.

End ForwardJackPortConverter.

(* ------------------------------------------------------------------ *)
(** * class ShadowBufferJackPortConverter and class IntegerJackPortConverter *)

Module ShadowBufferJackPortConverter.

(** [storage] is the address of the member array [buffer], [shadow] the
    frames stored from [aligned_buffer] on.  [integer] is [None] for an
    object of the base class and holds [(to_jack, from_jack)] for an
    [IntegerJackPortConverter].

    The member array has [BUFFER_SIZE_MAX + 8] words of four bytes, so that
    [BUFFER_SIZE_MAX * 4] bytes follow [aligned_buffer]; [BUFFER_SIZE_MAX]
    comes from a header of the host.  No method compares a frame count with
    it, and [shadow] has a sample at every frame: a copy past frame
    [BUFFER_SIZE_MAX] is written here where the C++ leaves the array.  The
    statements on period adaptation take the capacity as a hypothesis and
    bound the frames that are used. *)
Record t := {
  port : jack_port_t;
  storage : Z;
  aligned_buffer : Z;
  shadow : samples;
  sample_size : Z;
  integer : option (CopyFunction * CopyFunction)
}.

Definition create (pt : jack_port_t) (sample_size : Z) (storage : Z)
  (uninitialised : samples) : t :=
  {| port := pt; storage := storage;
     aligned_buffer := GET_32BYTE_ALIGN_BUFFER storage;
     shadow := uninitialised; sample_size := sample_size; integer := None |}.

Definition create_integer (to_jack from_jack : CopyFunction) (sample_size : Z)
  (pt : jack_port_t) (storage : Z) (uninitialised : samples) : t :=
  {| port := pt; storage := storage;
     aligned_buffer := GET_32BYTE_ALIGN_BUFFER storage;
     shadow := uninitialised; sample_size := sample_size;
     integer := Some (to_jack, from_jack) |}.

Definition set_shadow (c : t) (sh : samples) : t :=
  {| port := port c; storage := storage c; aligned_buffer := aligned_buffer c;
     shadow := sh; sample_size := sample_size c; integer := integer c |}.

Definition set_port (c : t) (pt : jack_port_t) : t :=
  {| port := pt; storage := storage c; aligned_buffer := aligned_buffer c;
     shadow := shadow c; sample_size := sample_size c; integer := integer c |}.

Definition get_buffer (c : t) (frames : jack_nframes_t) : Z :=
  jack_port_get_buffer (port c) frames.

Definition get_shadow_buffer (c : t) (offset : Z) : Z :=
  aligned_buffer c + offset * sample_size c.

(** [ShadowBufferJackPortConverter::copy_from_jack] and its override
    [IntegerJackPortConverter::copy_from_jack]; the call is virtual. *)
Definition copy_from_jack (c : t) (shadow_offset jack_offset frames : jack_nframes_t)
  : Z * t :=
  let src := get_buffer c (u32 (frames + jack_offset)) in
  if src =? NULL then (NULL, c)
  else
    match integer c with
    | None =>
        (aligned_buffer c + shadow_offset * sizeof_float,
         set_shadow c (memcpy (shadow c) shadow_offset
                         (port_data (port c)) jack_offset frames))
    | Some (_, from_jack) =>
        (aligned_buffer c + sample_size c * shadow_offset,
         set_shadow c (from_jack (shadow c) shadow_offset
                         (port_data (port c)) jack_offset (Z.to_nat frames)))
    end.

(** [copy_to_jack] and its override; [src] holds the frames behind the
    pointer passed in. *)
Definition copy_to_jack (c : t) (src : samples)
  (src_offset jack_offset frames : jack_nframes_t) : t :=
  let dst := get_buffer c (u32 (frames + jack_offset)) in
  if dst =? NULL then c
  else
    match integer c with
    | None =>
        set_port c (set_port_data (port c)
                      (memcpy (port_data (port c)) jack_offset src src_offset frames))
    | Some (to_jack, _) =>
        set_port c (set_port_data (port c)
                      (to_jack (port_data (port c)) jack_offset src src_offset
                         (Z.to_nat frames)))
    end.

Definition silence_shadow (c : t) (frames : jack_nframes_t) : t :=
  set_shadow c (memset0 (shadow c) frames).

Definition get (c : t) (frames : jack_nframes_t) : Z * t :=
  copy_from_jack c 0 0 frames.

Definition set (c : t) (src : source) (frames : jack_nframes_t) : t :=
  copy_to_jack c (src_data src) 0 0 frames.

Definition get_samplesize (c : t) : Z := sample_size c.

End ShadowBufferJackPortConverter.

(* ------------------------------------------------------------------ *)
(** * class FramesPortConverter, FramesInPortConverter, FramesOutPortConverter *)

Module FramesPortConverter.

Module SB := ShadowBufferJackPortConverter.

(** The dynamic class of the object. *)
Inductive kind := FramesIn | FramesOut.

(** [shadow_offset] and [client_frames] are members of
    [FramesOutPortConverter] only; an input adapter never reads them. *)
Record t := {
  cls : kind;
  converter : SB.t;
  dst_frames : jack_nframes_t;
  shadow_frames : jack_nframes_t;
  jack_offset : jack_nframes_t;
  shadow_offset : jack_nframes_t;
  client_frames : jack_nframes_t
}.

Definition set_converter (p : t) (c : SB.t) : t :=
  {| cls := cls p; converter := c; dst_frames := dst_frames p;
     shadow_frames := shadow_frames p; jack_offset := jack_offset p;
     shadow_offset := shadow_offset p; client_frames := client_frames p |}.

Definition set_shadow_frames (p : t) (v : jack_nframes_t) : t :=
  {| cls := cls p; converter := converter p; dst_frames := dst_frames p;
     shadow_frames := v; jack_offset := jack_offset p;
     shadow_offset := shadow_offset p; client_frames := client_frames p |}.

Definition set_jack_offset (p : t) (v : jack_nframes_t) : t :=
  {| cls := cls p; converter := converter p; dst_frames := dst_frames p;
     shadow_frames := shadow_frames p; jack_offset := v;
     shadow_offset := shadow_offset p; client_frames := client_frames p |}.

Definition set_shadow_offset (p : t) (v : jack_nframes_t) : t :=
  {| cls := cls p; converter := converter p; dst_frames := dst_frames p;
     shadow_frames := shadow_frames p; jack_offset := jack_offset p;
     shadow_offset := v; client_frames := client_frames p |}.

Definition set_client_frames (p : t) (v : jack_nframes_t) : t :=
  {| cls := cls p; converter := converter p; dst_frames := dst_frames p;
     shadow_frames := shadow_frames p; jack_offset := jack_offset p;
     shadow_offset := shadow_offset p; client_frames := v |}.

Definition msg_differ : string :=
  "Requested frames (%lu) differ from configuration (%lu)".
Definition msg_inport : string :=
  "Inport shadow buffer should not contain more frames (%lu) then requested (%lu)".
Definition msg_outport : string :=
  "OutPort shadow buffer should not contain more frames (%lu) then requested (%lu)".
Definition msg_set_input : string :=
  "Not allowed to call set() for input ports".

(** ** FramesInPortConverter *)

Definition create_in (conv : SB.t) (dst_frames silence_prefill : jack_nframes_t) : t :=
  {| cls := FramesIn;
     converter := SB.silence_shadow conv silence_prefill;
     dst_frames := dst_frames; shadow_frames := silence_prefill;
     jack_offset := 0; shadow_offset := 0; client_frames := 0 |}.

(** [FramesPortConverter::get], inherited by the input adapter. *)
Definition get_in (p : t) (frames : jack_nframes_t) : Z * list string :=
  if negb (frames =? dst_frames p) then (NULL, [msg_differ])
  else (SB.get_shadow_buffer (converter p) 0, []).

Definition append_from_jack (p : t) (missing_jack_frames : jack_nframes_t) : Z * t :=
  let c := snd (SB.copy_from_jack (converter p) (shadow_frames p) (jack_offset p)
                  missing_jack_frames) in
  let p := set_converter p c in
  let p := set_jack_offset p (u32 (jack_offset p + missing_jack_frames)) in
  let p := set_shadow_frames p 0 in
  (1, p).

Definition next_in (p : t) (frames : jack_nframes_t) : Z * t * list string :=
  if shadow_frames p >? dst_frames p then (- EINVAL, p, [msg_inport])
  else
    let jack_frames := u32 (frames - jack_offset p) in
    if u32 (shadow_frames p + jack_frames) >=? dst_frames p then
      let missing_jack_frames := u32 (dst_frames p - shadow_frames p) in
      (append_from_jack p missing_jack_frames, [])
    else
      let c := snd (SB.copy_from_jack (converter p) (shadow_frames p)
                      (jack_offset p) jack_frames) in
      let p := set_converter p c in
      let p := set_shadow_frames p (u32 (shadow_frames p + jack_frames)) in
      let p := set_jack_offset p 0 in
      (0, p, []).

Definition set_in (p : t) (src : source) (frames : jack_nframes_t) : t * list string :=
  (p, [msg_set_input]).

(** ** FramesOutPortConverter *)

Definition create_out (conv : SB.t) (dst_frames : jack_nframes_t) : t :=
  {| cls := FramesOut; converter := conv; dst_frames := dst_frames;
     shadow_frames := 0; jack_offset := 0; shadow_offset := 0;
     client_frames := 0 |}.

Definition next_out (p : t) (frames : jack_nframes_t) : Z * t * list string :=
  if shadow_frames p >? (if frames >? dst_frames p then frames else dst_frames p)
  then (- EINVAL, p, [msg_outport])
  else
    let p :=
      if u32 (shadow_frames p + client_frames p) >=? frames then
        let c := SB.copy_to_jack (converter p)
                   (fun i => SB.shadow (converter p) (shadow_offset p + i))
                   0 0 frames in
        let p := set_converter p c in
        let p := set_shadow_frames p
                   (u32 (u32 (shadow_frames p + client_frames p) - frames)) in
        let p := set_shadow_offset p (u32 (shadow_offset p + frames)) in
        if shadow_frames p =? 0 then set_shadow_offset p 0 else p
      else
        set_shadow_frames p (u32 (shadow_frames p + client_frames p)) in
    let p :=
      if negb (shadow_offset p =? 0) && (shadow_frames p <=? frames) then
        let c := SB.set_shadow (converter p)
                   (memmove (SB.shadow (converter p)) 0 (shadow_offset p)
                      (shadow_frames p)) in
        set_shadow_offset (set_converter p c) 0
      else p in
    let p := set_client_frames p 0 in
    (1, p, []).

Definition free_slot (p : t) : jack_nframes_t :=
  u32 (u32 (shadow_offset p + shadow_frames p) + client_frames p).

Definition get_out (p : t) (frames : jack_nframes_t) : Z * list string :=
  if negb (frames =? dst_frames p) then (NULL, [msg_differ])
  else (SB.get_shadow_buffer (converter p) (free_slot p), []).

Definition set_out (p : t) (src : source) (frames : jack_nframes_t) : t * list string :=
  let log := if negb (frames =? dst_frames p) then [msg_differ] else [] in
  let buf := SB.get_shadow_buffer (converter p) (free_slot p) in
  if src_ptr src =? buf then (p, log)
  else
    (set_converter p
       (SB.set_shadow (converter p)
          (memcpy (SB.shadow (converter p)) (free_slot p) (src_data src) 0 frames)),
     log).

Definition update_client_frames_out (p : t) : t :=
  set_client_frames p (u32 (client_frames p + dst_frames p)).

(** ** The virtual calls *)

Definition next (p : t) (frames : jack_nframes_t) : Z * t * list string :=
  match cls p with
  | FramesIn => next_in p frames
  | FramesOut => next_out p frames
  end.

Definition update_client_frames (p : t) : t :=
  match cls p with
  | FramesIn => p
  | FramesOut => update_client_frames_out p
  end.

Definition get (p : t) (frames : jack_nframes_t) : Z * list string :=
  match cls p with
  | FramesIn => get_in p frames
  | FramesOut => get_out p frames
  end.

Definition set (p : t) (src : source) (frames : jack_nframes_t) : t * list string :=
  match cls p with
  | FramesIn => set_in p src frames
  | FramesOut => set_out p src frames
  end.

End FramesPortConverter.

(* ------------------------------------------------------------------ *)
(** * class JackBufferConverter *)

Module JackBufferConverter.

Module FP := FramesPortConverter.

Record t := {
  InPorts : list FP.t;
  OutPorts : list FP.t;
  dst_frames : jack_nframes_t;
  silence_prefil : jack_nframes_t
}.

Definition set_InPorts (conv : t) (ports : list FP.t) : t :=
  {| InPorts := ports; OutPorts := OutPorts conv;
     dst_frames := dst_frames conv; silence_prefil := silence_prefil conv |}.

Definition set_OutPorts (conv : t) (ports : list FP.t) : t :=
  {| InPorts := InPorts conv; OutPorts := ports;
     dst_frames := dst_frames conv; silence_prefil := silence_prefil conv |}.

Definition msg_no_ports : string := "Processing called without any audio ports".

(** The loop of [next]: [result] is the running minimum. *)
Fixpoint next_loop (frames : jack_nframes_t) (ports : list FP.t) (result : Z)
  : Z * list FP.t * list string :=
  match ports with
  | [] => (result, [], [])
  | port :: rest =>
      let '(ret, port', log) := FP.next port frames in
      if ret <? 0 then (ret, port' :: rest, log)
      else
        let result := if ret <? result then ret else result in
        let '(r, rest', log') := next_loop frames rest result in
        (r, port' :: rest', log ++ log')
  end.

Definition next (frames : jack_nframes_t) (ports : list FP.t)
  : Z * list FP.t * list string :=
  match ports with
  | [] => (-1, ports, [msg_no_ports])
  | _ => next_loop frames ports 1
  end.

(** [%] of two [jack_nframes_t]; dividing by zero is undefined. *)
Definition umod (a b : Z) : option Z := if b =? 0 then None else Some (a mod b).

Definition calculate_silence_prefill (client_per_size server_per_size : jack_nframes_t)
  : option jack_nframes_t :=
  if server_per_size >? client_per_size then
    match umod server_per_size client_per_size with
    | None => None
    | Some r => if r =? 0 then Some 0 else Some client_per_size
    end
  else if server_per_size <? client_per_size then
    match umod client_per_size server_per_size with
    | None => None
    | Some r =>
        if r =? 0 then Some (u32 (client_per_size - server_per_size))
        else Some client_per_size
    end
  else Some 0.

(** The constructor.  [buffer_size] is what [jack_get_buffer_size(client)]
    answers, [arg_is_null] and [registered] say whether [arg] is [NULL] and
    whether [jack_set_process_callback] succeeded; [None] is the exception
    (or the undefined division above). *)
Definition create (buffer_size : jack_nframes_t) (arg_is_null registered : bool)
  (dst_frames : jack_nframes_t) : option t :=
  match calculate_silence_prefill dst_frames buffer_size with
  | None => None
  | Some prefill =>
      if arg_is_null then None
      else if negb registered then None
      else Some {| InPorts := []; OutPorts := []; dst_frames := dst_frames;
                   silence_prefil := prefill |}
  end.

Definition add (conv : t) (port : FP.t) (flags : Z) : t :=
  if negb (Z.land flags JackPortIsOutput =? 0)
  then set_OutPorts conv (OutPorts conv ++ [port])
  else set_InPorts conv (InPorts conv ++ [port]).

(** One invocation of the client callback, as the process callback sees it:
    the frame count passed, the aggregator before the input adapters were
    advanced, the aggregator handed to the client and the value the client
    returned. *)
Record invocation := {
  inv_nframes : jack_nframes_t;
  inv_before : t;
  inv_state : t;
  inv_ret : Z
}.

Record outcome (A : Type) := {
  out_ret : Z;
  out_arg : A;
  out_conv : t;
  out_calls : list invocation;
  out_log : list string
}.
Arguments out_ret {A}.
Arguments out_arg {A}.
Arguments out_conv {A}.
Arguments out_calls {A}.
Arguments out_log {A}.

Section Process.

(** The client: the state behind [arg] and the registered callback, which
    reaches the port converters through the handles it keeps in [arg]. *)
Context {A : Type}.
Variable callback : jack_nframes_t -> A -> t -> Z * A * t.

(** The [while] loop of [converter].  [inl] is the [return cb_ret] inside
    the loop, [inr] the value of [ret] when the loop is left.  [fuel] bounds
    the number of iterations. *)
Fixpoint converter_loop (fuel : nat) (frames : jack_nframes_t) (arg : A) (conv : t)
  : option (Z + Z) * A * t * list invocation * list string :=
  match fuel with
  | O => (None, arg, conv, [], [])
  | S fuel =>
      let '(ret, ins, log) := next frames (InPorts conv) in
      let conv1 := set_InPorts conv ins in
      if ret >=? 1 then
        let '(cb_ret, arg', conv2) := callback (dst_frames conv1) arg conv1 in
        let call := {| inv_nframes := dst_frames conv1; inv_before := conv;
                       inv_state := conv1; inv_ret := cb_ret |} in
        if cb_ret <? 0 then (Some (inl cb_ret), arg', conv2, [call], log)
        else
          let conv3 := set_OutPorts conv2 (map FP.update_client_frames (OutPorts conv2)) in
          let '(r, arg'', conv4, calls, log') := converter_loop fuel frames arg' conv3 in
          (r, arg'', conv4, call :: calls, log ++ log')
      else (Some (inr ret), arg, conv1, [], log)
  end.

(** The registered process callback; [None] when [fuel] iterations did not
    finish the loop. *)
Definition converter (fuel : nat) (frames : jack_nframes_t) (arg : A) (conv : t)
  : option (outcome A) :=
  match converter_loop fuel frames arg conv with
  | (None, _, _, _, _) => None
  | (Some (inl cb_ret), arg, conv, calls, log) =>
      Some {| out_ret := cb_ret; out_arg := arg; out_conv := conv;
              out_calls := calls; out_log := log |}
  | (Some (inr ret), arg, conv, calls, log) =>
      let '(outport_ret, outs, log') := next frames (OutPorts conv) in
      let conv := set_OutPorts conv outs in
      Some {| out_ret := if outport_ret <? 0 then outport_ret else ret;
              out_arg := arg; out_conv := conv;
              out_calls := calls; out_log := log ++ log' |}
  end.

(** The host drives the process callback once per cycle; before each cycle
    it provides the buffers of the ports.  A cycle is the pair of the
    buffers of the input and of the output ports, in the order of
    [InPorts] and [OutPorts]. *)
Definition refresh_port (p : FP.t) (pt : jack_port_t) : FP.t :=
  FP.set_converter p (ShadowBufferJackPortConverter.set_port (FP.converter p) pt).

Fixpoint refresh (ports : list FP.t) (pts : list jack_port_t) : list FP.t :=
  match ports, pts with
  | p :: ports, pt :: pts => refresh_port p pt :: refresh ports pts
  | _, _ => ports
  end.

Definition cycle := (list jack_port_t * list jack_port_t)%type.

Definition begin_cycle (conv : t) (c : cycle) : t :=
  set_OutPorts (set_InPorts conv (refresh (InPorts conv) (fst c)))
    (refresh (OutPorts conv) (snd c)).

(** Consecutive process callbacks of [frames] frames each; the result lists
    the return value and the client invocations of every cycle. *)
Fixpoint run (fuel : nat) (frames : jack_nframes_t) (cycles : list cycle)
  (arg : A) (conv : t) : option (list (Z * list invocation) * A * t) :=
  match cycles with
  | [] => Some ([], arg, conv)
  | c :: cycles =>
      match converter fuel frames arg (begin_cycle conv c) with
      | None => None
      | Some o =>
          match run fuel frames cycles (out_arg o) (out_conv o) with
          | None => None
          | Some (rs, arg', conv') =>
              Some ((out_ret o, out_calls o) :: rs, arg', conv')
          end
      end
  end.

End Process.

End JackBufferConverter.

(* ------------------------------------------------------------------ *)
(** * The C API *)

Module FW := ForwardJackPortConverter.
Module SB := ShadowBufferJackPortConverter.
Module FP := FramesPortConverter.
Module BC := JackBufferConverter.

Definition JACK_PORT_CONV_FMT_DEFAULT : Z := 0.
Definition JACK_PORT_CONV_FMT_INT16 : Z := 1.
Definition JACK_PORT_CONV_FMT_INT32 : Z := 2.

Definition sizeof_int32_t : Z := 4.
Definition sizeof_int16_t : Z := 2.

(** The object behind a [JackPortConverter_t*], by dynamic class. *)
Inductive IJackPortConverter :=
| Forward (c : FW.t)
| Shadow (c : SB.t)
| Frames (p : FP.t).

Definition msg_unsupported : string :=
  "jack_port_create_converter called with dst_type that is not supported".
Definition msg_flags : string := "Getting flags of port %s failed".
Definition msg_null_handle : string := "Port converter handle is NULL".

(** [storage] and [uninitialised] describe the memory [new] hands out for a
    shadow buffer: its address and what it happens to contain.  The result
    is the handle ([None] is [NULL]), the aggregator after registration and
    the log.  A [Frames] handle denotes the adapter just appended to the
    aggregator. *)
Definition jack_port_create_convert (port : jack_port_t) (dst_type : Z)
  (init_output_silence : bool) (iconv : option BC.t)
  (storage : Z) (uninitialised : samples)
  : option IJackPortConverter * option BC.t * list string :=
  let wrap (format_conv : SB.t) :=
    match iconv with
    | None => (Some (Shadow format_conv), iconv, [])
    | Some conv =>
        let flags := jack_port_flags port in
        if flags <? 0 then (None, iconv, [msg_flags])
        else
          let frames_conv :=
            if negb (Z.land flags JackPortIsOutput =? 0)
            then FP.create_out format_conv (BC.dst_frames conv)
            else FP.create_in format_conv (BC.dst_frames conv) (BC.silence_prefil conv) in
          (Some (Frames frames_conv), Some (BC.add conv frames_conv flags), [])
    end in
  if dst_type =? JACK_PORT_CONV_FMT_DEFAULT then
    match iconv with
    | None => (Some (Forward (FW.create port)), iconv, [])
    | Some _ => wrap (SB.create port sizeof_float storage uninitialised)
    end
  else if dst_type =? JACK_PORT_CONV_FMT_INT32 then
    wrap (SB.create_integer sample_move_dS_s32 sample_move_d32_sS sizeof_int32_t
            port storage uninitialised)
  else if dst_type =? JACK_PORT_CONV_FMT_INT16 then
    wrap (SB.create_integer sample_move_dS_s16 sample_move_d16_sS sizeof_int16_t
            port storage uninitialised)
  else (None, iconv, [msg_unsupported]).

Definition IJackPortConverter_get (pc : IJackPortConverter) (frames : jack_nframes_t)
  : Z * IJackPortConverter * list string :=
  match pc with
  | Forward c => let '(b, c') := FW.get c frames in (b, Forward c', [])
  | Shadow c => let '(b, c') := SB.get c frames in (b, Shadow c', [])
  | Frames p => let '(b, log) := FP.get p frames in (b, Frames p, log)
  end.

(** [None]: the call does not return (see [FW.set]). *)
Definition IJackPortConverter_set (pc : IJackPortConverter) (buf : source)
  (frames : jack_nframes_t) : option (IJackPortConverter * list string) :=
  match pc with
  | Forward c =>
      match FW.set c buf frames with
      | Some c' => Some (Forward c', [])
      | None => None
      end
  | Shadow c => Some (Shadow (SB.set c buf frames), [])
  | Frames p => let '(p', log) := FP.set p buf frames in Some (Frames p', log)
  end.

Definition jack_port_convert_get (handle : option IJackPortConverter)
  (frames : jack_nframes_t) : Z * option IJackPortConverter * list string :=
  match handle with
  | None => (NULL, None, [msg_null_handle])
  | Some pc => let '(b, pc', log) := IJackPortConverter_get pc frames in (b, Some pc', log)
  end.

Definition jack_port_convert_set (handle : option IJackPortConverter)
  (buf : source) (frames : jack_nframes_t)
  : option (option IJackPortConverter * list string) :=
  match handle with
  | None => Some (None, [msg_null_handle])
  | Some pc =>
      match IJackPortConverter_set pc buf frames with
      | Some (pc', log) => Some (Some pc', log)
      | None => None
      end
  end.


(** [jack_buffer_create_convert]: the constructor's exceptions become a
    [NULL] handle. *)
Definition jack_buffer_create_convert (buffer_size : jack_nframes_t)
  (arg_is_null registered : bool) (dst_frames : jack_nframes_t) : option BC.t :=
  match BC.create buffer_size arg_is_null registered dst_frames with
  | Some conv => Some conv
  | None => None
  end.

(** The [std::type_info] values that [jack_port_create_converter] tells
    apart. *)
Inductive type_info :=
| typeid_float
| typeid_int32_t
| typeid_int16_t
| typeid_other.

(** [jack_port_create_converter], the C++ entry point.  Its local [iconv] is
    always [nullptr]; the code behind it, which would wrap the converter in a
    period adapter, is kept as the source has it. *)
Definition jack_port_create_converter (port : jack_port_t) (dst_type : type_info)
  (init_output_silence : bool) (storage : Z) (uninitialised : samples)
  : option IJackPortConverter * list string :=
  let iconv : option BC.t := None in
  let wrap (format_conv : SB.t) :=
    match iconv with
    | None => (Some (Shadow format_conv), [])
    | Some conv =>
        let flags := jack_port_flags port in
        if flags <? 0 then (None, [msg_flags])
        else
          let frames_conv :=
            if negb (Z.land flags JackPortIsOutput =? 0)
            then FP.create_out format_conv (BC.dst_frames conv)
            else FP.create_in format_conv (BC.dst_frames conv) (BC.silence_prefil conv) in
          (Some (Frames frames_conv), [])
    end in
  match dst_type with
  | typeid_float =>
      match iconv with
      | None => (Some (Forward (FW.create port)), [])
      | Some _ => wrap (SB.create port sizeof_float storage uninitialised)
      end
  | typeid_int32_t =>
      wrap (SB.create_integer sample_move_dS_s32 sample_move_d32_sS sizeof_int32_t
              port storage uninitialised)
  | typeid_int16_t =>
      wrap (SB.create_integer sample_move_dS_s16 sample_move_d16_sS sizeof_int16_t
              port storage uninitialised)
  | typeid_other => (None, [msg_unsupported])
  end.

(* ------------------------------------------------------------------ *)
(** * The example client (example-clients/inprocess_period.cpp) *)

Module InprocessPeriod.

(** The frame of the shadow buffer of [p] that the pointer [ptr] addresses. *)
Definition frame_of (p : FP.t) (ptr : Z) : Z :=
  (ptr - SB.aligned_buffer (FP.converter p)) / SB.sample_size (FP.converter p).

(** [inprocess]: [input_port_converter] and [output_port_converter] of the
    client's struct are the first input and the first output adapter, and
    [NULL] when there is none.  [jack_port_convert_get] returns [NULL] for a
    [NULL] handle and for a frame count other than the client period; the
    [memcpy] that follows is not guarded, and [None] is that copy through a
    null pointer, from which the callback does not return.  The
    [sizeof(int32_t) * nframes] bytes copied are [nframes] frames of the two
    shadow buffers: the client registers both ports with the [int32_t]
    format, whose samples have four bytes. *)
Definition inprocess (nframes : jack_nframes_t) (arg : unit) (conv : BC.t)
  : option (Z * unit * BC.t) :=
  match BC.InPorts conv, BC.OutPorts conv with
  | inp :: _, outp :: outs =>
      let in_buffer := fst (FP.get inp nframes) in
      let out_buffer := fst (FP.get outp nframes) in
      if (in_buffer =? NULL) || (out_buffer =? NULL) then None
      else
        let copied :=
          memcpy (SB.shadow (FP.converter outp)) (frame_of outp out_buffer)
            (SB.shadow (FP.converter inp)) (frame_of inp in_buffer) nframes in
        let outp := FP.set_converter outp (SB.set_shadow (FP.converter outp) copied) in
        let behind :=
          fun i => SB.shadow (FP.converter outp) (frame_of outp out_buffer + i) in
        let outp :=
          fst (FP.set outp {| src_ptr := out_buffer; src_data := behind |} nframes) in
        Some (0, arg, BC.set_OutPorts conv (outp :: outs))
  | _, _ => None
  end.

End InprocessPeriod.

(* ================================================================== *)
(** * Vocabulary of the statements *)

Definition is_u32 (x : Z) : Prop := 0 <= x < 2 ^ 32.

(** A conversion loop that writes [f] of every source sample. *)
Definition pointwise (f : Z -> Z) (copy : CopyFunction) : Prop :=
  forall dst d src s n i,
    copy dst d src s n i =
    if (d <=? i) && (i <? d + Z.of_nat n) then f (src (s + (i - d))) else dst i.

Definition d32_sample (b : Z) : Z := u32 (s32_of_float (F32.of_bits b)).
Definition d16_sample (b : Z) : Z := u16 (s16_of_float (F32.of_bits b)).
Definition dS_s32_sample (b : Z) : Z := F32.to_bits (float_of_s32 (s32 b)).
Definition dS_s16_sample (b : Z) : Z := F32.to_bits (float_of_s16 (s16 b)).

(** What [copy_from_jack] and [copy_to_jack] do to one sample: nothing for a
    float shadow buffer, the conversion loop's function for an integer one. *)
Definition from_jack_by (c : SB.t) (f : Z -> Z) : Prop :=
  match SB.integer c with
  | None => forall b, f b = b
  | Some (_, from_jack) => pointwise f from_jack
  end.

Definition to_jack_by (c : SB.t) (g : Z -> Z) : Prop :=
  match SB.integer c with
  | None => forall b, g b = b
  | Some (to_jack, _) => pointwise g to_jack
  end.

Definition same_converter (c c' : SB.t) : Prop :=
  port_buffer (SB.port c') = port_buffer (SB.port c) /\
  port_flags (SB.port c') = port_flags (SB.port c) /\
  SB.storage c' = SB.storage c /\
  SB.aligned_buffer c' = SB.aligned_buffer c /\
  SB.sample_size c' = SB.sample_size c /\
  SB.integer c' = SB.integer c.

Definition in_range (lo n i : Z) : bool := (lo <=? i) && (i <? lo + n).

(** The counters after the first [if] of [FramesOutPortConverter::next]. *)
Definition drained_frames (p : FP.t) (frames : jack_nframes_t) : jack_nframes_t :=
  u32 (u32 (FP.shadow_frames p + FP.client_frames p) - frames).

Definition drained_offset (p : FP.t) (frames : jack_nframes_t) : jack_nframes_t :=
  if drained_frames p frames =? 0 then 0 else u32 (FP.shadow_offset p + frames).

(** An output adapter for client period 64 on an [int32_t] shadow buffer
    whose storage happens to hold 9 in every frame, and a client buffer
    holding 42. *)
Definition misuse_port : jack_port_t :=
  {| port_buffer := 0x20000; port_data := fun _ => 0; port_flags := JackPortIsOutput |}.

Definition misuse_adapter : FP.t :=
  FP.create_out
    (SB.create_integer sample_move_dS_s32 sample_move_d32_sS sizeof_int32_t
       misuse_port 0x7008 (fun _ => 9))
    64.

Definition misuse_source : source := {| src_ptr := 0x9000; src_data := fun _ => 42 |}.

(** An [int32_t] converter on a port whose buffer holds the float 2.0 in
    every frame. *)
Definition loud_port : jack_port_t :=
  {| port_buffer := 0x10000; port_data := fun _ => 0x40000000; port_flags := JackPortIsOutput |}.

Definition loud_converter : SB.t :=
  SB.create_integer sample_move_dS_s32 sample_move_d32_sS sizeof_int32_t
    loud_port 0x3004 (fun _ => 0).

(** [get] followed by [set] with the pointer returned and the frames behind
    it. *)
Definition get_then_set (c : SB.t) (frames : jack_nframes_t) : SB.t :=
  let '(p, c1) := SB.get c frames in
  SB.set c1 {| src_ptr := p; src_data := SB.shadow c1 |} frames.

Definition aligned32 (p : Z) : Prop := p mod BUF_ALIGN_BYTES = 0.

(** The converter still has the aligned start its constructor computed. *)
Definition constructed (c : SB.t) : Prop :=
  SB.aligned_buffer c = GET_32BYTE_ALIGN_BUFFER (SB.storage c).

(** The members of an adapter that only the adapter itself can change. *)
Definition counters (p : FP.t) :=
  (FP.cls p, FP.dst_frames p, FP.shadow_frames p, FP.jack_offset p,
   FP.shadow_offset p, FP.client_frames p).

(** The client reaches the adapters through [get] and [set] only: whatever it
    does to the buffers, the counters, the port lists and the configuration of
    the aggregator stay as they are. *)
Definition respects_counters {A} (callback : jack_nframes_t -> A -> BC.t -> Z * A * BC.t)
  : Prop :=
  forall n arg conv,
    let conv' := snd (callback n arg conv) in
    map counters (BC.InPorts conv') = map counters (BC.InPorts conv) /\
    map counters (BC.OutPorts conv') = map counters (BC.OutPorts conv) /\
    BC.dst_frames conv' = BC.dst_frames conv /\
    BC.silence_prefil conv' = BC.silence_prefil conv.

(** The input adapter on its counters alone. *)
Definition in_ret (C frames sf off : Z) : Z :=
  if sf >? C then - EINVAL
  else if u32 (sf + u32 (frames - off)) >=? C then 1 else 0.

Definition in_sf (C frames sf off : Z) : Z :=
  if sf >? C then sf
  else if u32 (sf + u32 (frames - off)) >=? C then 0
       else u32 (sf + u32 (frames - off)).

Definition in_off (C frames sf off : Z) : Z :=
  if sf >? C then off
  else if u32 (sf + u32 (frames - off)) >=? C then u32 (off + u32 (C - sf))
       else 0.

(** [next] returns a positive value only when the list is not empty and every
    adapter in it has just returned a positive value. *)
Definition advanced (frames : jack_nframes_t) (p p' : FP.t) : Prop :=
  exists r log, FP.next p frames = (r, p', log) /\ 1 <= r.

(** An adapter as the factory registers it in [InPorts] for client period
    [C]. *)
Definition input_adapter (C : jack_nframes_t) (p : FP.t) : Prop :=
  FP.cls p = FP.FramesIn /\ FP.dst_frames p = C /\
  is_u32 (FP.shadow_frames p) /\ is_u32 (FP.jack_offset p).

(** [p'] is the input adapter [p] after [next(frames)] returned 1: [get]
    hands out the start of its shadow buffer, whose first [C] frames are the
    [shadow_frames p] frames buffered before followed by the frames just
    copied from the server buffer at [jack_offset p]. *)
Definition filled (frames C : jack_nframes_t) (p p' : FP.t) : Prop :=
  FP.next p frames = (1, p', []) /\
  FP.get p' C = (SB.get_shadow_buffer (FP.converter p') 0, []) /\
  FP.shadow_frames p <= C /\
  forall f, from_jack_by (FP.converter p) f ->
    port_buffer (SB.port (FP.converter p)) <> NULL ->
    forall i, 0 <= i < C ->
      SB.shadow (FP.converter p') i =
      if i <? FP.shadow_frames p then SB.shadow (FP.converter p) i
      else f (port_data (SB.port (FP.converter p))
                (FP.jack_offset p + (i - FP.shadow_frames p))).

Definition loop_calls {A} (x : option (Z + Z) * A * BC.t * list BC.invocation * list string)
  : list BC.invocation := snd (fst x).

(** What holds at an invocation of the client callback. *)
Definition invoked_ready (frames C : jack_nframes_t) (call : BC.invocation) : Prop :=
  BC.inv_nframes call = C /\
  BC.InPorts (BC.inv_before call) <> [] /\
  Forall2 (filled frames C) (BC.InPorts (BC.inv_before call))
    (BC.InPorts (BC.inv_state call)).

Definition loop_result {A} (x : option (Z + Z) * A * BC.t * list BC.invocation * list string)
  : option (Z + Z) := fst (fst (fst (fst x))).

Definition loop_conv {A} (x : option (Z + Z) * A * BC.t * list BC.invocation * list string)
  : BC.t := snd (fst (fst x)).

(** Twice the frames of the server buffer not yet consumed, plus one while
    the shadow buffer is full: each turn of the loop makes it smaller. *)
Definition in_measure (frames C : jack_nframes_t) (p : FP.t) : Z :=
  2 * u32 (frames - FP.jack_offset p) + (if FP.shadow_frames p =? C then 1 else 0).

(** The first input adapter, when there is one, is an input adapter for a
    client period of at least one frame. *)
Definition first_input_ok (conv : BC.t) : Prop :=
  match BC.InPorts conv with
  | [] => True
  | p :: _ => 0 < FP.dst_frames p /\ is_u32 (FP.dst_frames p) /\
              input_adapter (FP.dst_frames p) p
  end.

Definition loop_fuel (frames : jack_nframes_t) (conv : BC.t) : nat :=
  match BC.InPorts conv with
  | [] => 1
  | p :: _ => S (Z.to_nat (in_measure frames (FP.dst_frames p) p))
  end.

(** How the loop ends: with the negative value the last client invocation
    returned, or with every invocation successful. *)
Definition loop_outcome {A}
  (x : option (Z + Z) * A * BC.t * list BC.invocation * list string) : Prop :=
  match loop_result x with
  | None => True
  | Some (inl v) =>
      v < 0 /\
      exists calls call,
        loop_calls x = calls ++ [call] /\ BC.inv_ret call = v /\
        Forall (fun call => 0 <= BC.inv_ret call) calls
  | Some (inr v) =>
      Forall (fun call => 0 <= BC.inv_ret call) (loop_calls x)
  end.

(** Every adapter of the list is an input adapter for client period [C] with
    [sf] frames buffered and the server buffer consumed up to [off]. *)
Definition in_step_with (C sf off : jack_nframes_t) (p : FP.t) : Prop :=
  FP.cls p = FP.FramesIn /\ FP.dst_frames p = C /\
  FP.shadow_frames p = sf /\ FP.jack_offset p = off.

Definition inputs_at (C sf off : jack_nframes_t) (conv : BC.t) : Prop :=
  BC.InPorts conv <> [] /\ Forall (in_step_with C sf off) (BC.InPorts conv).

(** The aggregator as the constructor and the factory leave it: every input
    adapter is one for its client period, prefilled with its silence prefill,
    which is at most one client period. *)
Definition fresh (conv : BC.t) : Prop :=
  0 <= BC.silence_prefil conv <= BC.dst_frames conv /\
  Forall (in_step_with (BC.dst_frames conv) (BC.silence_prefil conv) 0) (BC.InPorts conv).

(** An input port whose buffer holds the floats 0.5, 0.5000001, ... and an
    output port. *)
Definition example_in_port : jack_port_t :=
  {| port_buffer := 0x10000; port_data := fun i => 0x3F000000 + i;
     port_flags := JackPortIsInput |}.

Definition example_out_port : jack_port_t :=
  {| port_buffer := 0x20000; port_data := fun _ => 0; port_flags := JackPortIsOutput |}.

(** What [jack_initialize] of the example client sets up: the aggregator for
    client period [C] on a server of period [S], one input and one output
    port, both converted to [dst_type]. *)
Definition example_system (C S : jack_nframes_t) (dst_type : Z) : option BC.t :=
  match BC.create S false true C with
  | None => None
  | Some conv =>
      let '(_, conv, _) :=
        jack_port_create_convert example_in_port dst_type false (Some conv)
          0x3004 (fun _ => 7) in
      let '(_, conv, _) :=
        jack_port_create_convert example_out_port dst_type false conv
          0x7008 (fun _ => 9) in
      conv
  end.

(** A client callback that returns in every state, for the statements about
    such clients: [inprocess] behind a test of its two buffers.  Where
    [inprocess] would copy through a null pointer this client touches
    nothing and returns 0. *)
Definition checked_inprocess (nframes : jack_nframes_t) (arg : unit) (conv : BC.t)
  : Z * unit * BC.t :=
  match InprocessPeriod.inprocess nframes arg conv with
  | Some r => r
  | None => (0, arg, conv)
  end.

(** A client callback that uses no port. *)
Definition idle_client (nframes : jack_nframes_t) (arg : unit) (conv : BC.t)
  : Z * unit * BC.t := (0, arg, conv).

Definition example_cycles (T : nat) : list BC.cycle :=
  repeat ([example_in_port], [example_out_port]) T.

Definition example_run (C S : jack_nframes_t) (T : nat)
  : option (list (Z * list BC.invocation) * unit * BC.t) :=
  match example_system C S JACK_PORT_CONV_FMT_INT32 with
  | None => None
  | Some conv => BC.run checked_inprocess 200 S (example_cycles T) tt conv
  end.

(** A client callback that fails. *)
Definition failing_client (nframes : jack_nframes_t) (arg : unit) (conv : BC.t)
  : Z * unit * BC.t := (-5, arg, conv).

(** The block of scenario 6: -2.0, -1.0, -0.5, 0.0, 0.5, 1.0, 2.0. *)
Definition extremes : samples :=
  fun i => nth (Z.to_nat i)
             [0xC0000000; 0xBF800000; 0xBF000000; 0; 0x3F000000; 0x3F800000; 0x40000000] 0.

Definition example_int32_converter (pt : jack_port_t) (storage : Z) : SB.t :=
  SB.create_integer sample_move_dS_s32 sample_move_d32_sS sizeof_int32_t pt storage
    (fun _ => 7).

(** An input adapter for client period 64, prefilled with 64 frames. *)
Definition example_in_adapter : FP.t :=
  FP.create_in (example_int32_converter example_in_port 0x3004) 64 64.

(** An input adapter for client period 64 that holds 28 frames of silence. *)
Definition partial_in_adapter : FP.t :=
  FP.create_in (example_int32_converter example_in_port 0x3004) 64 28.

(** An output adapter for client period 64 after two client invocations. *)
Definition example_out_adapter : FP.t :=
  FP.update_client_frames
    (FP.update_client_frames
       (FP.create_out (example_int32_converter example_out_port 0x7008) 64)).

Definition empty_aggregator : BC.t :=
  {| BC.InPorts := []; BC.OutPorts := []; BC.dst_frames := 0; BC.silence_prefil := 0 |}.

Definition example_aggregator (C S : jack_nframes_t) : BC.t :=
  match example_system C S JACK_PORT_CONV_FMT_INT32 with
  | Some conv => conv
  | None => empty_aggregator
  end.

(** The aggregator for client period 64 with the input port only. *)
Definition input_only_aggregator : BC.t :=
  BC.set_OutPorts (example_aggregator 64 64) [].

Definition example_float_converter : SB.t :=
  SB.create example_in_port sizeof_float 0x3004 (fun _ => 7).

(** ** Numerical checks *)

(** [all_from f i n] holds when [f] accepts the [n] integers from [i] on. *)
Fixpoint all_from (f : Z -> bool) (i : Z) (n : nat) : bool :=
  match n with
  | O => true
  | S k => f i && all_from f (i + 1) k
  end.

(** [(float)(1.0 / 0x7FFF)], the scaling of [sample_move_dS_s16]. *)
Definition inverse_scaling16 : spec_float := S754_finite false 8388864 (-38).

(** An [int16_t] pattern converted to the server's float and back. *)
Definition int16_there_and_back (b : Z) : Z :=
  s16 (d16_sample (F32.to_bits (F32.mul (F32.of_Z (s16 b)) inverse_scaling16))).

(** The checks that are run over all [int16_t] values. *)
Definition int16_round_trip_ok (b : Z) : bool :=
  int16_there_and_back b =? (if s16 b =? -32768 then -32767 else s16 b).

Definition int16_in_range_ok (v : Z) : bool :=
  let x := F32.of_bits (F32.to_bits (F32.mul (F32.of_Z v) inverse_scaling16)) in
  F32.leb NORMALIZED_FLOAT_MIN x && F32.leb x NORMALIZED_FLOAT_MAX.

(** An integer with at most 24 significant bits: [v * 2^k] with [v] of
    magnitude below [2^24]. *)
Definition fits24 (z : Z) : Prop :=
  exists v k, 0 <= k /\ - 2 ^ 24 < v < 2 ^ 24 /\ z = v * 2 ^ k.

(** The conversion of a float to an integer read over the reals: the sample
    [m * 2^e], up to sign, times the integer [scale], rounded to the nearest
    integer.  This follows the words [round_to_nearest(x * 0x7FFFFFFF)], not
    the code, and is what the code is compared with. *)
Definition spec_round_product (scale : Z) (x : spec_float) : Z :=
  match x with
  | S754_finite s m e =>
      let r := round_half_even (Zpos m * scale) e in if s then - r else r
  | _ => 0
  end.

(** Rounding of the positive dyadic number [m * 2^e] to the [float] format,
    to nearest, ties to even: the significand is cut to 24 bits, or to the
    bits above 2^-149, and the exponent raised by the bits cut. *)
Definition round_to_float (m e : Z) : Z * Z :=
  let n := Z.max (Z.log2 m + 1 + e - 24) (-149) - e in
  if 0 <? n then (round_half_even m (- n), e + n) else (m, e).

(** [m * 2^e] rounded to a [float] and the float rounded to an integer: what
    [lrintf] makes of a product computed in [float]. *)
Definition float_then_int (m e : Z) : Z :=
  let '(q, e') := round_to_float m e in round_half_even q e'.

(** [rec] is what [k] steps of [shr_1] leave of the significand [X]: the
    quotient, the last bit shifted out and whether a lower bit was set. *)
Definition shifted (X k : Z) (rec : shr_record) : Prop :=
  shr_m rec = X / 2 ^ k /\
  shr_r rec = (0 <? k) && Z.odd (X / 2 ^ (k - 1)) /\
  shr_s rec = (0 <? k) && negb (X mod 2 ^ (k - 1) =? 0).

(** Two samples on which rounding shows: 0.75 and 0.5 + 2^-14. *)
Definition rounding_probes : samples :=
  fun i => if i =? 0 then 0x3F400000 else 0x3F000400.

(** ** The factory *)

(** The format constant of the C API that stands for a C++ type. *)
Definition format_of_type (t : type_info) : Z :=
  match t with
  | typeid_float => JACK_PORT_CONV_FMT_DEFAULT
  | typeid_int32_t => JACK_PORT_CONV_FMT_INT32
  | typeid_int16_t => JACK_PORT_CONV_FMT_INT16
  | typeid_other => 3
  end.

(** The formats [jack_port_create_convert] knows and the size of their
    samples. *)
Definition supported_format (dst_type : Z) : bool :=
  (dst_type =? JACK_PORT_CONV_FMT_DEFAULT) || (dst_type =? JACK_PORT_CONV_FMT_INT32)
  || (dst_type =? JACK_PORT_CONV_FMT_INT16).

Definition format_sample_size (dst_type : Z) : Z :=
  if dst_type =? JACK_PORT_CONV_FMT_INT16 then sizeof_int16_t else 4.

(** ** Advancing the adapters *)

(** [p'] is the adapter [p] after a [next] that did not fail. *)
Definition stepped (frames : jack_nframes_t) (p p' : FP.t) : Prop :=
  exists v, FP.next p frames = (v, p', []) /\ (v = 0 \/ v = 1).

(** An output adapter for client period [C] with [b] frames pending from
    frame [o] of its shadow buffer and [cf] frames written by the client
    since the last [next]. *)
Definition out_step_with (C b o cf : jack_nframes_t) (p : FP.t) : Prop :=
  FP.cls p = FP.FramesOut /\ FP.dst_frames p = C /\
  FP.shadow_frames p = b /\ FP.shadow_offset p = o /\ FP.client_frames p = cf.

(** Every output adapter is in that state, and there is one. *)
Definition outputs_at (C b o cf : jack_nframes_t) (conv : BC.t) : Prop :=
  BC.OutPorts conv <> [] /\ Forall (out_step_with C b o cf) (BC.OutPorts conv).

(** The frames a fresh input adapter can hold at the end of a process
    callback, for client period [C], server period [S] and silence prefill
    [P]: at most [P], and a multiple of [S] when [P = C - S]. *)
Definition in_reach (C S P a : jack_nframes_t) : Prop :=
  0 <= a <= P /\
  (P = C \/ (C mod S = 0 /\ P = C - S /\ a mod S = 0) \/ (S mod C = 0 /\ P = 0)).

(** The aggregator between two process callbacks: [a] frames wait in every
    input adapter and [P - a] in every output adapter, from frame [o] of its
    shadow buffer on. *)
Definition steady (C S P : jack_nframes_t) (conv : BC.t) : Prop :=
  exists a o,
    in_reach C S P a /\ 0 <= o /\ o + (P - a) <= P + S /\ (P - a <= S -> o = 0) /\
    inputs_at C a 0 conv /\ outputs_at C (P - a) o 0 conv.

(** Every output adapter is as the factory registers it. *)
Definition fresh_outputs (conv : BC.t) : Prop :=
  Forall (out_step_with (BC.dst_frames conv) 0 0 0) (BC.OutPorts conv).

(** At the invocation [call] the frames pending in every output adapter
    start at frame 0 of its shadow buffer, the free slot that [get] hands
    out lies behind them and behind the frames the client wrote since the
    last [next], and a whole client period fits between the slot and frame
    [B] of the shadow buffer. *)
Definition slots_below (B : Z) (call : BC.invocation) : Prop :=
  Forall (fun p => FP.shadow_offset p = 0 /\
                   FP.free_slot p = FP.shadow_frames p + FP.client_frames p /\
                   0 <= FP.free_slot p /\ FP.free_slot p + FP.dst_frames p <= B)
    (BC.OutPorts (BC.inv_state call)).

(** At the invocation [call] the example client returns, and its slot of the
    output shadow buffer ends at or before frame [B]. *)
Definition inprocess_returns_at (B : Z) (call : BC.invocation) : Prop :=
  InprocessPeriod.inprocess (BC.inv_nframes call) tt (BC.inv_state call) <> None /\
  slots_below B call.

(** ** The stream through the example client *)

(** Two converters that differ in their buffers only. *)
Definition same_format (c c' : SB.t) : Prop :=
  SB.aligned_buffer c' = SB.aligned_buffer c /\
  SB.sample_size c' = SB.sample_size c /\
  SB.integer c' = SB.integer c.

(** The two shadow buffers have an address, and a sample of the output
    buffer at least one byte. *)
Definition shadows_present (inp outp : FP.t) : Prop :=
  0 < SB.aligned_buffer (FP.converter inp) /\
  0 < SB.aligned_buffer (FP.converter outp) /\
  0 < SB.sample_size (FP.converter outp).

(** The aggregator of one input and one output adapter after [m] process
    callbacks of [S] frames: [a] frames of the client's stream [Y] wait in the
    input shadow buffer, the [P - a] frames the server receives next wait in
    the output shadow buffer from frame [o] on. *)
Definition delay_state (C S P : jack_nframes_t) (f g Y : Z -> Z) (m : Z) (conv : BC.t)
  : Prop :=
  exists inp outp a o,
    BC.InPorts conv = [inp] /\ BC.OutPorts conv = [outp] /\ BC.dst_frames conv = C /\
    in_reach C S P a /\ 0 <= o /\ o + (P - a) <= P + S /\ (P - a <= S -> o = 0) /\
    in_step_with C a 0 inp /\ out_step_with C (P - a) o 0 outp /\
    from_jack_by (FP.converter inp) f /\ to_jack_by (FP.converter outp) g /\
    shadows_present inp outp /\
    (forall i, 0 <= i < a -> SB.shadow (FP.converter inp) i = Y (m * S + P - a + i)) /\
    (forall i, 0 <= i < P - a -> SB.shadow (FP.converter outp) (o + i) = Y (m * S + i)).

(** A cycle that offers one input and one output buffer, the input holding
    the frames [Y] has from position [V] on. *)
Definition cycle_feeds (S : jack_nframes_t) (f Y : Z -> Z) (V : Z) (c : BC.cycle) : Prop :=
  exists pin pout,
    c = ([pin], [pout]) /\ port_buffer pin <> NULL /\ port_buffer pout <> NULL /\
    forall i, 0 <= i < S -> f (port_data pin i) = Y (V + i).

(** The frames the server delivers on the first input port, cycle after
    cycle, as one stream. *)
Definition server_input (S : jack_nframes_t) (cycles : list BC.cycle) (t : Z) : Z :=
  match nth_error cycles (Z.to_nat (t / S)) with
  | Some (pin :: _, _) => port_data pin (t mod S)
  | _ => 0
  end.

(** What the client reads: [P] frames of silence, then the server's frames
    in the format of the shadow buffer. *)
Definition client_stream (P : jack_nframes_t) (f : Z -> Z) (X : Z -> Z) (u : Z) : Z :=
  if u <? P then 0 else f (X (u - P)).

(** The conversion of one sample that the factory selects for [dst_type]. *)
Definition from_jack_sample (dst_type : Z) : Z -> Z :=
  if dst_type =? JACK_PORT_CONV_FMT_INT32 then d32_sample
  else if dst_type =? JACK_PORT_CONV_FMT_INT16 then d16_sample
  else fun b => b.

(** The conversion back to the server's float. *)
Definition to_jack_sample (dst_type : Z) : Z -> Z :=
  if dst_type =? JACK_PORT_CONV_FMT_INT32 then dS_s32_sample
  else if dst_type =? JACK_PORT_CONV_FMT_INT16 then dS_s16_sample
  else fun b => b.

(** The aggregator for client period [C] on a server of period [S] with one
    input and one output port registered, as the example client sets it up. *)
Definition period_pair (C S : jack_nframes_t) (dst_type : Z) (pin pout : jack_port_t)
  (storage_in storage_out : Z) (u_in u_out : samples) : option BC.t :=
  match BC.create S false true C with
  | None => None
  | Some conv =>
      let '(_, conv, _) :=
        jack_port_create_convert pin dst_type false (Some conv) storage_in u_in in
      let '(_, conv, _) :=
        jack_port_create_convert pout dst_type false conv storage_out u_out in
      conv
  end.

(** A cycle in which the server offers a buffer for the input and for the
    output port. *)
Definition usable_cycle (c : BC.cycle) : Prop :=
  exists pin pout, c = ([pin], [pout]) /\ port_buffer pin <> NULL /\ port_buffer pout <> NULL.

(* ================================================================== *)
(** * Properties *)

(** ** Frame counters *)

Lemma u32_small x : is_u32 x -> u32 x = x.
Proof. unfold is_u32, u32. intros H. apply Z.mod_small. exact H. Qed.

Lemma u32_range x : is_u32 (u32 x).
Proof. unfold is_u32, u32. apply Z.mod_pos_bound. reflexivity. Qed.

(** ** Buffers *)

Lemma memcpy_inside dst doff src soff n i :
  doff <= i < doff + n -> memcpy dst doff src soff n i = src (soff + (i - doff)).
Proof.
  intros H. unfold memcpy.
  replace (doff <=? i) with true by (symmetry; apply Z.leb_le; lia).
  replace (i <? doff + n) with true by (symmetry; apply Z.ltb_lt; lia).
  reflexivity.
Qed.

Lemma memcpy_outside dst doff src soff n i :
  ~ (doff <= i < doff + n) -> memcpy dst doff src soff n i = dst i.
Proof.
  intros H. unfold memcpy.
  destruct (Z.leb_spec doff i); destruct (Z.ltb_spec i (doff + n)); simpl;
    try reflexivity; lia.
Qed.

Lemma store_same dst i v : store dst i v i = v.
Proof. unfold store. now rewrite Z.eqb_refl. Qed.

Lemma store_other dst i v j : j <> i -> store dst i v j = dst j.
Proof. unfold store. intros H. apply Z.eqb_neq in H. now rewrite H. Qed.

Section Loops.

Variable f : Z -> Z.
Variable loop : CopyFunction.
Hypothesis loop_O : forall dst d src s, loop dst d src s O = dst.
Hypothesis loop_S : forall dst d src s n,
  loop dst d src s (S n) = loop (store dst d (f (src s))) (d + 1) src (s + 1) n.

Lemma loop_pointwise : pointwise f loop.
Proof.
  intros dst d src s n. revert dst d s.
  induction n as [|n IH]; intros dst d s i.
  - rewrite loop_O.
    destruct (Z.leb_spec d i); destruct (Z.ltb_spec i (d + Z.of_nat 0)); simpl;
      try reflexivity; lia.
  - rewrite loop_S, IH.
    destruct (Z.leb_spec (d + 1) i); destruct (Z.ltb_spec i (d + 1 + Z.of_nat n));
      destruct (Z.leb_spec d i); destruct (Z.ltb_spec i (d + Z.of_nat (S n)));
      cbn [andb]; try lia.
    + replace (s + 1 + (i - (d + 1))) with (s + (i - d)) by lia. reflexivity.
    + apply store_other. lia.
    + assert (i = d) by lia. subst i. rewrite store_same.
      replace (s + (d - d)) with s by lia. reflexivity.
    + apply store_other. lia.
Qed.

End Loops.

Lemma sample_move_d32_sS_pointwise : pointwise d32_sample sample_move_d32_sS.
Proof. apply loop_pointwise; reflexivity. Qed.

Lemma sample_move_d16_sS_pointwise : pointwise d16_sample sample_move_d16_sS.
Proof. apply loop_pointwise; reflexivity. Qed.

Lemma sample_move_dS_s32_pointwise : pointwise dS_s32_sample sample_move_dS_s32.
Proof. apply loop_pointwise; reflexivity. Qed.

Lemma sample_move_dS_s16_pointwise : pointwise dS_s16_sample sample_move_dS_s16.
Proof. apply loop_pointwise; reflexivity. Qed.

(** ** Port converters *)

Lemma in_range_true lo n i : lo <= i < lo + n -> in_range lo n i = true.
Proof.
  intros H. unfold in_range. apply andb_true_iff. split.
  - apply Z.leb_le. lia.
  - apply Z.ltb_lt. lia.
Qed.

Lemma in_range_false lo n i : ~ (lo <= i < lo + n) -> in_range lo n i = false.
Proof.
  intros H. unfold in_range.
  destruct (Z.leb_spec lo i); destruct (Z.ltb_spec i (lo + n)); simpl;
    try reflexivity; lia.
Qed.

Lemma copy_from_jack_shadow c f shadow_offset jack_offset frames :
  from_jack_by c f -> port_buffer (SB.port c) <> NULL -> 0 <= frames ->
  exists sh,
    snd (SB.copy_from_jack c shadow_offset jack_offset frames) = SB.set_shadow c sh /\
    forall i, sh i = if in_range shadow_offset frames i
                     then f (port_data (SB.port c) (jack_offset + (i - shadow_offset)))
                     else SB.shadow c i.
Proof.
  intros Hf Hnull Hfr. unfold SB.copy_from_jack, SB.get_buffer, jack_port_get_buffer.
  apply Z.eqb_neq in Hnull. rewrite Hnull.
  unfold from_jack_by in Hf. destruct (SB.integer c) as [[to_jack from_jack]|].
  - eexists. split; [reflexivity|]. intros i. rewrite Hf.
    unfold in_range. rewrite Z2Nat.id by exact Hfr. reflexivity.
  - eexists. split; [reflexivity|]. intros i. unfold memcpy, in_range.
    destruct ((shadow_offset <=? i) && (i <? shadow_offset + frames)).
    + now rewrite Hf.
    + reflexivity.
Qed.

Lemma copy_from_jack_null c shadow_offset jack_offset frames :
  port_buffer (SB.port c) = NULL ->
  SB.copy_from_jack c shadow_offset jack_offset frames = (NULL, c).
Proof.
  intros H. unfold SB.copy_from_jack, SB.get_buffer, jack_port_get_buffer.
  rewrite H. reflexivity.
Qed.

Lemma copy_to_jack_port c g src src_offset jack_offset frames :
  to_jack_by c g -> port_buffer (SB.port c) <> NULL -> 0 <= frames ->
  exists d,
    SB.copy_to_jack c src src_offset jack_offset frames
      = SB.set_port c (set_port_data (SB.port c) d) /\
    forall i, d i = if in_range jack_offset frames i
                    then g (src (src_offset + (i - jack_offset)))
                    else port_data (SB.port c) i.
Proof.
  intros Hg Hnull Hfr. unfold SB.copy_to_jack, SB.get_buffer, jack_port_get_buffer.
  apply Z.eqb_neq in Hnull. rewrite Hnull.
  unfold to_jack_by in Hg. destruct (SB.integer c) as [[to_jack from_jack]|].
  - eexists. split; [reflexivity|]. intros i. rewrite Hg.
    unfold in_range. rewrite Z2Nat.id by exact Hfr. reflexivity.
  - eexists. split; [reflexivity|]. intros i. unfold memcpy, in_range.
    destruct ((jack_offset <=? i) && (i <? jack_offset + frames)).
    + now rewrite Hg.
    + reflexivity.
Qed.

Lemma copy_to_jack_null c src src_offset jack_offset frames :
  port_buffer (SB.port c) = NULL ->
  SB.copy_to_jack c src src_offset jack_offset frames = c.
Proof.
  intros H. unfold SB.copy_to_jack, SB.get_buffer, jack_port_get_buffer.
  rewrite H. reflexivity.
Qed.

Lemma same_converter_refl c : same_converter c c.
Proof. repeat split. Qed.

Lemma same_converter_trans c1 c2 c3 :
  same_converter c1 c2 -> same_converter c2 c3 -> same_converter c1 c3.
Proof.
  unfold same_converter. intros (A1 & A2 & A3 & A4 & A5 & A6) (B1 & B2 & B3 & B4 & B5 & B6).
  repeat split; congruence.
Qed.

Lemma copy_to_jack_same c src src_offset jack_offset frames :
  same_converter c (SB.copy_to_jack c src src_offset jack_offset frames) /\
  SB.shadow (SB.copy_to_jack c src src_offset jack_offset frames) = SB.shadow c.
Proof.
  unfold SB.copy_to_jack. destruct (SB.get_buffer c _ =? NULL).
  - split; [apply same_converter_refl | reflexivity].
  - destruct (SB.integer c) as [[tj fj]|]; split; try reflexivity; repeat split.
Qed.

Lemma copy_from_jack_same c shadow_offset jack_offset frames :
  same_converter c (snd (SB.copy_from_jack c shadow_offset jack_offset frames)) /\
  SB.port (snd (SB.copy_from_jack c shadow_offset jack_offset frames)) = SB.port c.
Proof.
  unfold SB.copy_from_jack. destruct (SB.get_buffer c _ =? NULL).
  - split; [apply same_converter_refl | reflexivity].
  - destruct (SB.integer c) as [[tj fj]|]; split; try reflexivity; repeat split.
Qed.

(** The factory's three shadow-owning converters and their sample maps. *)
Lemma float_converter_by pt storage u :
  let c := SB.create pt sizeof_float storage u in
  from_jack_by c (fun b => b) /\ to_jack_by c (fun b => b).
Proof. split; intros b; reflexivity. Qed.

Lemma int32_converter_by pt storage u :
  let c := SB.create_integer sample_move_dS_s32 sample_move_d32_sS sizeof_int32_t
             pt storage u in
  from_jack_by c d32_sample /\ to_jack_by c dS_s32_sample.
Proof.
  split; [apply sample_move_d32_sS_pointwise | apply sample_move_dS_s32_pointwise].
Qed.


(** ** C4: the silence prefill *)

(** C4.  The aggregator constructed for client period [C] on a server whose
    period is [S] stores this silence prefill: 0 when [S = C]; 0 when
    [S > C] and [C] divides [S]; [C] when [S > C] and [C] does not divide
    [S]; [C - S] when [S < C] and [S] divides [C]; [C] when [S < C] and [S]
    does not divide [C].  (In the four cases that divide, the divisor is a
    period of at least one frame.) *)
Theorem silence_prefill_table (C S : jack_nframes_t) :
  is_u32 C -> is_u32 S ->
  let built v := BC.create S false true C
                 = Some {| BC.InPorts := []; BC.OutPorts := [];
                           BC.dst_frames := C; BC.silence_prefil := v |} in
  (S = C -> built 0) /\
  (S > C -> 0 < C -> S mod C = 0 -> built 0) /\
  (S > C -> 0 < C -> S mod C <> 0 -> built C) /\
  (S < C -> 0 < S -> C mod S = 0 -> built (C - S)) /\
  (S < C -> 0 < S -> C mod S <> 0 -> built C).
Proof.
  intros HC HS built. unfold built, BC.create, BC.calculate_silence_prefill, BC.umod.
  unfold is_u32 in *.
  repeat split; intros.
  - subst S. destruct (Z.gtb_spec C C); [lia|].
    destruct (Z.ltb_spec C C); [lia|]. reflexivity.
  - destruct (Z.gtb_spec S C); [|lia].
    destruct (Z.eqb_spec C 0); [lia|].
    destruct (Z.eqb_spec (S mod C) 0); [|lia]. reflexivity.
  - destruct (Z.gtb_spec S C); [|lia].
    destruct (Z.eqb_spec C 0); [lia|].
    destruct (Z.eqb_spec (S mod C) 0); [lia|]. reflexivity.
  - destruct (Z.gtb_spec S C); [lia|].
    destruct (Z.ltb_spec S C); [|lia].
    destruct (Z.eqb_spec S 0); [lia|].
    destruct (Z.eqb_spec (C mod S) 0); [|lia].
    rewrite u32_small by (unfold is_u32; lia). reflexivity.
  - destruct (Z.gtb_spec S C); [lia|].
    destruct (Z.ltb_spec S C); [|lia].
    destruct (Z.eqb_spec S 0); [lia|].
    destruct (Z.eqb_spec (C mod S) 0); [lia|]. reflexivity.
Qed.

(** The three cases of [FramesInPortConverter::next]. *)
Lemma next_in_cases (p : FP.t) (frames : jack_nframes_t)
  (f : Z -> Z) :
  from_jack_by (FP.converter p) f ->
  port_buffer (SB.port (FP.converter p)) <> NULL ->
  let sf := FP.shadow_frames p in
  let off := FP.jack_offset p in
  let jack_frames := u32 (frames - off) in
  let need := u32 (FP.dst_frames p - sf) in
  let server := port_data (SB.port (FP.converter p)) in
  let copied n sh :=
    forall i, sh i = if in_range sf n i then f (server (off + (i - sf)))
                     else SB.shadow (FP.converter p) i in
  (sf <= FP.dst_frames p -> u32 (sf + jack_frames) >= FP.dst_frames p ->
   exists sh,
     copied need sh /\
     FP.next_in p frames =
     (1, FP.set_shadow_frames
           (FP.set_jack_offset
              (FP.set_converter p (SB.set_shadow (FP.converter p) sh))
              (u32 (off + need))) 0, [])) /\
  (sf <= FP.dst_frames p -> u32 (sf + jack_frames) < FP.dst_frames p ->
   exists sh,
     copied jack_frames sh /\
     FP.next_in p frames =
     (0, FP.set_jack_offset
           (FP.set_shadow_frames
              (FP.set_converter p (SB.set_shadow (FP.converter p) sh))
              (u32 (sf + jack_frames))) 0, [])) /\
  (sf > FP.dst_frames p ->
   FP.next_in p frames = (- EINVAL, p, [FP.msg_inport])).
Proof.
  intros Hf Hnull sf off jack_frames need server copied.
  repeat split.
  - intros Hle Hge.
    destruct (copy_from_jack_shadow (FP.converter p) f sf off need Hf Hnull)
      as (sh & Hc & Hsh).
    { apply u32_range. }
    exists sh. split; [exact Hsh|].
    unfold FP.next_in. fold sf off jack_frames.
    destruct (Z.gtb_spec sf (FP.dst_frames p)); [lia|].
    destruct (Z.geb_spec (u32 (sf + jack_frames)) (FP.dst_frames p)); [|lia].
    unfold FP.append_from_jack. fold sf off need. rewrite Hc. reflexivity.
  - intros Hle Hlt.
    destruct (copy_from_jack_shadow (FP.converter p) f sf off jack_frames Hf Hnull)
      as (sh & Hc & Hsh).
    { apply u32_range. }
    exists sh. split; [exact Hsh|].
    unfold FP.next_in. fold sf off jack_frames.
    destruct (Z.gtb_spec sf (FP.dst_frames p)); [lia|].
    destruct (Z.geb_spec (u32 (sf + jack_frames)) (FP.dst_frames p)); [lia|].
    rewrite Hc. reflexivity.
  - intros Hgt. unfold FP.next_in. fold sf.
    destruct (Z.gtb_spec sf (FP.dst_frames p)); [reflexivity|lia].
Qed.

(** ** C2: the input period adapter *)

Lemma set_shadow_same c : SB.set_shadow c (SB.shadow c) = c.
Proof. destruct c; reflexivity. Qed.

(** C2.  [next(frames)] on an input period adapter, field by field, with the
    counters in [jack_nframes_t] arithmetic.  With [shadow_frames >
    dst_frames] it returns [-EINVAL], logs and changes nothing.  Otherwise,
    if [shadow_frames + (frames - jack_offset) >= dst_frames] it copies
    exactly [need = dst_frames - shadow_frames] frames from the server buffer
    at [jack_offset] into the shadow at [shadow_frames], adds [need] to
    [jack_offset], sets [shadow_frames] to 0 and returns 1; else it copies the
    remaining [frames - jack_offset] frames to the same place, adds them to
    [shadow_frames], resets [jack_offset] to 0 and returns 0.  Nothing else
    changes; without a server buffer nothing is copied and the counters move
    all the same. *)
Theorem FramesInPortConverter_next_spec (p : FP.t) (frames : jack_nframes_t) :
  let c := FP.converter p in
  let sf := FP.shadow_frames p in
  let off := FP.jack_offset p in
  let dst := FP.dst_frames p in
  let jack_frames := u32 (frames - off) in
  let need := u32 (dst - sf) in
  let server := port_data (SB.port c) in
  let present := negb (port_buffer (SB.port c) =? NULL) in
  let ready := u32 (sf + jack_frames) >=? dst in
  let n := if ready then need else jack_frames in
  (sf > dst -> FP.next_in p frames = (- EINVAL, p, [FP.msg_inport])) /\
  (sf <= dst ->
   exists p' : FP.t,
     FP.next_in p frames = ((if ready then 1 else 0), p', []) /\
     FP.cls p' = FP.cls p /\ FP.dst_frames p' = dst /\
     FP.shadow_offset p' = FP.shadow_offset p /\
     FP.client_frames p' = FP.client_frames p /\
     same_converter c (FP.converter p') /\
     SB.port (FP.converter p') = SB.port c /\
     FP.shadow_frames p' = (if ready then 0 else u32 (sf + jack_frames)) /\
     FP.jack_offset p' = (if ready then u32 (off + need) else 0) /\
     (present = false -> FP.converter p' = c) /\
     forall f, from_jack_by c f ->
       forall i, SB.shadow (FP.converter p') i =
                 if present && in_range sf n i then f (server (off + (i - sf)))
                 else SB.shadow c i).
Proof.
  intros c sf off dst jack_frames need server present ready n.
  assert (Hcopy : forall k, 0 <= k ->
            same_converter c (snd (SB.copy_from_jack c sf off k)) /\
            SB.port (snd (SB.copy_from_jack c sf off k)) = SB.port c /\
            (present = false -> snd (SB.copy_from_jack c sf off k) = c) /\
            forall f, from_jack_by c f ->
              forall i, SB.shadow (snd (SB.copy_from_jack c sf off k)) i
                        = if present && in_range sf k i
                          then f (server (off + (i - sf))) else SB.shadow c i).
  { intros k Hk. destruct (copy_from_jack_same c sf off k) as [Hsame Hport].
    split; [exact Hsame|]. split; [exact Hport|]. subst present.
    destruct (Z.eqb_spec (port_buffer (SB.port c)) NULL) as [E|E]; cbn [negb andb].
    - rewrite (copy_from_jack_null c sf off k E). split; reflexivity.
    - split; [discriminate|]. intros f Hf i.
      destruct (copy_from_jack_shadow c f sf off k Hf E Hk) as (sh & Esh & Hsh).
      rewrite Esh. apply Hsh. }
  split.
  - intros Hgt. unfold FP.next_in. fold sf dst.
    destruct (Z.gtb_spec sf dst); [reflexivity | lia].
  - intros Hle. unfold FP.next_in, FP.append_from_jack.
    fold sf dst off. fold jack_frames. fold need. fold c.
    destruct (Z.gtb_spec sf dst) as [|_]; [lia|].
    fold ready. subst n. destruct ready.
    + destruct (Hcopy need (proj1 (u32_range _))) as (Hsame & Hport & Hnull & Hsh).
      eexists. split; [reflexivity|].
      cbn [FP.set_converter FP.set_shadow_frames FP.set_jack_offset FP.cls FP.dst_frames
             FP.shadow_offset FP.client_frames FP.converter FP.shadow_frames
             FP.jack_offset].
      repeat (split; [reflexivity|]). split; [exact Hsame|]. split; [exact Hport|].
      repeat (split; [reflexivity|]). split; [exact Hnull | exact Hsh].
    + destruct (Hcopy jack_frames (proj1 (u32_range _))) as (Hsame & Hport & Hnull & Hsh).
      eexists. split; [reflexivity|].
      cbn [FP.set_converter FP.set_shadow_frames FP.set_jack_offset FP.cls FP.dst_frames
             FP.shadow_offset FP.client_frames FP.converter FP.shadow_frames
             FP.jack_offset].
      repeat (split; [reflexivity|]). split; [exact Hsame|]. split; [exact Hport|].
      repeat (split; [reflexivity|]). split; [exact Hnull | exact Hsh].
Qed.

(** ** C3: the output period adapter *)

(** C3.  [next(frames)] on an output period adapter with [shadow_frames <=
    max(frames, dst_frames)], the server buffer present.  If [shadow_frames +
    client_frames >= frames] it copies [frames] frames from the shadow at
    [shadow_offset] to the server buffer, sets [shadow_frames] to
    [shadow_frames + client_frames - frames], adds [frames] to
    [shadow_offset] and resets [shadow_offset] to 0 when [shadow_frames]
    reached 0; otherwise it adds [client_frames] to [shadow_frames] and leaves
    the server buffer alone.  Afterwards, if [shadow_offset > 0] and
    [shadow_frames <= frames], the remaining [shadow_frames] frames are moved
    to shadow offset 0 and [shadow_offset] is reset to 0.  In every case
    [client_frames] is reset to 0 and 1 is returned. *)
Theorem FramesOutPortConverter_next_spec (p : FP.t) (frames : jack_nframes_t)
  (g : Z -> Z) :
  to_jack_by (FP.converter p) g ->
  port_buffer (SB.port (FP.converter p)) <> NULL ->
  0 <= frames ->
  FP.shadow_frames p <= Z.max frames (FP.dst_frames p) ->
  let c := FP.converter p in
  let sf := FP.shadow_frames p in
  let cf := FP.client_frames p in
  let so := FP.shadow_offset p in
  (* the state after the first step *)
  let copies := u32 (sf + cf) >=? frames in
  let sf1 := if copies then drained_frames p frames else u32 (sf + cf) in
  let so1 := if copies then drained_offset p frames else so in
  (* the compaction *)
  let moves := negb (so1 =? 0) && (sf1 <=? frames) in
  let so2 := if moves then 0 else so1 in
  exists p' : FP.t,
    FP.next_out p frames = (1, p', []) /\
    FP.cls p' = FP.cls p /\ FP.dst_frames p' = FP.dst_frames p /\
    FP.jack_offset p' = FP.jack_offset p /\
    same_converter c (FP.converter p') /\
    FP.shadow_frames p' = sf1 /\
    FP.shadow_offset p' = so2 /\
    FP.client_frames p' = 0 /\
    (forall i, port_data (SB.port (FP.converter p')) i =
               if copies && in_range 0 frames i
               then g (SB.shadow c (so + i))
               else port_data (SB.port c) i) /\
    (forall i, SB.shadow (FP.converter p') i =
               if moves && in_range 0 sf1 i
               then SB.shadow c (so1 + i)
               else SB.shadow c i).
Proof.
  intros Hg Hnull Hfr Hmax c sf cf so copies sf1 so1 moves so2.
  assert (Hchk : (sf >? (if frames >? FP.dst_frames p then frames else FP.dst_frames p))
                 = false).
  { destruct (Z.gtb_spec frames (FP.dst_frames p));
      destruct (Z.gtb_spec sf frames); destruct (Z.gtb_spec sf (FP.dst_frames p));
      try reflexivity; unfold sf in *; lia. }
  destruct (copy_to_jack_port c g (fun i => SB.shadow c (so + i)) 0 0 frames Hg Hnull Hfr)
    as (d & Hd & Hdi).
  assert (Hdi' : forall i, d i = if in_range 0 frames i then g (SB.shadow c (so + i))
                                 else port_data (SB.port c) i).
  { intros i. rewrite Hdi. replace (0 + (i - 0)) with i by lia. reflexivity. }
  clear Hdi.
  subst moves so2 so1 sf1 copies. unfold drained_offset, drained_frames.
  unfold FP.next_out. subst c sf cf so. rewrite Hchk, Hd. clear Hchk Hd.
  pose proof I as Hz.
  destruct (u32 (FP.shadow_frames p + FP.client_frames p) >=? frames) eqn:Hcopies;
    cbn [FP.set_converter FP.set_shadow_frames FP.set_shadow_offset
           FP.shadow_frames FP.shadow_offset FP.client_frames FP.converter
           FP.cls FP.dst_frames FP.jack_offset];
    [clear Hz;
     destruct (u32 (u32 (FP.shadow_frames p + FP.client_frames p) - frames) =? 0) eqn:Hz|];
    cbn [FP.set_converter FP.set_shadow_frames FP.set_shadow_offset
           FP.shadow_frames FP.shadow_offset FP.client_frames FP.converter
           FP.cls FP.dst_frames FP.jack_offset];
    match goal with
    | |- context [negb ?a && ?b] => destruct (negb a && b) eqn:Hmoves
    end;
    cbn [FP.set_converter FP.set_shadow_frames FP.set_shadow_offset
           FP.shadow_frames FP.shadow_offset FP.client_frames FP.converter
           FP.cls FP.dst_frames FP.jack_offset FP.set_client_frames];
    eexists; (split; [reflexivity|]);
    cbn [FP.set_converter FP.set_shadow_frames FP.set_shadow_offset
           FP.shadow_frames FP.shadow_offset FP.client_frames FP.converter
           FP.cls FP.dst_frames FP.jack_offset FP.set_client_frames
           SB.set_shadow SB.set_port SB.port SB.shadow set_port_data port_data andb];
    repeat (split; [reflexivity|]).
  all: try (split; [repeat split; reflexivity|]).
  all: repeat (split; [reflexivity|]).
  all: repeat split; try reflexivity; intros i;
    first [apply Hdi'
          |unfold memmove, memcpy, in_range; rewrite Z.sub_0_r; reflexivity].
Qed.

(** ** C8: misuse of a period adapter *)

(** What holds of C8 on every adapter: [get] with a frame count other than
    [dst_frames] logs and returns [NULL]; [set] on an input adapter logs and
    changes nothing; [set] on an output adapter with such a frame count logs,
    and changes nothing when the pointer is the one [get] hands out. *)
Lemma period_adapter_misuse (p : FP.t) (frames : jack_nframes_t) (src : source) :
  frames <> FP.dst_frames p ->
  FP.get p frames = (NULL, [FP.msg_differ]) /\
  FP.set_in p src frames = (p, [FP.msg_set_input]) /\
  snd (FP.set_out p src frames) = [FP.msg_differ] /\
  (src_ptr src = SB.get_shadow_buffer (FP.converter p) (FP.free_slot p) ->
   fst (FP.set_out p src frames) = p).
Proof.
  intros H. apply Z.eqb_neq in H.
  unfold FP.get, FP.get_in, FP.get_out, FP.set_in, FP.set_out. rewrite H. cbn [negb].
  repeat split.
  - destruct (FP.cls p); reflexivity.
  - destruct (src_ptr src =? _); reflexivity.
  - intros E. apply Z.eqb_eq in E. rewrite E. reflexivity.
Qed.

Lemma set_in_always_noop (p : FP.t) (frames : jack_nframes_t) (src : source) :
  FP.cls p = FP.FramesIn -> FP.set p src frames = (p, [FP.msg_set_input]).
Proof. intros H. unfold FP.set. rewrite H. reflexivity. Qed.

(** C8 at the failing input: [set] with 32 frames on an output adapter for 64
    frames logs the error and still copies the 32 frames into the shadow
    buffer. *)
Theorem FramesOutPortConverter_set_wrong_frames_copies :
  let p' := fst (FP.set misuse_adapter misuse_source 32) in
  32 <> FP.dst_frames misuse_adapter /\
  snd (FP.set misuse_adapter misuse_source 32) = [FP.msg_differ] /\
  SB.shadow (FP.converter misuse_adapter) 0 = 9 /\
  SB.shadow (FP.converter p') 0 = 42 /\
  SB.shadow (FP.converter p') 31 = 42 /\
  SB.shadow (FP.converter p') 32 = 9.
Proof. vm_compute. repeat split; discriminate. Qed.

(** ** C9: [set] with the pointer [get] returned *)

(** C9 fails on an integer converter: after [get(1)] and [set] with the
    pointer returned, the server sample 2.0 has become 1.0. *)
Lemma integer_set_after_get_rewrites_server :
  let c1 := snd (SB.get loud_converter 1) in
  let c2 := get_then_set loud_converter 1 in
  fst (SB.get loud_converter 1) = SB.aligned_buffer loud_converter /\
  port_data (SB.port c1) 0 = 0x40000000 /\
  port_data (SB.port c2) 0 = 0x3F800000 /\
  port_data (SB.port c2) 0 <> port_data (SB.port c1) 0.
Proof. vm_compute. repeat split; discriminate. Qed.

(** C9 as it holds.  On a forwarding converter, [set] with the pointer that
    the preceding [get] returned changes nothing.  On a shadow-owning
    converter it leaves the converter and its shadow buffer as they are and
    rewrites the first [frames] server samples with the conversion to float
    of the shadow samples that [get] just produced from them: the same
    samples for a float shadow buffer, their round trip through the integer
    format for an integer one. *)
Theorem set_after_get (frames : jack_nframes_t) :
  0 <= frames ->
  (forall (c : FW.t) (data : samples),
     let '(p, c1) := FW.get c frames in
     FW.set c1 {| src_ptr := p; src_data := data |} frames = Some c1) /\
  (forall (c : SB.t) (f g : Z -> Z),
     from_jack_by c f -> to_jack_by c g ->
     let c1 := snd (SB.get c frames) in
     let c2 := get_then_set c frames in
     same_converter c1 c2 /\
     SB.shadow c2 = SB.shadow c1 /\
     (forall i, port_data (SB.port c2) i =
                if negb (port_buffer (SB.port c) =? NULL) && in_range 0 frames i
                then g (f (port_data (SB.port c1) i))
                else port_data (SB.port c1) i) /\
     (SB.integer c = None ->
      forall i, port_data (SB.port c2) i = port_data (SB.port c1) i)).
Proof.
  intros Hfr. split.
  - intros c data. unfold FW.get, FW.set. cbn [src_ptr FW.buffer].
    rewrite Z.eqb_refl. reflexivity.
  - intros c f g Hf Hg c1 c2.
    assert (Hport : forall i,
      port_data (SB.port c2) i =
      if negb (port_buffer (SB.port c) =? NULL) && in_range 0 frames i
      then g (f (port_data (SB.port c1) i)) else port_data (SB.port c1) i).
    { subst c1 c2. unfold get_then_set, SB.get, SB.set.
      destruct (Z.eqb_spec (port_buffer (SB.port c)) NULL) as [Hn|Hn].
      - rewrite (copy_from_jack_null c 0 0 frames Hn). cbn [snd src_data].
        rewrite (copy_to_jack_null c _ 0 0 frames Hn). reflexivity.
      - destruct (copy_from_jack_shadow c f 0 0 frames Hf Hn Hfr) as (sh & Hc & Hsh).
        destruct (SB.copy_from_jack c 0 0 frames) as [p c1] eqn:E.
        cbn [snd] in Hc. subst c1. cbn [snd src_data].
        destruct (copy_to_jack_port (SB.set_shadow c sh) g sh 0 0 frames)
          as (d & Hd & Hdi); [exact Hg | exact Hn | exact Hfr |].
        cbn [SB.set_shadow SB.shadow] in *. rewrite Hd.
        intros i. cbn [SB.set_port SB.port set_port_data port_data negb andb].
        rewrite Hdi. destruct (in_range 0 frames i) eqn:Hi; [|reflexivity].
        replace (0 + (i - 0)) with i by lia. rewrite Hsh, Hi.
        replace (0 + (i - 0)) with i by lia.
        cbn [SB.set_shadow SB.port]. reflexivity. }
    assert (Hc2 : c2 = SB.copy_to_jack c1 (SB.shadow c1) 0 0 frames).
    { subst c1 c2. unfold get_then_set, SB.set.
      destruct (SB.get c frames); reflexivity. }
    split; [|split; [|split]].
    + rewrite Hc2. apply copy_to_jack_same.
    + rewrite Hc2. apply copy_to_jack_same.
    + exact Hport.
    + intros Hnone i. rewrite Hport.
      unfold from_jack_by, to_jack_by in Hf, Hg. rewrite Hnone in Hf, Hg.
      rewrite Hg, Hf.
      destruct (negb (port_buffer (SB.port c) =? NULL) && in_range 0 frames i);
        reflexivity.
Qed.

(** ** C7: alignment of the pointer returned by [get] *)

Lemma GET_32BYTE_ALIGN_BUFFER_spec buf :
  GET_32BYTE_ALIGN_BUFFER buf = 32 * (buf / 32) + 32.
Proof.
  unfold GET_32BYTE_ALIGN_BUFFER, BUF_ALIGN_MASK, BUF_ALIGN_BYTES.
  rewrite <- Z.ldiff_land.
  change (32 - 1) with (Z.ones 5).
  rewrite Z.ldiff_ones_r by lia.
  rewrite Z.shiftl_mul_pow2, Z.shiftr_div_pow2 by lia.
  change (2 ^ 5) with 32. lia.
Qed.

Lemma GET_32BYTE_ALIGN_BUFFER_aligned buf : aligned32 (GET_32BYTE_ALIGN_BUFFER buf).
Proof.
  unfold aligned32, BUF_ALIGN_BYTES. rewrite GET_32BYTE_ALIGN_BUFFER_spec.
  replace (32 * (buf / 32) + 32) with ((buf / 32 + 1) * 32) by lia.
  apply Z.mod_mul. lia.
Qed.

(** The aligned start lies inside the 32 bytes of slack of the array. *)
Lemma GET_32BYTE_ALIGN_BUFFER_bounds buf :
  buf < GET_32BYTE_ALIGN_BUFFER buf <= buf + 32.
Proof.
  rewrite GET_32BYTE_ALIGN_BUFFER_spec.
  pose proof (Z.mod_pos_bound buf 32 ltac:(lia)).
  pose proof (Z.div_mod buf 32 ltac:(lia)). lia.
Qed.

Lemma constructed_create pt ss storage u : constructed (SB.create pt ss storage u).
Proof. reflexivity. Qed.

Lemma constructed_create_integer tj fj ss pt storage u :
  constructed (SB.create_integer tj fj ss pt storage u).
Proof. reflexivity. Qed.

Lemma constructed_same c c' : same_converter c c' -> constructed c -> constructed c'.
Proof.
  unfold same_converter, constructed. intros (_ & _ & A & B & _) H. congruence.
Qed.

Lemma aligned32_add a b : aligned32 a -> (aligned32 (a + b) <-> b mod 32 = 0).
Proof.
  unfold aligned32, BUF_ALIGN_BYTES. intros Ha.
  rewrite Z.add_mod, Ha, Z.add_0_l, Z.mod_mod by lia. reflexivity.
Qed.

(** C7 as it holds.  On a shadow-owning converter used without a period
    adapter and on an input period adapter, the pointer returned by [get] is
    32-byte aligned (or [NULL]).  On an output period adapter, [get] with
    [frames = dst_frames] returns the address of the first free frame,
    [shadow_offset + shadow_frames + client_frames] frames after the aligned
    start, which is 32-byte aligned exactly when that many frames are a
    multiple of 32 bytes. *)
Theorem get_alignment (c : SB.t) :
  constructed c ->
  (forall frames, aligned32 (fst (SB.get c frames))) /\
  (forall p frames, FP.converter p = c -> aligned32 (fst (FP.get_in p frames))) /\
  (forall p, FP.converter p = c ->
     fst (FP.get_out p (FP.dst_frames p))
       = SB.aligned_buffer c + FP.free_slot p * SB.sample_size c /\
     (aligned32 (fst (FP.get_out p (FP.dst_frames p)))
      <-> (FP.free_slot p * SB.sample_size c) mod 32 = 0)).
Proof.
  intros Hc. unfold constructed in Hc.
  assert (Ha : aligned32 (SB.aligned_buffer c)).
  { rewrite Hc. apply GET_32BYTE_ALIGN_BUFFER_aligned. }
  repeat split.
  - intros frames. unfold SB.get, SB.copy_from_jack.
    destruct (SB.get_buffer c _ =? NULL); [reflexivity|].
    destruct (SB.integer c) as [[tj fj]|]; cbn [fst].
    + now rewrite Z.mul_0_r, Z.add_0_r.
    + now rewrite Z.mul_0_l, Z.add_0_r.
  - intros p frames Hp. unfold FP.get_in.
    destruct (negb (frames =? FP.dst_frames p)); cbn [fst]; [reflexivity|].
    unfold SB.get_shadow_buffer. rewrite Hp, Z.mul_0_l, Z.add_0_r. exact Ha.
  - unfold FP.get_out. rewrite Z.eqb_refl. cbn [negb fst].
    unfold SB.get_shadow_buffer. now rewrite H.
  - unfold FP.get_out. rewrite Z.eqb_refl. cbn [negb fst].
    unfold SB.get_shadow_buffer. rewrite H. now apply aligned32_add.
  - unfold FP.get_out. rewrite Z.eqb_refl. cbn [negb fst].
    unfold SB.get_shadow_buffer. rewrite H. now apply aligned32_add.
Qed.

Lemma next_in_counters p frames :
  let C := FP.dst_frames p in
  let sf := FP.shadow_frames p in
  let off := FP.jack_offset p in
  let '(r, p', log) := FP.next_in p frames in
  r = in_ret C frames sf off /\
  counters p' = (FP.cls p, C, in_sf C frames sf off, in_off C frames sf off,
                 FP.shadow_offset p, FP.client_frames p).
Proof.
  unfold FP.next_in, in_ret, in_sf, in_off, FP.append_from_jack.
  destruct (FP.shadow_frames p >? FP.dst_frames p).
  - split; reflexivity.
  - destruct (u32 (FP.shadow_frames p + u32 (frames - FP.jack_offset p)) >=? FP.dst_frames p);
      split; reflexivity.
Qed.

Lemma next_out_counters p frames :
  let '(r, p', log) := FP.next_out p frames in
  (r = 1 \/ r = - EINVAL) /\
  FP.cls p' = FP.cls p /\ FP.dst_frames p' = FP.dst_frames p.
Proof.
  unfold FP.next_out.
  destruct (FP.shadow_frames p >? _); [split; [right|split]; reflexivity|].
  split; [left; reflexivity|].
  destruct (u32 (FP.shadow_frames p + FP.client_frames p) >=? frames);
    cbn [FP.set_converter FP.set_shadow_frames FP.set_shadow_offset
           FP.shadow_frames FP.shadow_offset FP.client_frames FP.converter
           FP.cls FP.dst_frames FP.jack_offset].
  - destruct (u32 (u32 (FP.shadow_frames p + FP.client_frames p) - frames) =? 0);
      cbn [FP.set_converter FP.set_shadow_frames FP.set_shadow_offset
           FP.shadow_frames FP.shadow_offset FP.client_frames FP.converter
           FP.cls FP.dst_frames FP.jack_offset];
      match goal with
      | |- context [negb ?a && ?b] => destruct (negb a && b)
      end; split; reflexivity.
  - match goal with
      | |- context [negb ?a && ?b] => destruct (negb a && b)
      end; split; reflexivity.
Qed.

Lemma next_loop_ready frames ports result :
  let '(r, ports', log) := BC.next_loop frames ports result in
  1 <= r -> 1 <= result /\ Forall2 (advanced frames) ports ports'.
Proof.
  revert result. induction ports as [|p ports IH]; intros result; cbn [BC.next_loop].
  - intros H. split; [exact H | constructor].
  - destruct (FP.next p frames) as [[ret p'] log] eqn:E.
    destruct (Z.ltb_spec ret 0) as [Hneg|Hpos]; [intros; lia|].
    specialize (IH (if ret <? result then ret else result)).
    destruct (BC.next_loop frames ports _) as [[r rest'] log'].
    intros Hr. destruct (IH Hr) as [Hres Hall].
    destruct (Z.ltb_spec ret result).
    + split; [lia|]. constructor; [|exact Hall]. exists ret, log. split; [exact E|lia].
    + split; [lia|]. constructor; [|exact Hall]. exists ret, log. split; [exact E|lia].
Qed.

Lemma next_ready frames ports :
  let '(r, ports', log) := BC.next frames ports in
  1 <= r -> ports <> [] /\ Forall2 (advanced frames) ports ports'.
Proof.
  unfold BC.next. destruct ports as [|p ports].
  - intros; lia.
  - pose proof (next_loop_ready frames (p :: ports) 1) as H.
    destruct (BC.next_loop frames (p :: ports) 1) as [[r ports'] log].
    intros Hr. split; [discriminate|]. apply H. exact Hr.
Qed.

Lemma advanced_filled frames C p p' :
  is_u32 C -> input_adapter C p -> advanced frames p p' ->
  filled frames C p p' /\ input_adapter C p'.
Proof.
  intros HC (Hcls & Hdst & Hsf & Hoff) (r & log & Hnext & Hr).
  unfold FP.next in *. rewrite Hcls in *.
  pose proof (next_in_counters p frames) as Hcnt. cbv zeta in Hcnt.
  rewrite Hnext in Hcnt. destruct Hcnt as [Hret Hcnt].
  unfold counters in Hcnt. injection Hcnt as Hc1 Hc2 Hc3 Hc4 Hc5 Hc6.
  unfold in_ret in Hret. rewrite Hdst in *.
  destruct (Z.gtb_spec (FP.shadow_frames p) C) as [Hgt|Hle];
    [unfold EINVAL in Hret; lia|].
  destruct (Z.geb_spec (u32 (FP.shadow_frames p + u32 (frames - FP.jack_offset p))) C)
    as [Hge|Hlt]; [|lia].
  subst r.
  assert (Hin' : input_adapter C p').
  { unfold input_adapter. rewrite Hc1, Hc2, Hc3, Hc4.
    unfold in_sf, in_off.
    destruct (Z.gtb_spec (FP.shadow_frames p) C); [lia|].
    destruct (Z.geb_spec (u32 (FP.shadow_frames p + u32 (frames - FP.jack_offset p))) C);
      [|lia].
    repeat split; try assumption; try apply u32_range; unfold is_u32; lia. }
  split; [|exact Hin'].
  assert (Hlog : log = [] /\
    forall f, from_jack_by (FP.converter p) f ->
    port_buffer (SB.port (FP.converter p)) <> NULL ->
    forall i, 0 <= i < C ->
      SB.shadow (FP.converter p') i =
      if i <? FP.shadow_frames p then SB.shadow (FP.converter p) i
      else f (port_data (SB.port (FP.converter p))
                (FP.jack_offset p + (i - FP.shadow_frames p)))).
  { split.
    - unfold FP.next_in in Hnext.
      destruct (Z.gtb_spec (FP.shadow_frames p) (FP.dst_frames p)); [lia|].
      rewrite Hdst in Hnext.
      destruct (Z.geb_spec (u32 (FP.shadow_frames p + u32 (frames - FP.jack_offset p))) C);
        [|lia].
      congruence.
    - intros f Hf Hnull i Hi.
      destruct (next_in_cases p frames f Hf Hnull) as (Hready & _ & _).
      rewrite Hdst in Hready.
      destruct (Hready Hle ltac:(lia)) as (sh & Hsh & Heq).
      rewrite Hnext in Heq. injection Heq as Hp' _. subst p'.
      cbn [FP.converter FP.set_shadow_frames FP.set_jack_offset FP.set_converter
             SB.shadow SB.set_shadow].
      rewrite Hsh.
      unfold is_u32 in Hsf.
      rewrite (u32_small (C - FP.shadow_frames p)) by (unfold is_u32 in *; lia).
      destruct (Z.ltb_spec i (FP.shadow_frames p)).
      + rewrite in_range_false by lia. reflexivity.
      + rewrite in_range_true by lia. reflexivity. }
  destruct Hlog as [Hlog Hdata]. subst log.
  unfold filled. unfold FP.next. rewrite Hcls.
  split; [exact Hnext|]. split; [|split; [exact Hle | exact Hdata]].
  destruct Hin' as (Hcls' & Hdst' & _).
  unfold FP.get, FP.get_in. rewrite Hcls', Hdst', Z.eqb_refl. reflexivity.
Qed.

Lemma Forall2_advanced_filled frames C ports ports' :
  is_u32 C -> Forall (input_adapter C) ports -> Forall2 (advanced frames) ports ports' ->
  Forall2 (filled frames C) ports ports' /\ Forall (input_adapter C) ports'.
Proof.
  intros HC Hall H. induction H as [|p p' ports ports' Hp H IH].
  - split; constructor.
  - inversion Hall as [|? ? Hp0 Hrest]; subst.
    destruct (advanced_filled frames C p p' HC Hp0 Hp) as [Hf Hi].
    destruct (IH Hrest) as [IH1 IH2].
    split; constructor; assumption.
Qed.

Lemma input_adapter_counters C p p' :
  counters p' = counters p -> input_adapter C p -> input_adapter C p'.
Proof.
  unfold counters, input_adapter. intros H. injection H as H1 H2 H3 H4 H5 H6.
  rewrite H1, H2, H3, H4. tauto.
Qed.

Lemma Forall_input_adapter_counters C ports ports' :
  map counters ports' = map counters ports ->
  Forall (input_adapter C) ports -> Forall (input_adapter C) ports'.
Proof.
  revert ports'. induction ports as [|p ports IH]; intros [|p' ports'] H Hall;
    try discriminate; [constructor|].
  assert (H1 : counters p' = counters p) by (cbn [map] in H; congruence).
  assert (H2 : map counters ports' = map counters ports) by (cbn [map] in H; congruence).
  inversion Hall; subst. constructor.
  - now apply (input_adapter_counters C p p').
  - now apply IH.
Qed.

Section Invocations.

Context {A : Type}.
Variable callback : jack_nframes_t -> A -> BC.t -> Z * A * BC.t.
Hypothesis Hcb : respects_counters callback.

Lemma converter_loop_invocations fuel frames C :
  is_u32 C ->
  forall (arg : A) (conv : BC.t),
    BC.dst_frames conv = C ->
    Forall (input_adapter C) (BC.InPorts conv) ->
    Forall (invoked_ready frames C)
      (loop_calls (BC.converter_loop callback fuel frames arg conv)).
Proof.
  intros HC. induction fuel as [|fuel IH]; intros arg conv Hdst Hin.
  - constructor.
  - cbn [BC.converter_loop].
    pose proof (next_ready frames (BC.InPorts conv)) as Hnext.
    destruct (BC.next frames (BC.InPorts conv)) as [[ret ins] log].
    cbv beta iota in Hnext.
    destruct (Z.geb_spec ret 1) as [Hret|Hret]; [|constructor].
    destruct (Hnext ltac:(lia)) as [Hne Hadv].
    destruct (Forall2_advanced_filled frames C _ _ HC Hin Hadv) as [Hfilled Hin'].
    pose proof (Hcb (BC.dst_frames (BC.set_InPorts conv ins)) arg (BC.set_InPorts conv ins))
      as Hresp.
    destruct (callback (BC.dst_frames (BC.set_InPorts conv ins)) arg
                (BC.set_InPorts conv ins)) as [[cb_ret arg'] conv2].
    cbn [snd] in Hresp. destruct Hresp as (Hr1 & Hr2 & Hr3 & Hr4).
    cbn [BC.set_InPorts BC.InPorts BC.dst_frames] in *.
    assert (Hcall : invoked_ready frames C
              {| BC.inv_nframes := BC.dst_frames conv; BC.inv_before := conv;
                 BC.inv_state := BC.set_InPorts conv ins; BC.inv_ret := cb_ret |}).
    { repeat split; assumption. }
    destruct (cb_ret <? 0).
    + constructor; [exact Hcall | constructor].
    + specialize (IH arg' (BC.set_OutPorts conv2
                             (map FP.update_client_frames (BC.OutPorts conv2)))).
      destruct (BC.converter_loop callback fuel frames arg' _) as [[[[r a] c] calls] log'].
      unfold loop_calls in *. cbn [fst snd] in *.
      constructor; [exact Hcall|]. apply IH.
      * cbn [BC.set_OutPorts BC.dst_frames]. congruence.
      * cbn [BC.set_OutPorts BC.InPorts].
        apply (Forall_input_adapter_counters C ins); assumption.
Qed.

End Invocations.

(** *** Termination of the loop of [converter] *)

Lemma u32_sub_u32 a b : u32 (a - u32 b) = u32 (a - b).
Proof. unfold u32. apply Zminus_mod_idemp_r. Qed.

Lemma u32_u32_sub a b : u32 (u32 a - b) = u32 (a - b).
Proof. unfold u32. apply Zminus_mod_idemp_l. Qed.

Lemma u32_cases x : 0 <= x < 2 ^ 33 -> u32 x = x \/ (2 ^ 32 <= x /\ u32 x = x - 2 ^ 32).
Proof.
  intros H. destruct (Z.lt_ge_cases x (2 ^ 32)).
  - left. apply Z.mod_small. lia.
  - right. split; [assumption|]. unfold u32.
    symmetry. apply (Z.mod_unique_pos x (2 ^ 32) 1). lia. lia.
Qed.

Lemma advanced_measure frames C p p' :
  0 < C -> is_u32 C -> input_adapter C p -> advanced frames p p' ->
  0 <= in_measure frames C p' < in_measure frames C p.
Proof.
  intros HC0 HC (Hcls & Hdst & Hsf & Hoff) (r & log & Hnext & Hr).
  unfold FP.next in Hnext. rewrite Hcls in Hnext.
  pose proof (next_in_counters p frames) as Hcnt. cbv zeta in Hcnt.
  rewrite Hnext in Hcnt. destruct Hcnt as [Hret Hcnt].
  unfold counters in Hcnt. injection Hcnt as Hc1 Hc2 Hc3 Hc4 Hc5 Hc6.
  unfold in_ret in Hret. unfold in_sf in Hc3. unfold in_off in Hc4.
  rewrite Hdst in *.
  destruct (Z.gtb_spec (FP.shadow_frames p) C) as [Hgt|Hle];
    [unfold EINVAL in Hret; lia|].
  destruct (Z.geb_spec (u32 (FP.shadow_frames p + u32 (frames - FP.jack_offset p))) C)
    as [Hge|Hlt]; [|lia].
  unfold in_measure. rewrite Hc3, Hc4.
  rewrite u32_sub_u32.
  pose proof (u32_range (frames - FP.jack_offset p)) as Hjf.
  set (jf := u32 (frames - FP.jack_offset p)) in *.
  unfold is_u32 in *.
  rewrite (u32_small (C - FP.shadow_frames p)) by (unfold is_u32; lia).
  replace (frames - (FP.jack_offset p + (C - FP.shadow_frames p)))
    with (frames - FP.jack_offset p - (C - FP.shadow_frames p)) by lia.
  rewrite <- u32_u32_sub. fold jf.
  assert (Hneed : C - FP.shadow_frames p <= jf).
  { destruct (u32_cases (FP.shadow_frames p + jf)) as [E|[E1 E2]]; lia. }
  rewrite (u32_small (jf - (C - FP.shadow_frames p))) by (unfold is_u32; lia).
  destruct (Z.eqb_spec 0 C); [lia|].
  destruct (Z.eqb_spec (FP.shadow_frames p) C); lia.
Qed.

Section Termination.

Context {A : Type}.
Variable callback : jack_nframes_t -> A -> BC.t -> Z * A * BC.t.
Hypothesis Hcb : respects_counters callback.

Lemma converter_loop_terminates frames (n : nat) :
  forall (fuel : nat) (arg : A) (conv : BC.t),
    first_input_ok conv ->
    (loop_fuel frames conv <= S n)%nat -> (n < fuel)%nat ->
    loop_result (BC.converter_loop callback fuel frames arg conv) <> None.
Proof.
  induction n as [|n IH]; intros fuel arg conv Hok Hfuel Hlt;
    (destruct fuel as [|fuel]; [lia|]); cbn [BC.converter_loop];
    pose proof (next_ready frames (BC.InPorts conv)) as Hnext;
    destruct (BC.next frames (BC.InPorts conv)) as [[ret ins] log];
    cbv beta iota in Hnext;
    (destruct (Z.geb_spec ret 1) as [Hret|Hret]; [|discriminate]);
    destruct (Hnext ltac:(lia)) as [Hne Hadv];
    unfold first_input_ok, loop_fuel in Hok, Hfuel;
    destruct (BC.InPorts conv) as [|p rest] eqn:Hports; try congruence;
    inversion Hadv as [|? p' ? rest' Hp Hrest]; subst;
    destruct Hok as (HC0 & HC & Hin);
    pose proof (advanced_measure frames _ p p' HC0 HC Hin Hp) as Hm;
    destruct (advanced_filled frames _ p p' HC Hin Hp) as [_ Hin'].
  - lia.
  - pose proof (Hcb (BC.dst_frames (BC.set_InPorts conv (p' :: rest'))) arg
                  (BC.set_InPorts conv (p' :: rest'))) as Hresp.
    destruct (callback (BC.dst_frames (BC.set_InPorts conv (p' :: rest'))) arg
                (BC.set_InPorts conv (p' :: rest'))) as [[cb_ret arg'] conv2].
    cbn [snd] in Hresp. destruct Hresp as (Hr1 & _).
    cbn [BC.set_InPorts BC.InPorts] in Hr1.
    destruct (cb_ret <? 0); [discriminate|].
    specialize (IH fuel arg' (BC.set_OutPorts conv2
                                (map FP.update_client_frames (BC.OutPorts conv2)))).
    destruct (BC.InPorts conv2) as [|p2 rest2] eqn:Hports2; [discriminate|].
    cbn [map] in Hr1.
    assert (Hcnt : counters p2 = counters p') by congruence.
    assert (Hin2 : input_adapter (FP.dst_frames p) p2)
      by (apply (input_adapter_counters _ p'); assumption).
    assert (Hdst2 : FP.dst_frames p2 = FP.dst_frames p) by apply Hin2.
    assert (Hm2 : in_measure frames (FP.dst_frames p) p2
                  = in_measure frames (FP.dst_frames p) p').
    { unfold counters in Hcnt. injection Hcnt as E1 E2 E3 E4 E5 E6.
      unfold in_measure. now rewrite E3, E4. }
    destruct (BC.converter_loop callback fuel frames arg' _)
      as [[[[r a] c] calls] log'] eqn:Eloop.
    unfold loop_result in *. cbn [fst] in *.
    apply IH.
    + unfold first_input_ok. cbn [BC.set_OutPorts BC.InPorts].
      rewrite Hports2, Hdst2. split; [|split]; assumption.
    + unfold loop_fuel. cbn [BC.set_OutPorts BC.InPorts].
      rewrite Hports2, Hdst2, Hm2. lia.
    + lia.
Qed.

End Termination.

(** *** C10: no output adapter *)

Section NoOutput.

Context {A : Type}.
Variable callback : jack_nframes_t -> A -> BC.t -> Z * A * BC.t.
Hypothesis Hcb : respects_counters callback.

Lemma map_counters_nil ports : map counters ports = [] -> ports = [].
Proof. destruct ports; [reflexivity | discriminate]. Qed.

Lemma converter_loop_outcome fuel frames :
  forall (arg : A) (conv : BC.t),
    loop_outcome (BC.converter_loop callback fuel frames arg conv).
Proof.
  induction fuel as [|fuel IH]; intros arg conv; [exact I|].
  cbn [BC.converter_loop].
  destruct (BC.next frames (BC.InPorts conv)) as [[ret ins] log].
  destruct (ret >=? 1); [|constructor].
  destruct (callback _ arg _) as [[cb_ret arg'] conv2].
  destruct (Z.ltb_spec cb_ret 0) as [Hneg|Hpos].
  - split; [exact Hneg|]. exists []. eexists.
    split; [reflexivity|]. split; [reflexivity | constructor].
  - specialize (IH arg' (BC.set_OutPorts conv2
                           (map FP.update_client_frames (BC.OutPorts conv2)))).
    destruct (BC.converter_loop callback fuel frames arg' _) as [[[[r a] c] calls] log'].
    unfold loop_outcome, loop_result, loop_calls in *. cbn [fst snd] in *.
    destruct r as [[v|v]|]; [| |exact I].
    + destruct IH as (Hv & calls0 & call & -> & Hret & Hall).
      split; [exact Hv|]. eexists (_ :: calls0). exists call.
      split; [reflexivity|]. split; [exact Hret|].
      constructor; [exact Hpos | exact Hall].
    + constructor; [exact Hpos | exact IH].
Qed.

(** A client that never fails leaves no failed invocation. *)
Lemma converter_calls_nonneg fuel frames (arg : A) (conv : BC.t) (o : BC.outcome A) :
  (forall n a c, 0 <= fst (fst (callback n a c))) ->
  BC.converter callback fuel frames arg conv = Some o ->
  Forall (fun call => 0 <= BC.inv_ret call) (BC.out_calls o).
Proof.
  intros Hok.
  assert (H : forall fuel arg conv,
            Forall (fun call => 0 <= BC.inv_ret call)
              (loop_calls (BC.converter_loop callback fuel frames arg conv))).
  { clear arg conv o fuel. induction fuel as [|fuel IH]; intros arg conv; [constructor|].
    cbn [BC.converter_loop].
    destruct (BC.next frames (BC.InPorts conv)) as [[ret ins] log].
    destruct (ret >=? 1); [|constructor].
    pose proof (Hok (BC.dst_frames (BC.set_InPorts conv ins)) arg (BC.set_InPorts conv ins))
      as Hc.
    destruct (callback _ arg _) as [[cb_ret arg'] conv2]. cbn [fst] in Hc.
    destruct (cb_ret <? 0).
    - constructor; [exact Hc | constructor].
    - specialize (IH arg' (BC.set_OutPorts conv2
                             (map FP.update_client_frames (BC.OutPorts conv2)))).
      destruct (BC.converter_loop callback fuel frames arg' _) as [[[[r a] c] calls] log'].
      unfold loop_calls in *. cbn [fst snd] in *.
      constructor; [exact Hc | exact IH]. }
  specialize (H fuel arg conv). unfold BC.converter.
  destruct (BC.converter_loop callback fuel frames arg conv) as [[[[r a] c] calls] log].
  unfold loop_calls in H. cbn [fst snd] in H.
  destruct r as [[v|v]|]; [| |discriminate].
  - intros [= <-]. exact H.
  - destruct (BC.next frames (BC.OutPorts c)) as [[outport_ret outs] log'].
    intros [= <-]. exact H.
Qed.

Lemma converter_loop_no_output fuel frames :
  forall (arg : A) (conv : BC.t),
    BC.OutPorts conv = [] ->
    BC.OutPorts (loop_conv (BC.converter_loop callback fuel frames arg conv)) = [].
Proof.
  induction fuel as [|fuel IH]; intros arg conv Hout; [exact Hout|].
  cbn [BC.converter_loop].
  destruct (BC.next frames (BC.InPorts conv)) as [[ret ins] log].
  destruct (ret >=? 1); [|exact Hout].
  pose proof (Hcb (BC.dst_frames (BC.set_InPorts conv ins)) arg (BC.set_InPorts conv ins))
    as Hresp.
  destruct (callback _ arg _) as [[cb_ret arg'] conv2].
  cbn [snd] in Hresp. destruct Hresp as (_ & Hr2 & _).
  cbn [BC.set_InPorts BC.OutPorts] in Hr2. rewrite Hout in Hr2.
  apply map_counters_nil in Hr2.
  destruct (cb_ret <? 0); [exact Hr2|].
  specialize (IH arg' (BC.set_OutPorts conv2
                         (map FP.update_client_frames (BC.OutPorts conv2)))).
  destruct (BC.converter_loop callback fuel frames arg' _) as [[[[r a] c] calls] log'].
  unfold loop_conv in *. cbn [fst snd] in *. apply IH.
  cbn [BC.set_OutPorts BC.OutPorts]. rewrite Hr2. reflexivity.
Qed.

(** C10 as it holds.  On an aggregator without output adapters the process
    callback returns a negative value.  When an invocation of the client
    callback returned a negative value, that invocation is the last one and
    its value is the result; otherwise the result is -1, in particular when
    there are input adapters, all of them advanced and every client
    invocation succeeded.  (The loop ends: the first input adapter, if any,
    is one for a client period of at least one frame.) *)
Theorem converter_without_outputs (frames : jack_nframes_t) (arg : A) (conv : BC.t) :
  BC.OutPorts conv = [] ->
  first_input_ok conv ->
  forall fuel, (loop_fuel frames conv <= fuel)%nat ->
  exists o,
    BC.converter callback fuel frames arg conv = Some o /\
    BC.out_ret o < 0 /\
    (forall call, In call (BC.out_calls o) -> BC.inv_ret call < 0 ->
       BC.out_ret o = BC.inv_ret call /\
       exists calls, BC.out_calls o = calls ++ [call] /\
                     Forall (fun call => 0 <= BC.inv_ret call) calls) /\
    (Forall (fun call => 0 <= BC.inv_ret call) (BC.out_calls o) -> BC.out_ret o = -1).
Proof.
  intros Hout Hok fuel Hfuel.
  assert (Hterm : loop_result (BC.converter_loop callback fuel frames arg conv) <> None).
  { destruct fuel as [|n].
    - unfold loop_fuel in Hfuel. destruct (BC.InPorts conv); lia.
    - apply (converter_loop_terminates callback Hcb frames n); [exact Hok | lia | lia]. }
  pose proof (converter_loop_outcome fuel frames arg conv) as Hend.
  pose proof (converter_loop_no_output fuel frames arg conv Hout) as Hno.
  unfold BC.converter.
  destruct (BC.converter_loop callback fuel frames arg conv) as [[[[r a] c] calls] log].
  unfold loop_outcome, loop_result, loop_calls, loop_conv in *. cbn [fst snd] in *.
  destruct r as [[v|v]|]; [| |congruence].
  - destruct Hend as (Hv & calls0 & last & -> & Hret & Hall).
    eexists. split; [reflexivity|]. cbn [BC.out_ret BC.out_calls].
    split; [exact Hv|]. split.
    + intros call Hin Hneg. apply in_app_or in Hin. destruct Hin as [Hin|Hin].
      * rewrite Forall_forall in Hall. specialize (Hall call Hin). lia.
      * destruct Hin as [<-|[]]. split; [symmetry; exact Hret|].
        exists calls0. split; [reflexivity | exact Hall].
    + intros Hnone. rewrite Forall_forall in Hnone.
      assert (Hin : In last (calls0 ++ [last])) by (apply in_or_app; right; left; reflexivity).
      specialize (Hnone last Hin). lia.
  - rewrite Hno. cbn [BC.next].
    eexists. split; [reflexivity|]. cbn [BC.out_ret BC.out_calls].
    change (-1 <? 0) with true. cbn iota.
    split; [lia|]. split; [|reflexivity].
    intros call Hin Hneg. rewrite Forall_forall in Hend. specialize (Hend call Hin). lia.
Qed.

End NoOutput.

(** *** C1: the number of client invocations *)

Lemma in_step_with_counters C sf off p p' :
  counters p' = counters p -> in_step_with C sf off p -> in_step_with C sf off p'.
Proof.
  unfold counters, in_step_with. intros H. injection H as H1 H2 H3 H4 H5 H6.
  rewrite H1, H2, H3, H4. tauto.
Qed.

Lemma Forall_in_step_with_counters C sf off ports ports' :
  map counters ports' = map counters ports ->
  Forall (in_step_with C sf off) ports -> Forall (in_step_with C sf off) ports'.
Proof.
  revert ports'. induction ports as [|p ports IH]; intros [|p' ports'] H Hall;
    try discriminate; [constructor|].
  assert (H1 : counters p' = counters p) by (cbn [map] in H; congruence).
  assert (H2 : map counters ports' = map counters ports) by (cbn [map] in H; congruence).
  inversion Hall; subst. constructor.
  - now apply (in_step_with_counters C sf off p p').
  - now apply IH.
Qed.

Lemma next_in_step C sf off frames p :
  in_step_with C sf off p ->
  let '(r, p', log) := FP.next p frames in
  r = in_ret C frames sf off /\
  in_step_with C (in_sf C frames sf off) (in_off C frames sf off) p'.
Proof.
  intros (Hcls & Hdst & Hsf & Hoff). unfold FP.next. rewrite Hcls.
  pose proof (next_in_counters p frames) as H. cbv zeta in H.
  destruct (FP.next_in p frames) as [[r p'] log].
  destruct H as [Hr Hc]. rewrite Hdst, Hsf, Hoff in *.
  split; [exact Hr|].
  unfold counters in Hc. injection Hc as H1 H2 H3 H4 H5 H6.
  unfold in_step_with. rewrite H1, H2, H3, H4. tauto.
Qed.

Lemma in_ret_values C frames sf off :
  in_ret C frames sf off = 1 \/ in_ret C frames sf off = 0 \/
  (in_ret C frames sf off = - EINVAL /\ in_sf C frames sf off = sf /\
   in_off C frames sf off = off).
Proof.
  unfold in_ret, in_sf, in_off. destruct (sf >? C); [tauto|].
  destruct (_ >=? C); tauto.
Qed.

Lemma next_loop_uniform C sf off frames ports :
  Forall (in_step_with C sf off) ports ->
  forall result, result = 1 \/ result = in_ret C frames sf off ->
  let '(r, ports', log) := BC.next_loop frames ports result in
  r = match ports with [] => result | _ => in_ret C frames sf off end /\
  Forall (in_step_with C (in_sf C frames sf off) (in_off C frames sf off)) ports'.
Proof.
  induction 1 as [|p ports Hp Hrest IH]; intros result Hres; cbn [BC.next_loop].
  - split; [reflexivity | constructor].
  - pose proof (next_in_step C sf off frames p Hp) as Hstep.
    destruct (FP.next p frames) as [[ret p'] log].
    destruct Hstep as [Hret Hp'].
    destruct (in_ret_values C frames sf off) as [E|[E|(E & E1 & E2)]].
    + rewrite E in *. subst ret. change (1 <? 0) with false. cbn iota.
      assert (Hr' : (if 1 <? result then 1 else result) = 1).
      { destruct Hres as [->| ->]; reflexivity. }
      rewrite Hr'. specialize (IH 1 (or_introl eq_refl)).
      destruct (BC.next_loop frames ports 1) as [[r rest'] log'].
      destruct IH as [IH1 IH2]. split.
      * destruct ports; assumption.
      * constructor; assumption.
    + rewrite E in *. subst ret. change (0 <? 0) with false. cbn iota.
      assert (Hr' : (if 0 <? result then 0 else result) = 0).
      { destruct Hres as [->| ->]; reflexivity. }
      rewrite Hr'. specialize (IH 0 (or_intror eq_refl)).
      destruct (BC.next_loop frames ports 0) as [[r rest'] log'].
      destruct IH as [IH1 IH2]. split.
      * destruct ports; assumption.
      * constructor; assumption.
    + rewrite E in *. subst ret. change (- EINVAL <? 0) with true. cbn iota.
      split; [reflexivity|]. rewrite E1, E2 in *. constructor; assumption.
Qed.

Lemma next_loop_length frames ports result :
  List.length (snd (fst (BC.next_loop frames ports result))) = List.length ports.
Proof.
  revert result. induction ports as [|p ports IH]; intros result; cbn [BC.next_loop].
  - reflexivity.
  - destruct (FP.next p frames) as [[ret p'] log].
    destruct (ret <? 0); [reflexivity|].
    specialize (IH (if ret <? result then ret else result)).
    destruct (BC.next_loop frames ports _) as [[r rest'] log'].
    cbn [fst snd List.length] in *. now rewrite IH.
Qed.

Lemma next_length frames ports :
  List.length (snd (fst (BC.next frames ports))) = List.length ports.
Proof.
  unfold BC.next. destruct ports; [reflexivity|]. apply next_loop_length.
Qed.

Lemma next_uniform C sf off frames ports :
  ports <> [] -> Forall (in_step_with C sf off) ports ->
  let '(r, ports', log) := BC.next frames ports in
  r = in_ret C frames sf off /\ ports' <> [] /\
  Forall (in_step_with C (in_sf C frames sf off) (in_off C frames sf off)) ports'.
Proof.
  intros Hne Hall.
  pose proof (next_length frames ports) as Hlen.
  unfold BC.next in *. destruct ports as [|p ports]; [congruence|].
  pose proof (next_loop_uniform C sf off frames (p :: ports) Hall 1 (or_introl eq_refl)) as H.
  destruct (BC.next_loop frames (p :: ports) 1) as [[r ports'] log].
  destruct H as [H1 H2]. split; [exact H1|]. split; [|exact H2].
  cbn [fst snd] in Hlen. destruct ports'; [discriminate Hlen | discriminate].
Qed.

Lemma in_step_nowrap C S sf off :
  0 < C -> S + C < 2 ^ 32 -> 0 <= sf <= C -> 0 <= off <= S ->
  let a := sf + S - off in
  in_ret C S sf off = (if a >=? C then 1 else 0) /\
  in_sf C S sf off = (if a >=? C then 0 else a) /\
  in_off C S sf off = (if a >=? C then off + C - sf else 0).
Proof.
  intros HC Hsum Hsf Hoff a. unfold in_ret, in_sf, in_off.
  destruct (Z.gtb_spec sf C); [lia|].
  rewrite (u32_small (S - off)) by (unfold is_u32; lia).
  rewrite (u32_small (sf + (S - off))) by (unfold is_u32; lia).
  replace (sf + (S - off)) with a by (unfold a; lia).
  destruct (Z.geb_spec a C).
  - repeat split. rewrite (u32_small (C - sf)) by (unfold is_u32; lia).
    rewrite u32_small by (unfold is_u32, a in *; lia). lia.
  - repeat split.
Qed.

Lemma refresh_counters ports pts :
  map counters (BC.refresh ports pts) = map counters ports.
Proof.
  revert pts. induction ports as [|p ports IH]; intros [|pt pts]; try reflexivity.
  cbn [BC.refresh map]. now rewrite IH.
Qed.

Section Counting.

Context {A : Type}.
Variable callback : jack_nframes_t -> A -> BC.t -> Z * A * BC.t.
Hypothesis Hcb : respects_counters callback.
Hypothesis Hzero : forall n arg conv, fst (fst (callback n arg conv)) = 0.

Variables C S : jack_nframes_t.
Hypothesis HC : 0 < C.
Hypothesis HS : 0 <= S.
Hypothesis Hsum : S + C < 2 ^ 32.

Lemma inputs_at_counters sf off conv conv' :
  map counters (BC.InPorts conv') = map counters (BC.InPorts conv) ->
  inputs_at C sf off conv -> inputs_at C sf off conv'.
Proof.
  intros H [Hne Hall]. split.
  - intros E. rewrite E in H. symmetry in H. apply map_counters_nil in H. congruence.
  - now apply (Forall_in_step_with_counters C sf off (BC.InPorts conv)).
Qed.

Lemma converter_loop_count (n : nat) :
  forall (fuel : nat) (arg : A) (conv : BC.t) (sf off : jack_nframes_t),
    (n < fuel)%nat -> inputs_at C sf off conv ->
    0 <= sf <= C -> 0 <= off <= S ->
    (sf + S - off) / C = Z.of_nat n ->
    let x := BC.converter_loop callback fuel S arg conv in
    loop_result x = Some (inr 0) /\
    List.length (loop_calls x) = n /\
    inputs_at C ((sf + S - off) mod C) 0 (loop_conv x).
Proof.
  induction n as [|n IH]; intros fuel arg conv sf off Hfuel [Hne Hall] Hsf Hoff Hdiv;
    (destruct fuel as [|fuel]; [lia|]); cbn [BC.converter_loop];
    pose proof (next_uniform C sf off S (BC.InPorts conv) Hne Hall) as Hnext;
    destruct (BC.next S (BC.InPorts conv)) as [[ret ins] log];
    destruct Hnext as (Hret & Hne' & Hall');
    destruct (in_step_nowrap C S sf off HC Hsum Hsf Hoff) as (E1 & E2 & E3);
    cbv zeta in E1, E2, E3; rewrite E1 in Hret; rewrite E2, E3 in Hall'.
  - (* fewer than [C] frames are at hand *)
    assert (Hlt : sf + S - off < C).
    { apply Z.div_small_iff in Hdiv; lia. }
    destruct (Z.geb_spec (sf + S - off) C); [lia|]. subst ret.
    change (0 >=? 1) with false. cbn iota.
    unfold loop_result, loop_calls, loop_conv. cbn [fst snd].
    repeat split; try assumption.
    rewrite Z.mod_small by lia. exact Hall'.
  - (* a full client period is at hand *)
    assert (Hge : C <= sf + S - off).
    { destruct (Z.lt_ge_cases (sf + S - off) C) as [Hlt|]; [|assumption].
      rewrite Z.div_small in Hdiv by lia. lia. }
    destruct (Z.geb_spec (sf + S - off) C); [|lia]. subst ret.
    change (1 >=? 1) with true. cbn iota.
    pose proof (Hcb (BC.dst_frames (BC.set_InPorts conv ins)) arg (BC.set_InPorts conv ins))
      as Hresp.
    pose proof (Hzero (BC.dst_frames (BC.set_InPorts conv ins)) arg (BC.set_InPorts conv ins))
      as Hz.
    destruct (callback _ arg _) as [[cb_ret arg'] conv2].
    cbn [fst snd] in Hresp, Hz. destruct Hresp as (Hr1 & _). subst cb_ret.
    change (0 <? 0) with false. cbn iota.
    cbn [BC.set_InPorts BC.InPorts] in Hr1.
    specialize (IH fuel arg'
                  (BC.set_OutPorts conv2 (map FP.update_client_frames (BC.OutPorts conv2)))
                  0 (off + C - sf)).
    destruct IH as (I1 & I2 & I3).
    + lia.
    + apply (inputs_at_counters 0 (off + C - sf) (BC.set_InPorts conv ins)).
      * cbn [BC.set_OutPorts BC.set_InPorts BC.InPorts]. exact Hr1.
      * split; assumption.
    + lia.
    + lia.
    + replace (sf + S - off) with (0 + S - (off + C - sf) + 1 * C) in Hdiv by lia.
      rewrite Z.div_add in Hdiv by lia. lia.
    + destruct (BC.converter_loop callback fuel S arg' _) as [[[[r a] c] calls] log'].
      unfold loop_result, loop_calls, loop_conv in *. cbn [fst snd] in *.
      repeat split; try assumption.
      * cbn [List.length]. now rewrite I2.
      * apply I3.
      * replace (sf + S - off) with (0 + S - (off + C - sf) + 1 * C) by lia.
        rewrite Z.mod_add by lia. apply I3.
Qed.

Lemma converter_count (fuel : nat) (arg : A) (conv : BC.t) (sf : jack_nframes_t) :
  (Z.to_nat (S / C) + 2 <= fuel)%nat ->
  inputs_at C sf 0 conv -> 0 <= sf <= C ->
  exists o,
    BC.converter callback fuel S arg conv = Some o /\
    Z.of_nat (List.length (BC.out_calls o)) = (sf + S) / C /\
    inputs_at C ((sf + S) mod C) 0 (BC.out_conv o).
Proof.
  intros Hfuel Hin Hsf.
  assert (Hn : 0 <= (sf + S) / C <= S / C + 1).
  { split; [apply Z.div_pos; lia|].
    replace (sf + S) with (sf + S - C + 1 * C) by lia. rewrite Z.div_add by lia.
    assert ((sf + S - C) / C <= S / C) by (apply Z.div_le_mono; lia). lia. }
  destruct (converter_loop_count (Z.to_nat ((sf + S) / C)) fuel arg conv sf 0)
    as (H1 & H2 & H3); try assumption; try lia.
  { rewrite Z2Nat.id by lia. f_equal. lia. }
  unfold BC.converter.
  destruct (BC.converter_loop callback fuel S arg conv) as [[[[r a] c] calls] log].
  unfold loop_result, loop_calls, loop_conv in *. cbn [fst snd] in *. subst r.
  destruct (BC.next S (BC.OutPorts c)) as [[outport_ret outs] log'].
  eexists. split; [reflexivity|]. cbn [BC.out_calls BC.out_conv].
  split.
  - rewrite H2, Z2Nat.id by lia. reflexivity.
  - replace (sf + S - 0) with (sf + S) in H3 by lia. exact H3.
Qed.

Lemma begin_cycle_inputs sf off conv c :
  inputs_at C sf off conv -> inputs_at C sf off (BC.begin_cycle conv c).
Proof.
  apply inputs_at_counters. unfold BC.begin_cycle.
  cbn [BC.set_OutPorts BC.set_InPorts BC.InPorts]. apply refresh_counters.
Qed.




End Counting.

(** C5.  In a process callback on an aggregator for client period [C]
    whose input adapters are the factory's, every invocation of the client
    callback passes [C] as frame count and comes right after [next] returned
    1 on every input adapter: for each of them [get(C)] hands out the start
    of the shadow buffer, and the [C] frames there are the frames buffered
    before followed by the frames copied from the server in that [next]. *)
Theorem client_invocation_ready {A : Type}
  (callback : jack_nframes_t -> A -> BC.t -> Z * A * BC.t)
  (fuel : nat) (frames : jack_nframes_t) (arg : A) (conv : BC.t) :
  respects_counters callback ->
  is_u32 (BC.dst_frames conv) ->
  Forall (input_adapter (BC.dst_frames conv)) (BC.InPorts conv) ->
  Forall (invoked_ready frames (BC.dst_frames conv))
    (loop_calls (BC.converter_loop callback fuel frames arg conv)) /\
  (forall o, BC.converter callback fuel frames arg conv = Some o ->
             Forall (invoked_ready frames (BC.dst_frames conv)) (BC.out_calls o)).
Proof.
  intros Hcb HC Hin.
  pose proof (converter_loop_invocations callback Hcb fuel frames (BC.dst_frames conv)
                HC arg conv eq_refl Hin) as H.
  split; [exact H|].
  intros o Ho. unfold BC.converter in Ho.
  destruct (BC.converter_loop callback fuel frames arg conv) as [[[[r a] c] calls] log].
  unfold loop_calls in H. cbn [fst snd] in H.
  destruct r as [[v|v]|]; [| |discriminate].
  - injection Ho as <-. exact H.
  - destruct (BC.next frames (BC.OutPorts c)) as [[outport_ret outs] log'].
    injection Ho as <-. exact H.
Qed.


(** *** The example client and the example system *)

Lemma set_counters p src frames : counters (fst (FP.set p src frames)) = counters p.
Proof.
  unfold FP.set, FP.set_in, FP.set_out.
  destruct (FP.cls p); [reflexivity|].
  destruct (src_ptr src =? _); reflexivity.
Qed.

Lemma checked_inprocess_respects_counters : respects_counters checked_inprocess.
Proof.
  intros n arg conv conv'. subst conv'.
  unfold checked_inprocess, InprocessPeriod.inprocess.
  destruct (BC.InPorts conv) as [|inp ins] eqn:Hin;
    [|destruct (BC.OutPorts conv) as [|outp outs] eqn:Hout;
      [|destruct (_ || _)]];
    cbn [snd BC.set_OutPorts BC.InPorts BC.OutPorts BC.dst_frames BC.silence_prefil map];
    rewrite ?Hin, ?Hout; repeat split.
  now rewrite set_counters.
Qed.

Lemma checked_inprocess_returns_zero n arg conv :
  fst (fst (checked_inprocess n arg conv)) = 0.
Proof.
  unfold checked_inprocess, InprocessPeriod.inprocess.
  destruct (BC.InPorts conv); [reflexivity|].
  destruct (BC.OutPorts conv); [reflexivity|].
  destruct (_ || _); reflexivity.
Qed.

Lemma idle_client_respects_counters : respects_counters idle_client.
Proof. intros n arg conv. repeat split. Qed.

(** C7 fails on an output period adapter: with client period 64 on a server
    of period 100, at the third invocation of the client (the first of the
    second process callback) [get(64)] on the output adapter returns a
    pointer 16 bytes past a 32-byte boundary. *)
Lemma output_get_unaligned :
  match example_run 64 100 2 with
  | Some (rs, _, _) =>
      match nth_error (List.concat (map snd rs)) 2 with
      | Some call =>
          map (fun p => fst (FP.get p (BC.inv_nframes call)) mod BUF_ALIGN_BYTES)
            (BC.OutPorts (BC.inv_state call)) = [16] /\
          match InprocessPeriod.inprocess (BC.inv_nframes call) tt (BC.inv_state call) with
          | Some _ => True
          | None => False
          end
      | None => False
      end
  | None => False
  end.
Proof. vm_compute. split; [reflexivity | exact I]. Qed.

(** C10 fails when the client callback returns a negative value other than
    -1: without output adapters the process callback returns that value. *)
Lemma converter_without_outputs_returns_client_error :
  match BC.create 64 false true 64 with
  | Some conv =>
      match jack_port_create_convert example_in_port JACK_PORT_CONV_FMT_INT32 false
              (Some conv) 0x3004 (fun _ => 7) with
      | (_, Some conv, _) =>
          BC.OutPorts conv = [] /\
          option_map BC.out_ret (BC.converter failing_client 3 64 tt conv) = Some (-5)
      | _ => False
      end
  | None => False
  end.
Proof. vm_compute. split; reflexivity. Qed.

(** *** C6: float to integer *)

Lemma clamp_exclusive x :
  F32.leb x NORMALIZED_FLOAT_MIN = true -> F32.leb NORMALIZED_FLOAT_MAX x = false.
Proof.
  destruct x as [s|s| |s m e]; try destruct s; try reflexivity; try discriminate.
Qed.

Lemma s32_u32 z : s32 (u32 z) = s32 z.
Proof.
  unfold s32, u32. rewrite Zplus_mod_idemp_l. reflexivity.
Qed.

Lemma s16_u16 z : s16 (u16 z) = s16 z.
Proof.
  unfold s16, u16. rewrite Zplus_mod_idemp_l. reflexivity.
Qed.

Lemma s32_s32 z : s32 (s32 z) = s32 z.
Proof.
  unfold s32. replace ((z + 2 ^ 31) mod 2 ^ 32 - 2 ^ 31 + 2 ^ 31)
    with ((z + 2 ^ 31) mod 2 ^ 32) by lia.
  now rewrite Z.mod_mod by lia.
Qed.

Lemma s16_s16 z : s16 (s16 z) = s16 z.
Proof.
  unfold s16. replace ((z + 2 ^ 15) mod 2 ^ 16 - 2 ^ 15 + 2 ^ 15)
    with ((z + 2 ^ 15) mod 2 ^ 16) by lia.
  now rewrite Z.mod_mod by lia.
Qed.

(** The [int] constant [0x7FFFFFFF] converted to [float] is 2^31; 0x7FFF is
    exact. *)
Lemma scaling32_as_float :
  F32.of_Z SAMPLE_32BIT_SCALING = S754_finite false (2 ^ 23) 8.
Proof. reflexivity. Qed.

Lemma scaling16_as_float :
  F32.of_Z SAMPLE_16BIT_SCALING = S754_finite false 0xFFFE00 (-9).
Proof. reflexivity. Qed.

Lemma clamp_and_round_extremes :
  map (fun i => s32 (sample_move_d32_sS (fun _ => 0) 0 extremes 0 7 i))
    [0; 1; 2; 3; 4; 5; 6]
  = [- 0x7FFFFFFF; - 0x7FFFFFFF; - 0x40000000; 0; 0x40000000; 0x7FFFFFFF; 0x7FFFFFFF] /\
  map (fun i => s16 (sample_move_d16_sS (fun _ => 0) 0 extremes 0 7 i))
    [0; 1; 2; 3; 4; 5; 6]
  = [- 0x7FFF; - 0x7FFF; - 0x4000; 0; 0x4000; 0x7FFF; 0x7FFF].
Proof. vm_compute. split; reflexivity. Qed.

(** Since the scaling of the 32-bit path is 2^31 in [float], 0.75 becomes
    [0x60000000]. *)
Lemma three_quarters_int32 :
  s32_of_float (F32.of_bits 0x3F400000) = 0x60000000.
Proof. vm_compute. reflexivity. Qed.

(** *** The 32-bit path in exact arithmetic

    Rounding [m * 2^e] does not depend on how the value is split between the
    significand and the exponent. *)
Lemma round_half_even_scale m e k :
  0 <= k -> round_half_even (m * 2 ^ k) (e - k) = round_half_even m e.
Proof.
  intros Hk. unfold round_half_even.
  destruct (Z.leb_spec 0 e) as [He|He]; destruct (Z.leb_spec 0 (e - k)) as [Hek|Hek].
  - rewrite <- Z.mul_assoc, <- Z.pow_add_r by lia. f_equal. f_equal. lia.
  - replace (- (e - k)) with (k - e) by lia.
    replace (2 ^ k) with (2 ^ e * 2 ^ (k - e))
      by (rewrite <- Z.pow_add_r by lia; f_equal; lia).
    rewrite Z.mul_assoc.
    assert (Hp : 0 < 2 ^ (k - e)) by (apply Z.pow_pos_nonneg; lia).
    rewrite Z.div_mul, Z.mod_mul by lia.
    replace (2 * 0 ?= 2 ^ (k - e)) with Lt by (symmetry; apply Z.compare_lt_iff; lia).
    reflexivity.
  - lia.
  - replace (- (e - k)) with (- e + k) by lia.
    rewrite Z.pow_add_r by lia.
    assert (Hd : 0 < 2 ^ (- e)) by (apply Z.pow_pos_nonneg; lia).
    assert (Hp : 0 < 2 ^ k) by (apply Z.pow_pos_nonneg; lia).
    rewrite Z.div_mul_cancel_r by lia.
    rewrite Z.mul_mod_distr_r by lia.
    rewrite Z.mul_assoc.
    rewrite <- Zmult_compare_compat_r by lia. reflexivity.
Qed.

(** A binary32 significand has at most 24 digits. *)
Lemma valid_binary32_digits m e s :
  valid_binary F32.prec F32.emax (S754_finite s m e) = true ->
  1 <= Zpos (digits2_pos m) <= 24 /\ -149 <= e.
Proof.
  unfold valid_binary, bounded, canonical_mantissa, fexp, emin, F32.prec, F32.emax.
  intros H. apply andb_true_iff in H. destruct H as [H1 H2].
  apply Z.eqb_eq in H1. apply Z.leb_le in H2. lia.
Qed.

Lemma mul_2p23 m :
  (m * 8388608)%positive = m~0~0~0~0~0~0~0~0~0~0~0~0~0~0~0~0~0~0~0~0~0~0~0%positive.
Proof. rewrite Pos.mul_comm. reflexivity. Qed.

(** The [float] product by [(float)0x7FFFFFFF] only adds 31 to the exponent:
    the significand is kept and normalised, never rounded. *)
Lemma mul_scaling32 s m e :
  valid_binary F32.prec F32.emax (S754_finite s m e) = true ->
  Zpos (digits2_pos m) + e <= 97 ->
  exists m1 e1 k,
    F32.mul (S754_finite s m e) (F32.of_Z SAMPLE_32BIT_SCALING) = S754_finite s m1 e1 /\
    0 <= k /\ Zpos m1 = Zpos m * 2 ^ k /\ e1 = e + 31 - k.
Proof.
  intros Hv Hd. destruct (valid_binary32_digits m e s Hv) as [Hdig He].
  change (F32.of_Z SAMPLE_32BIT_SCALING) with (S754_finite false 8388608 8).
  unfold F32.mul, SFmul. rewrite xorb_false_r, mul_2p23.
  unfold binary_round_aux, shr_fexp, fexp, emin, F32.prec, F32.emax.
  cbn [Zdigits2 digits2_pos shr_record_of_loc].
  remember (digits2_pos m) as D eqn:HD. symmetry in HD.
  assert (Hcases : In D [1;2;3;4;5;6;7;8;9;10;11;12;13;14;15;16;17;18;19;20;21;22;23;24]%positive).
  { cbn [In]. lia. }
  cbn [In] in Hcases.
  repeat (destruct Hcases as [Hc|Hcases];
          [rewrite <- Hc in *; clear Hc; cbn [Pos.succ];
           rewrite Z.max_l by lia
          |]); try contradiction.
  all: match goal with
       | |- context [shr _ ?x (?a + ?x - 24 - ?x)] =>
           let n := eval cbv in (a - 24) in
           replace (a + x - 24 - x) with n by lia
       end.
  all: cbn [shr iter_pos shr_1 shr_m shr_r shr_s loc_of_shr_record round_nearest_even
              Zdigits2 digits2_pos orb].
  all: rewrite HD; cbn [Pos.succ].
  all: rewrite Z.max_l by lia.
  all: match goal with
       | |- context [shr _ ?e1 (24 + ?e1 - 24 - ?e1)] =>
           replace (24 + e1 - 24 - e1) with 0 by lia
       end.
  all: cbn [shr shr_m].
  all: match goal with
       | |- context [?x <=? 128 - 24] =>
           replace (x <=? 128 - 24) with true by (symmetry; apply Z.leb_le; lia)
       end.
  all: match goal with
       | HD : digits2_pos ?m0 = ?d |- _ =>
           let k := eval cbv in (24 - Zpos d) in
           eexists _, _, k; (split; [reflexivity|]);
           split; [lia|]; split; [|lia];
           transitivity (Z.shiftl (Zpos m0) k);
           [reflexivity | apply Z.shiftl_mul_pow2; lia]
       end.
Qed.

Lemma digits2_pos_size p : digits2_pos p = Pos.size p.
Proof. induction p as [p IH|p IH|]; cbn; now rewrite ?IH. Qed.

Lemma digits2_pos_bounds p :
  2 ^ (Zpos (digits2_pos p) - 1) <= Zpos p < 2 ^ Zpos (digits2_pos p).
Proof.
  rewrite digits2_pos_size. split.
  - pose proof (Pos.size_le p) as H.
    apply Pos2Z.pos_le_pos in H. rewrite Pos2Z.inj_pow in H.
    rewrite (Pos2Z.inj_xO p) in H.
    replace (Z.pos (Pos.size p)) with (Z.pos (Pos.size p) - 1 + 1) in H by lia.
    rewrite Z.pow_add_r in H by lia. change (2 ^ 1) with 2 in H. lia.
  - pose proof (Pos.size_gt p) as H.
    apply Pos2Z.pos_lt_pos in H. now rewrite Pos2Z.inj_pow in H.
Qed.

(** A finite float strictly between -1.0 and 1.0 has an exponent below -23. *)
Lemma inside_unit_exponent s m e :
  valid_binary F32.prec F32.emax (S754_finite s m e) = true ->
  F32.leb (S754_finite s m e) NORMALIZED_FLOAT_MIN = false ->
  F32.leb NORMALIZED_FLOAT_MAX (S754_finite s m e) = false ->
  e <= -24.
Proof.
  intros Hv Hmin Hmax.
  destruct (valid_binary32_digits m e s Hv) as [Hdig He].
  assert (Hcanon : e = -23 -> 2 ^ 23 <= Zpos m).
  { intros ->. revert Hv.
    unfold valid_binary, bounded, canonical_mantissa, fexp, emin, F32.prec, F32.emax.
    intros H. apply andb_true_iff in H. destruct H as [H1 _]. apply Z.eqb_eq in H1.
    assert (Zpos (digits2_pos m) = 24) by lia.
    pose proof (digits2_pos_bounds m) as Hb. rewrite H in Hb.
    change (24 - 1) with 23 in Hb. lia. }
  unfold F32.leb, SFleb, SFcompare, NORMALIZED_FLOAT_MIN, NORMALIZED_FLOAT_MAX,
    F32.minus_one, F32.one in *.
  destruct s.
  - (* negative *)
    destruct (Z.compare_spec e (-23)) as [E|E|E]; try lia; try discriminate.
    specialize (Hcanon E).
    rewrite Pos.compare_cont_spec in Hmin. cbn [Pos.switch_Eq] in Hmin.
    destruct (Pos.compare_spec m (2 ^ 23)) as [E'|E'|E']; try discriminate.
    apply Pos2Z.pos_lt_pos in E'. change (Zpos (2 ^ 23)) with (2 ^ 23) in E'. lia.
  - (* positive *)
    destruct (Z.compare_spec (-23) e) as [E|E|E]; try lia; try discriminate.
    specialize (Hcanon (eq_sym E)).
    rewrite Pos.compare_cont_spec in Hmax. cbn [Pos.switch_Eq] in Hmax.
    destruct (Pos.compare_spec (2 ^ 23) m) as [E'|E'|E']; try discriminate.
    apply Pos2Z.pos_lt_pos in E'. change (Zpos (2 ^ 23)) with (2 ^ 23) in E'. lia.
Qed.

(** The rounded product of a float inside (-1, 1) fits an [int32_t]. *)
Lemma round_half_even_bound m e :
  0 < m < 2 ^ 24 -> e <= 7 -> 0 <= round_half_even m e < 2 ^ 31.
Proof.
  intros Hm He. unfold round_half_even.
  destruct (Z.leb_spec 0 e) as [H|H].
  - assert (2 ^ e <= 2 ^ 7) by (apply Z.pow_le_mono_r; lia).
    assert (0 < 2 ^ e) by (apply Z.pow_pos_nonneg; lia).
    change (2 ^ 7) with 128 in *. change (2 ^ 24) with 16777216 in *.
    change (2 ^ 31) with 2147483648. nia.
  - assert (Hd : 2 ^ 1 <= 2 ^ (- e)) by (apply Z.pow_le_mono_r; lia).
    change (2 ^ 1) with 2 in Hd.
    assert (Hq : 0 <= m / 2 ^ (- e) <= m).
    { split; [apply Z.div_pos; lia|]. apply Z.div_le_upper_bound; nia. }
    change (2 ^ 24) with 16777216 in *. change (2 ^ 31) with 2147483648.
    destruct (2 * (m mod 2 ^ (- e)) ?= 2 ^ (- e)); [destruct (Z.even _)| |]; lia.
Qed.

Lemma s32_small z : - 2 ^ 31 <= z < 2 ^ 31 -> s32 z = z.
Proof.
  intros H. unfold s32. rewrite Z.mod_small by lia. lia.
Qed.

(** On a finite float strictly between -1.0 and 1.0, [m * 2^e] up to sign,
    the 32-bit conversion yields [m * 2^(e + 31)] rounded to the nearest
    integer, ties to even: the float product by [(float)0x7FFFFFFF = 2^31] is
    exact. *)
Lemma s32_of_float_exact s m e :
  valid_binary F32.prec F32.emax (S754_finite s m e) = true ->
  F32.leb (S754_finite s m e) NORMALIZED_FLOAT_MIN = false ->
  F32.leb NORMALIZED_FLOAT_MAX (S754_finite s m e) = false ->
  s32_of_float (S754_finite s m e)
  = if s then - round_half_even (Zpos m) (e + 31) else round_half_even (Zpos m) (e + 31).
Proof.
  intros Hv Hmin Hmax.
  pose proof (inside_unit_exponent s m e Hv Hmin Hmax) as He.
  destruct (valid_binary32_digits m e s Hv) as [Hdig _].
  destruct (mul_scaling32 s m e Hv ltac:(lia)) as (m1 & e1 & k & Hmul & Hk & Hm1 & He1).
  unfold s32_of_float. rewrite Hmin, Hmax, Hmul. unfold lrintf.
  rewrite Hm1, He1, round_half_even_scale by exact Hk.
  pose proof (digits2_pos_bounds m) as Hb.
  assert (Hm : 0 < Zpos m < 2 ^ 24).
  { split; [lia|]. apply Z.lt_le_trans with (2 ^ Zpos (digits2_pos m)); [apply Hb|].
    apply Z.pow_le_mono_r; lia. }
  pose proof (round_half_even_bound (Zpos m) (e + 31) Hm ltac:(lia)) as Hr.
  set (r := round_half_even (Zpos m) (e + 31)) in *.
  unfold LONG_MIN, LONG_MAX.
  assert (H63 : 2 ^ 31 < 2 ^ 63) by (apply Z.pow_lt_mono_r; lia).
  destruct s.
  - replace ((- 2 ^ 63 <=? - r) && (- r <=? 2 ^ 63 - 1)) with true
      by (symmetry; apply andb_true_iff; split; apply Z.leb_le; lia).
    apply s32_small. lia.
  - replace ((- 2 ^ 63 <=? r) && (r <=? 2 ^ 63 - 1)) with true
      by (symmetry; apply andb_true_iff; split; apply Z.leb_le; lia).
    apply s32_small. lia.
Qed.

Lemma digits2_pos_unique p d :
  2 ^ (d - 1) <= Zpos p < 2 ^ d -> 0 < d -> Zpos (digits2_pos p) = d.
Proof.
  intros H Hd. pose proof (digits2_pos_bounds p) as Hb.
  destruct (Z.lt_trichotomy (Zpos (digits2_pos p)) d) as [L|[E|G]]; [|exact E|].
  - assert (2 ^ Zpos (digits2_pos p) <= 2 ^ (d - 1)) by (apply Z.pow_le_mono_r; lia). lia.
  - assert (2 ^ d <= 2 ^ (Zpos (digits2_pos p) - 1)) by (apply Z.pow_le_mono_r; lia). lia.
Qed.

(** Every bit pattern denotes a float of the binary32 format. *)
Lemma of_bits_valid b : valid_binary F32.prec F32.emax (F32.of_bits b) = true.
Proof.
  unfold F32.of_bits.
  assert (HM : 0 <= Z.land b (2 ^ 23 - 1) < 2 ^ 23).
  { change (2 ^ 23 - 1) with (Z.ones 23). rewrite Z.land_ones by lia.
    apply Z.mod_pos_bound. reflexivity. }
  assert (HE : 0 <= Z.land (Z.shiftr b 23) 255 < 2 ^ 8).
  { change 255 with (Z.ones 8). rewrite Z.land_ones by lia.
    apply Z.mod_pos_bound. reflexivity. }
  set (M := Z.land b (2 ^ 23 - 1)) in *. set (E := Z.land (Z.shiftr b 23) 255) in *.
  destruct (Z.eqb_spec E 0) as [E0|E0].
  - destruct M as [|p|p] eqn:HMp; try reflexivity.
    unfold valid_binary, bounded, canonical_mantissa, fexp, emin, F32.prec, F32.emax.
    pose proof (digits2_pos_bounds p) as Hb.
    assert (Zpos (digits2_pos p) <= 23).
    { destruct (Z.le_gt_cases (Zpos (digits2_pos p)) 23) as [L|G]; [exact L|].
      assert (2 ^ 23 <= 2 ^ (Zpos (digits2_pos p) - 1)) by (apply Z.pow_le_mono_r; lia).
      lia. }
    apply andb_true_iff. split; [apply Z.eqb_eq | apply Z.leb_le]; lia.
  - destruct (Z.eqb_spec E 255) as [E255|E255].
    + destruct (M =? 0); reflexivity.
    + destruct (M + 2 ^ 23) as [|p|p] eqn:HMp; try reflexivity.
      unfold valid_binary, bounded, canonical_mantissa, fexp, emin, F32.prec, F32.emax.
      assert (Hd : Zpos (digits2_pos p) = 24).
      { apply digits2_pos_unique; [|lia]. change (24 - 1) with 23.
        change (2 ^ 24) with (2 ^ 23 + 2 ^ 23). lia. }
      rewrite Hd. change (2 ^ 8) with 256 in HE.
      apply andb_true_iff. split; [apply Z.eqb_eq | apply Z.leb_le]; lia.
Qed.

(** In a block, the [int32_t] stored for a finite sample strictly inside
    (-1.0, 1.0) is the sample times 2^31 rounded to the nearest integer, ties
    to even. *)
Lemma sample_move_d32_sS_exact (dst src : samples) (d s : Z) (nsamples : nat) (i : Z)
    (sg : bool) (m : positive) (e : Z) :
  0 <= i < Z.of_nat nsamples ->
  F32.of_bits (src (s + i)) = S754_finite sg m e ->
  F32.leb (S754_finite sg m e) NORMALIZED_FLOAT_MIN = false ->
  F32.leb NORMALIZED_FLOAT_MAX (S754_finite sg m e) = false ->
  s32 (sample_move_d32_sS dst d src s nsamples (d + i))
  = if sg then - round_half_even (Zpos m) (e + 31) else round_half_even (Zpos m) (e + 31).
Proof.
  intros Hi Hx Hmin Hmax.
  rewrite sample_move_d32_sS_pointwise.
  replace ((d <=? d + i) && (d + i <? d + Z.of_nat nsamples)) with true
    by (symmetry; apply andb_true_iff; split; [apply Z.leb_le | apply Z.ltb_lt]; lia).
  replace (s + (d + i - d)) with (s + i) by lia.
  unfold d32_sample. rewrite s32_u32, Hx.
  assert (Hv : valid_binary F32.prec F32.emax (S754_finite sg m e) = true)
    by (rewrite <- Hx; apply of_bits_valid).
  rewrite (s32_of_float_exact sg m e Hv Hmin Hmax).
  destruct sg; apply s32_small.
  all: pose proof (inside_unit_exponent _ m e Hv Hmin Hmax) as He.
  all: destruct (valid_binary32_digits m e _ Hv) as [Hdig _].
  all: pose proof (digits2_pos_bounds m) as Hb.
  all: assert (Hm : 0 < Zpos m < 2 ^ 24)
    by (split; [lia|]; apply Z.lt_le_trans with (2 ^ Zpos (digits2_pos m));
        [apply Hb | apply Z.pow_le_mono_r; lia]).
  all: pose proof (round_half_even_bound (Zpos m) (e + 31) Hm ltac:(lia)); lia.
Qed.

(** The real product [0.75 * 0x7FFFFFFF] is 1610612735.25; the [float] product
    of the conversion is [0.75 * 2^31]: the two round to neighbouring
    integers. *)
Lemma three_quarters_products :
  round_half_even (3 * SAMPLE_32BIT_SCALING) (-2) = 0x5FFFFFFF /\
  round_half_even (3 * 2 ^ 31) (-2) = 0x60000000.
Proof. split; reflexivity. Qed.

(** *** The 16-bit path in exact arithmetic

    The product by [(float)0x7FFF] is not exact: [SFmul] rounds it to 24
    bits.  The bits that [shr] shifts out are followed step by step. *)
(** Shifting a significand right: [shr_1] halves it. *)
Lemma shr_1_m rec : 0 <= shr_m rec -> shr_m (shr_1 rec) = shr_m rec / 2.
Proof.
  destruct rec as [m r s]. cbn [shr_m]. intros H.
  destruct m as [|p|p]; [reflexivity| |lia].
  destruct p as [p|p|]; cbn [shr_1 shr_m].
  - rewrite (Pos2Z.inj_xI p). apply Z.div_unique with 1; lia.
  - rewrite (Pos2Z.inj_xO p). apply Z.div_unique with 0; lia.
  - reflexivity.
Qed.

Lemma shr_1_r rec : 0 <= shr_m rec -> shr_r (shr_1 rec) = Z.odd (shr_m rec).
Proof.
  destruct rec as [m r s]. cbn [shr_m]. intros H.
  destruct m as [|p|p]; [reflexivity| |lia]. destruct p; reflexivity.
Qed.

Lemma shr_1_s rec : shr_s (shr_1 rec) = shr_r rec || shr_s rec.
Proof. destruct rec as [m r s]. destruct m as [|p|p]; try destruct p; reflexivity. Qed.

Lemma shifted_step X k rec :
  0 <= X -> 0 <= k -> shifted X k rec -> shifted X (k + 1) (shr_1 rec).
Proof.
  intros HX Hk (Hm & Hr & Hs).
  assert (Hp : 0 < 2 ^ k) by (apply Z.pow_pos_nonneg; lia).
  assert (Hm0 : 0 <= shr_m rec) by (rewrite Hm; apply Z.div_pos; lia).
  unfold shifted. rewrite shr_1_m, shr_1_r, shr_1_s by exact Hm0.
  rewrite Hm, Hr, Hs.
  replace (0 <? k + 1) with true by (symmetry; apply Z.ltb_lt; lia).
  replace (k + 1 - 1) with k by lia. cbn [andb].
  split; [|split; [reflexivity|]].
  - rewrite Z.div_div by lia. rewrite Z.pow_add_r by lia. reflexivity.
  - destruct (Z.ltb_spec 0 k) as [Hk1|Hk0]; cbn [andb].
    + assert (Hq : 0 < 2 ^ (k - 1)) by (apply Z.pow_pos_nonneg; lia).
      assert (E : X mod 2 ^ k
                  = X mod 2 ^ (k - 1) + 2 ^ (k - 1) * ((X / 2 ^ (k - 1)) mod 2)).
      { replace (2 ^ k) with (2 ^ (k - 1) * 2)
          by (replace k with (k - 1 + 1) at 2 by lia; rewrite Z.pow_add_r by lia; reflexivity).
        apply Z.rem_mul_r; lia. }
      rewrite E.
      pose proof (Z.mod_pos_bound X (2 ^ (k - 1)) Hq) as Hlow.
      rewrite <- Z.bit0_mod, Z.bit0_odd.
      destruct (Z.odd (X / 2 ^ (k - 1))); cbn [Z.b2z orb].
      * destruct (Z.eqb_spec (X mod 2 ^ (k - 1) + 2 ^ (k - 1) * 1) 0); [lia|].
        reflexivity.
      * rewrite Z.mul_0_r, Z.add_0_r. reflexivity.
    + assert (k = 0) by lia. subst k. rewrite Z.mod_1_r. reflexivity.
Qed.

Lemma shifted_iter X n : forall k rec,
  0 <= X -> 0 <= k -> shifted X k rec -> shifted X (k + Zpos n) (iter_pos shr_1 n rec).
Proof.
  induction n as [n IH|n IH|]; intros k rec HX Hk H; cbn [iter_pos].
  - replace (k + Zpos n~1) with (k + 1 + Zpos n + Zpos n) by lia.
    apply IH; [exact HX | lia|]. apply IH; [exact HX | lia|].
    apply shifted_step; assumption.
  - replace (k + Zpos n~0) with (k + Zpos n + Zpos n) by lia.
    apply IH; [exact HX | lia|]. apply IH; assumption.
  - apply shifted_step; assumption.
Qed.

Lemma shifted_start X : 0 <= X -> shifted X 0 {| shr_m := X; shr_r := false; shr_s := false |}.
Proof.
  intros HX. unfold shifted. cbn. rewrite Z.div_1_r. repeat split.
Qed.

(** The rounding that [binary_round_aux] takes from the bits shifted out is
    rounding to nearest, ties to even. *)
Lemma shifted_round X k rec :
  0 <= X -> 0 < k -> shifted X k rec ->
  round_nearest_even (shr_m rec) (loc_of_shr_record rec) = round_half_even X (- k).
Proof.
  intros HX Hk (Hm & Hr & Hs).
  assert (Hq : 0 < 2 ^ (k - 1)) by (apply Z.pow_pos_nonneg; lia).
  assert (E2 : 2 ^ k = 2 ^ (k - 1) * 2).
  { replace k with (k - 1 + 1) at 1 by lia. rewrite Z.pow_add_r by lia. reflexivity. }
  assert (E : X mod 2 ^ k
              = X mod 2 ^ (k - 1) + 2 ^ (k - 1) * ((X / 2 ^ (k - 1)) mod 2)).
  { rewrite E2. apply Z.rem_mul_r; lia. }
  pose proof (Z.mod_pos_bound X (2 ^ (k - 1)) Hq) as Hlow.
  rewrite <- Z.bit0_mod, Z.bit0_odd in E.
  replace (0 <? k) with true in Hr, Hs by (symmetry; apply Z.ltb_lt; lia).
  cbn [andb] in Hr, Hs.
  unfold round_half_even.
  replace (0 <=? - k) with false by (symmetry; apply Z.leb_gt; lia).
  rewrite Z.opp_involutive, E, <- Hm.
  destruct rec as [m r s]. cbn [shr_m shr_r shr_s] in *. subst r s.
  destruct (Z.odd (X / 2 ^ (k - 1))); cbn [Z.b2z loc_of_shr_record].
  - destruct (Z.eqb_spec (X mod 2 ^ (k - 1)) 0) as [Z0|N0]; cbn [negb round_nearest_even].
    + replace (2 * (X mod 2 ^ (k - 1) + 2 ^ (k - 1) * 1) ?= 2 ^ k) with Eq
        by (symmetry; apply Z.compare_eq_iff; lia).
      reflexivity.
    + replace (2 * (X mod 2 ^ (k - 1) + 2 ^ (k - 1) * 1) ?= 2 ^ k) with Gt
        by (symmetry; apply Z.compare_gt_iff; lia).
      reflexivity.
  - replace (2 * (X mod 2 ^ (k - 1) + 2 ^ (k - 1) * 0) ?= 2 ^ k) with Lt
      by (symmetry; apply Z.compare_lt_iff; lia).
    destruct (negb (X mod 2 ^ (k - 1) =? 0)); reflexivity.
Qed.

Lemma digits2_pos_log2 p : Zpos (digits2_pos p) = Z.log2 (Zpos p) + 1.
Proof.
  pose proof (digits2_pos_bounds p) as Hb.
  rewrite (Z.log2_unique (Zpos p) (Zpos (digits2_pos p) - 1)); [lia | lia|].
  replace (Z.succ (Zpos (digits2_pos p) - 1)) with (Zpos (digits2_pos p)) by lia. exact Hb.
Qed.

Lemma round_half_even_cases X n :
  0 < n -> round_half_even X (- n) = X / 2 ^ n \/ round_half_even X (- n) = X / 2 ^ n + 1.
Proof.
  intros Hn. unfold round_half_even.
  replace (0 <=? - n) with false by (symmetry; apply Z.leb_gt; lia).
  rewrite Z.opp_involutive.
  destruct (2 * (X mod 2 ^ n) ?= 2 ^ n); [destruct (Z.even _)| |]; auto.
Qed.

Lemma round_half_even_nonneg m e : 0 <= m -> 0 <= round_half_even m e.
Proof.
  intros Hm. unfold round_half_even. destruct (0 <=? e) eqn:He.
  - apply Z.leb_le in He. apply Z.mul_nonneg_nonneg; [exact Hm|]. apply Z.pow_nonneg. lia.
  - apply Z.leb_gt in He.
    assert (0 < 2 ^ (- e)) by (apply Z.pow_pos_nonneg; lia).
    assert (0 <= m / 2 ^ (- e)) by (apply Z.div_pos; lia).
    destruct (2 * (m mod 2 ^ (- e)) ?= 2 ^ (- e)); [destruct (Z.even _)| |]; lia.
Qed.

Lemma round_half_even_0 e : round_half_even 0 e = 0.
Proof.
  unfold round_half_even. destruct (0 <=? e) eqn:He; [reflexivity|].
  apply Z.leb_gt in He.
  assert (0 < 2 ^ (- e)) by (apply Z.pow_pos_nonneg; lia).
  rewrite Zmod_0_l, Zdiv_0_l.
  replace (2 * 0 ?= 2 ^ (- e)) with Lt by (symmetry; apply Z.compare_lt_iff; lia).
  reflexivity.
Qed.

(** The first step of [binary_round_aux] rounds the significand as
    [round_to_float] says. *)
Lemma shr_fexp_round M E :
  let '(rec, e1) := shr_fexp F32.prec F32.emax (Zpos M) E loc_Exact in
  (round_nearest_even (shr_m rec) (loc_of_shr_record rec), e1)
  = round_to_float (Zpos M) E.
Proof.
  unfold shr_fexp, fexp, emin, F32.prec, F32.emax, round_to_float.
  cbn [Zdigits2 shr_record_of_loc]. rewrite digits2_pos_log2.
  change (3 - 128 - 24) with (-149).
  cbv zeta.
  destruct (Z.max (Z.log2 (Zpos M) + 1 + E - 24) (-149) - E) as [|n|n] eqn:En;
    cbn [shr Z.ltb Z.compare]; try reflexivity.
  f_equal.
  apply (shifted_round (Zpos M) (Zpos n)); [lia | lia|].
  apply (shifted_iter (Zpos M) n 0); [lia | lia|].
  apply shifted_start. lia.
Qed.

Lemma round_to_float_range M E :
  let '(q, e1) := round_to_float (Zpos M) E in
  0 <= q <= 2 ^ 24 /\ -149 <= e1 /\ Z.log2 (Zpos M) + 1 + E - 24 <= e1.
Proof.
  unfold round_to_float.
  pose proof (digits2_pos_bounds M) as Hb. rewrite digits2_pos_log2 in Hb.
  set (d := Z.log2 (Zpos M) + 1) in *.
  replace (Z.log2 (Zpos M) + 1 + E - 24) with (d + E - 24) by (unfold d; lia).
  assert (Hd : 1 <= d) by (unfold d; pose proof (Z.log2_nonneg (Zpos M)); lia).
  set (n := Z.max (d + E - 24) (-149) - E).
  destruct (Z.ltb_spec 0 n) as [Hn|Hn].
  - split; [|lia].
    assert (H2n : 0 < 2 ^ n) by (apply Z.pow_pos_nonneg; lia).
    assert (Hq : 0 <= Zpos M / 2 ^ n < 2 ^ 24).
    { split; [apply Z.div_pos; lia|]. apply Z.div_lt_upper_bound; [lia|].
      rewrite <- Z.pow_add_r by lia.
      apply Z.lt_le_trans with (2 ^ d); [lia|]. apply Z.pow_le_mono_r; lia. }
    destruct (round_half_even_cases (Zpos M) n Hn) as [-> | ->]; lia.
  - split; [|lia]. split; [lia|].
    apply Z.lt_le_incl. apply Z.lt_le_trans with (2 ^ d); [lia|].
    apply Z.pow_le_mono_r; lia.
Qed.

(** [lrintf] of a float product: the exact value [M * 2^E] rounded to a
    float and then to an integer. *)
Lemma lrintf_binary_round_aux s M E :
  let '(q, e1) := round_to_float (Zpos M) E in
  e1 + 1 <= 104 -> round_half_even q e1 < 2 ^ 63 ->
  lrintf (binary_round_aux F32.prec F32.emax s (Zpos M) E loc_Exact)
  = if s then - round_half_even q e1 else round_half_even q e1.
Proof.
  pose proof (shr_fexp_round M E) as H1. pose proof (round_to_float_range M E) as H2.
  unfold binary_round_aux.
  destruct (shr_fexp F32.prec F32.emax (Zpos M) E loc_Exact) as [rec e0].
  destruct (round_to_float (Zpos M) E) as [q e1].
  injection H1 as Hq He. rewrite Hq, He. clear Hq He rec e0.
  destruct H2 as (Hq & He1 & _). intros Hmax Hlong.
  pose proof (round_half_even_nonneg q e1 (proj1 Hq)) as Hnn.
  assert (Hfin : forall m e, Zpos m = q \/ (Zpos m * 2 = q /\ e = e1 + 1) -> e = e1 \/ e = e1 + 1 ->
            (Zpos m = q -> e = e1) ->
            lrintf (S754_finite s m e)
            = if s then - round_half_even q e1 else round_half_even q e1).
  { intros m e Hm He Hme. unfold lrintf.
    assert (Hr : round_half_even (Zpos m) e = round_half_even q e1).
    { destruct Hm as [Hm|[Hm Hee]].
      - rewrite Hm, (Hme Hm). reflexivity.
      - rewrite <- Hm, Hee.
        rewrite <- (round_half_even_scale (Zpos m) (e1 + 1) 1) by lia.
        change (2 ^ 1) with 2. replace (e1 + 1 - 1) with e1 by lia. reflexivity. }
    rewrite Hr. unfold LONG_MIN, LONG_MAX.
    destruct s.
    - replace ((- 2 ^ 63 <=? - round_half_even q e1) && (- round_half_even q e1 <=? 2 ^ 63 - 1))
        with true by (symmetry; apply andb_true_iff; split; apply Z.leb_le; lia).
      reflexivity.
    - replace ((- 2 ^ 63 <=? round_half_even q e1) && (round_half_even q e1 <=? 2 ^ 63 - 1))
        with true by (symmetry; apply andb_true_iff; split; apply Z.leb_le; lia).
      reflexivity. }
  unfold shr_fexp, fexp, emin, F32.prec, F32.emax. cbn [shr_record_of_loc].
  change (3 - 128 - 24) with (-149).
  destruct q as [|q|q]; [| |lia].
  - (* the product underflows to zero *)
    cbn [Zdigits2]. replace (Z.max (0 + e1 - 24) (-149) - e1) with (Z.max (e1 - 24) (-149) - e1) by lia.
    rewrite round_half_even_0.
    destruct (Z.max (e1 - 24) (-149) - e1) as [|n|n] eqn:En; try lia.
    all: cbn [shr shr_m]; destruct s; reflexivity.
  - cbn [Zdigits2].
    pose proof (digits2_pos_bounds q) as Hb.
    destruct (Z.eq_dec (Zpos q) (2 ^ 24)) as [Hc|Hc].
    + (* the rounding carries into the 25th bit *)
      injection Hc as ->. change (Zpos (digits2_pos 16777216)) with 25.
      replace (Z.max (25 + e1 - 24) (-149) - e1) with 1 by lia.
      cbn [shr iter_pos shr_1 shr_m].
      replace (e1 + 1 <=? 128 - 24) with true by (symmetry; apply Z.leb_le; lia).
      apply Hfin; [right; split; reflexivity | right; reflexivity | discriminate].
    + assert (Hd : Zpos (digits2_pos q) <= 24).
      { destruct (Z.le_gt_cases (Zpos (digits2_pos q)) 24) as [L|G]; [exact L|].
        assert (2 ^ 24 <= 2 ^ (Zpos (digits2_pos q) - 1)) by (apply Z.pow_le_mono_r; lia).
        lia. }
      destruct (Z.max (Zpos (digits2_pos q) + e1 - 24) (-149) - e1) as [|n|n] eqn:En; try lia.
      * cbn [shr shr_m].
        replace (e1 <=? 128 - 24) with true by (symmetry; apply Z.leb_le; lia).
        apply Hfin; [left; reflexivity | left; reflexivity | reflexivity].
      * cbn [shr shr_m].
        replace (e1 <=? 128 - 24) with true by (symmetry; apply Z.leb_le; lia).
        apply Hfin; [left; reflexivity | left; reflexivity | reflexivity].
Qed.

(** Rounding to a float and then to an integer does not depend on how the
    value is split between significand and exponent. *)
Lemma float_then_int_scale m e k :
  0 < m -> 0 <= k -> float_then_int (m * 2 ^ k) (e - k) = float_then_int m e.
Proof.
  intros Hm Hk. unfold float_then_int, round_to_float.
  rewrite Z.log2_mul_pow2 by lia.
  replace (Z.max (k + Z.log2 m + 1 + (e - k) - 24) (-149) - (e - k))
    with (Z.max (Z.log2 m + 1 + e - 24) (-149) - e + k) by lia.
  set (n := Z.max (Z.log2 m + 1 + e - 24) (-149) - e).
  destruct (Z.ltb_spec 0 n) as [Hn|Hn].
  - replace (0 <? n + k) with true by (symmetry; apply Z.ltb_lt; lia).
    replace (- (n + k)) with (- n - k) by lia. rewrite round_half_even_scale by exact Hk.
    f_equal. lia.
  - destruct (Z.ltb_spec 0 (n + k)) as [Hnk|Hnk].
    + replace (- (n + k)) with (- n - k) by lia. rewrite round_half_even_scale by exact Hk.
      assert (E : round_half_even m (- n) = m * 2 ^ (- n)).
      { unfold round_half_even.
        replace (0 <=? - n) with true by (symmetry; apply Z.leb_le; lia). reflexivity. }
      rewrite E. replace (e - k + (n + k)) with (e - (- n)) by lia.
      apply round_half_even_scale. lia.
    + apply round_half_even_scale. exact Hk.
Qed.

Lemma round_half_even_le m e k :
  e < 0 -> 0 <= m <= k * 2 ^ (- e) -> round_half_even m e <= k.
Proof.
  intros He Hm. unfold round_half_even.
  replace (0 <=? e) with false by (symmetry; apply Z.leb_gt; lia).
  assert (HD : 0 < 2 ^ (- e)) by (apply Z.pow_pos_nonneg; lia).
  set (D := 2 ^ (- e)) in *.
  pose proof (Z.div_mod m D ltac:(lia)) as Hdm.
  pose proof (Z.mod_pos_bound m D HD) as Hr.
  assert (Hq : m / D <= k).
  { apply Z.div_le_upper_bound; [exact HD | lia]. }
  destruct (Z.eq_dec (m / D) k) as [Eq|Ne].
  - assert (m mod D = 0) by nia.
    replace (2 * (m mod D) ?= D) with Lt by (symmetry; apply Z.compare_lt_iff; lia).
    exact Hq.
  - destruct (2 * (m mod D) ?= D); [destruct (Z.even _)| |]; lia.
Qed.

(** The product of a float inside (-1, 1) by [(float)0x7FFF], rounded to a
    float, is at most 32767. *)
Lemma product16_bound m e :
  e <= -24 -> Zpos m < 2 ^ 24 ->
  let '(q, e1) := round_to_float (Zpos m * 0xFFFE00) (e + -9) in
  e1 <= -9 /\ 0 <= q <= 0x7FFF * 2 ^ (- e1).
Proof.
  intros He Hm.
  assert (Hme : Zpos m < 2 ^ (- e)).
  { apply Z.lt_le_trans with (2 ^ 24); [exact Hm|]. apply Z.pow_le_mono_r; lia. }
  assert (HM : Zpos m * 0xFFFE00 < 0x7FFF * 2 ^ (9 - e)).
  { replace (9 - e) with (9 + - e) by lia. rewrite Z.pow_add_r by lia.
    change 0xFFFE00 with (0x7FFF * 2 ^ 9). nia. }
  pose proof (round_to_float_range (m * 0xFFFE00) (e + -9)) as Hrange.
  unfold round_to_float in *.
  change (Zpos (m * 0xFFFE00)) with (Zpos m * 0xFFFE00) in Hrange.
  set (M := Zpos m * 0xFFFE00) in *.
  assert (Hd : Z.log2 M + 1 <= 24 - e).
  { assert (Z.log2 M < 24 - e); [|lia].
    apply Z.log2_lt_pow2; [unfold M; lia|].
    apply Z.lt_le_trans with (0x7FFF * 2 ^ (9 - e)); [exact HM|].
    replace (24 - e) with (15 + (9 - e)) by lia. rewrite Z.pow_add_r by lia.
    assert (0 < 2 ^ (9 - e)) by (apply Z.pow_pos_nonneg; lia).
    change (2 ^ 15) with 32768. lia. }
  set (n := Z.max (Z.log2 M + 1 + (e + -9) - 24) (-149) - (e + -9)) in *.
  destruct (Z.ltb_spec 0 n) as [Hn|Hn].
  - split; [lia|]. split; [apply round_half_even_nonneg; unfold M; lia|].
    assert (H2n : 0 < 2 ^ n) by (apply Z.pow_pos_nonneg; lia).
    assert (HK : 2 ^ (9 - e) = 2 ^ (- (e + -9 + n)) * 2 ^ n).
    { rewrite <- Z.pow_add_r by lia. f_equal. lia. }
    assert (Hq : M / 2 ^ n < 0x7FFF * 2 ^ (- (e + -9 + n))).
    { apply Z.div_lt_upper_bound; [exact H2n|]. rewrite HK in HM. lia. }
    destruct (round_half_even_cases M n Hn) as [-> | ->]; lia.
  - split; [lia|]. split; [unfold M; lia|].
    replace (- (e + -9)) with (9 - e) by lia. lia.
Qed.

Lemma s16_small z : - 2 ^ 15 <= z < 2 ^ 15 -> s16 z = z.
Proof.
  intros H. unfold s16. rewrite Z.mod_small by lia. lia.
Qed.

(** On a finite float strictly between -1.0 and 1.0, [m * 2^e] up to sign,
    the 16-bit conversion yields [m * 2^e * 0x7FFF] rounded to a float and
    then to an integer, both times to nearest, ties to even. *)
Lemma s16_of_float_exact s m e :
  valid_binary F32.prec F32.emax (S754_finite s m e) = true ->
  F32.leb (S754_finite s m e) NORMALIZED_FLOAT_MIN = false ->
  F32.leb NORMALIZED_FLOAT_MAX (S754_finite s m e) = false ->
  s16_of_float (S754_finite s m e)
  = if s then - float_then_int (Zpos m * 0x7FFF) e
    else float_then_int (Zpos m * 0x7FFF) e.
Proof.
  intros Hv Hmin Hmax.
  pose proof (inside_unit_exponent s m e Hv Hmin Hmax) as He.
  destruct (valid_binary32_digits m e s Hv) as [Hdig _].
  pose proof (digits2_pos_bounds m) as Hb.
  assert (Hm : Zpos m < 2 ^ 24).
  { apply Z.lt_le_trans with (2 ^ Zpos (digits2_pos m)); [apply Hb|].
    apply Z.pow_le_mono_r; lia. }
  unfold s16_of_float. rewrite Hmin, Hmax, scaling16_as_float.
  unfold F32.mul, SFmul. rewrite xorb_false_r.
  pose proof (lrintf_binary_round_aux s (m * 0xFFFE00) (e + -9)) as Hl.
  pose proof (product16_bound m e He Hm) as Hbound.
  replace (float_then_int (Zpos m * 0x7FFF) e)
    with (float_then_int (Zpos (m * 0xFFFE00)) (e + -9)).
  2:{ replace (Zpos (m * 0xFFFE00)) with (Zpos m * 0x7FFF * 2 ^ 9) by lia.
      replace (e + -9) with (e - 9) by lia. apply float_then_int_scale; lia. }
  unfold float_then_int.
  change (Zpos (m * 0xFFFE00)) with (Zpos m * 0xFFFE00) in *.
  destruct (round_to_float (Zpos m * 0xFFFE00) (e + -9)) as [q e1].
  destruct Hbound as [He1 Hq].
  assert (Hr : 0 <= round_half_even q e1 <= 0x7FFF).
  { split; [apply round_half_even_nonneg; lia|]. apply round_half_even_le; [lia | exact Hq]. }
  rewrite Hl; [|lia|].
  2:{ apply Z.le_lt_trans with 0x7FFF; [apply Hr | reflexivity]. }
  destruct s; apply s16_small; change (2 ^ 15) with 32768; lia.
Qed.

(** Rounding to the nearest integer moves a value by at most one half. *)
Lemma round_half_even_near X e :
  e < 0 ->
  - 2 ^ (- e) <= 2 * (round_half_even X e * 2 ^ (- e) - X) <= 2 ^ (- e).
Proof.
  intros He. unfold round_half_even.
  replace (0 <=? e) with false by (symmetry; apply Z.leb_gt; lia).
  assert (HD : 0 < 2 ^ (- e)) by (apply Z.pow_pos_nonneg; lia).
  set (D := 2 ^ (- e)) in *.
  pose proof (Z.div_mod X D ltac:(lia)) as Hdm.
  pose proof (Z.mod_pos_bound X D HD) as Hr.
  destruct (Z.compare_spec (2 * (X mod D)) D) as [E|L|G];
    [destruct (Z.even (X / D))| |]; nia.
Qed.

(** Two values less than one apart round to integers at most one apart. *)
Lemma round_half_even_close A B e :
  e < 0 -> 0 <= A - B < 2 ^ (- e) ->
  0 <= round_half_even A e - round_half_even B e <= 1.
Proof.
  intros He Hab.
  destruct (Z.eq_dec A B) as [->|Hne]; [lia|].
  pose proof (round_half_even_near A e He) as HA.
  pose proof (round_half_even_near B e He) as HB.
  assert (HD : 0 < 2 ^ (- e)) by (apply Z.pow_pos_nonneg; lia).
  set (D := 2 ^ (- e)) in *.
  set (a := round_half_even A e) in *. set (b := round_half_even B e) in *.
  assert (H1 : - 2 * D < 2 * ((a - b) * D) < 4 * D) by nia.
  split; nia.
Qed.

(** The float product by [(float)0x7FFF] is rounded twice, its real value
    once: the two integers are at most one apart. *)
Lemma float_then_int_close m e :
  e <= -24 -> Zpos m < 2 ^ 24 ->
  Z.abs (float_then_int (Zpos m * 0x7FFF) e - round_half_even (Zpos m * 0x7FFF) e) <= 1.
Proof.
  intros He Hm. unfold float_then_int, round_to_float.
  set (M := Zpos m * 0x7FFF).
  assert (HM : 0 < M < 2 ^ 39).
  { unfold M. change (2 ^ 39) with (2 ^ 24 * 2 ^ 15). change (2 ^ 15) with 32768. nia. }
  assert (Hlog : Z.log2 M < 39) by (apply Z.log2_lt_pow2; lia).
  set (n := Z.max (Z.log2 M + 1 + e - 24) (-149) - e).
  destruct (Z.ltb_spec 0 n) as [Hn|Hn]; [|rewrite Z.sub_diag; cbn; lia].
  assert (He1 : e + n <= -9) by (unfold n; lia).
  pose proof (round_half_even_near M (- n) ltac:(lia)) as Hq.
  rewrite Z.opp_involutive in Hq.
  set (q := round_half_even M (- n)) in *.
  pose proof (round_half_even_near q (e + n) ltac:(lia)) as H1.
  pose proof (round_half_even_near M e ltac:(lia)) as H2.
  set (r1 := round_half_even q (e + n)) in *.
  set (r2 := round_half_even M e) in *.
  assert (HD : 2 ^ (- e) = 2 ^ (- (e + n)) * 2 ^ n).
  { rewrite <- Z.pow_add_r by lia. f_equal. lia. }
  assert (HD1 : 2 ^ 9 <= 2 ^ (- (e + n))) by (apply Z.pow_le_mono_r; lia).
  assert (HN : 0 < 2 ^ n) by (apply Z.pow_pos_nonneg; lia).
  change (2 ^ 9) with 512 in HD1.
  set (D1 := 2 ^ (- (e + n))) in *. set (N := 2 ^ n) in *. set (D := 2 ^ (- e)) in *.
  assert (Hid : (r1 - r2) * D = (r1 * D1 - q) * N + (q * N - M) - (r2 * D - M))
    by (rewrite HD; ring).
  assert (Hx : - D <= 2 * ((r1 * D1 - q) * N) <= D) by (rewrite HD; nia).
  assert (HND : N <= D) by (rewrite HD; nia).
  assert (Hb : - 4 * D < 2 * ((r1 - r2) * D) < 4 * D) by lia.
  assert (0 < D) by lia.
  apply Z.abs_le. split; nia.
Qed.

Lemma unclamped_cases x :
  F32.leb x NORMALIZED_FLOAT_MIN = false -> F32.leb NORMALIZED_FLOAT_MAX x = false ->
  match x with S754_infinity _ => False | _ => True end.
Proof. destruct x as [s|s| |s m e]; try destruct s; try exact (fun _ _ => I); discriminate. Qed.

(** C6.  For every sample position [i] of a block of [nsamples] floats, the
    [int32_t] that [sample_move_d32_sS] stores for the float [x] is
    [-0x7FFFFFFF] when [x <= -1.0] and [0x7FFFFFFF] when [x >= 1.0]; the
    [int16_t] that [sample_move_d16_sS] stores is [-0x7FFF] and [0x7FFF].
    Otherwise [x] is a zero, stored as 0, a NaN, handed to [lrintf], or a
    finite [m * 2^e] up to sign, strictly between -1.0 and 1.0.  The product
    is taken in [float]: the 32-bit path stores [x * 2^31] rounded to the
    nearest integer, ties to even, since [(float)0x7FFFFFFF] is 2^31; the
    16-bit path stores [x * 0x7FFF] rounded to a [float] and the float rounded
    to the nearest integer, ties to even.  Either is at most one away from
    the real product [x * 0x7FFFFFFF], or [x * 0x7FFF], rounded to the nearest
    integer. *)
Theorem float_to_int_samples (dst src : samples) (d s : Z) (nsamples : nat) (i : Z) :
  0 <= i < Z.of_nat nsamples ->
  let x := F32.of_bits (src (s + i)) in
  let out32 := s32 (sample_move_d32_sS dst d src s nsamples (d + i)) in
  let out16 := s16 (sample_move_d16_sS dst d src s nsamples (d + i)) in
  (F32.leb x NORMALIZED_FLOAT_MIN = true ->
   out32 = - 0x7FFFFFFF /\ out16 = - 0x7FFF) /\
  (F32.leb NORMALIZED_FLOAT_MAX x = true ->
   out32 = 0x7FFFFFFF /\ out16 = 0x7FFF) /\
  (F32.leb x NORMALIZED_FLOAT_MIN = false -> F32.leb NORMALIZED_FLOAT_MAX x = false ->
   match x with
   | S754_zero _ => out32 = 0 /\ out16 = 0
   | S754_finite sg m e =>
       out32 = (if sg then - round_half_even (Zpos m * 2 ^ 31) e
                else round_half_even (Zpos m * 2 ^ 31) e) /\
       out16 = (if sg then - float_then_int (Zpos m * 0x7FFF) e
                else float_then_int (Zpos m * 0x7FFF) e) /\
       Z.abs (out32 - spec_round_product 0x7FFFFFFF x) <= 1 /\
       Z.abs (out16 - spec_round_product 0x7FFF x) <= 1
   | S754_nan => out32 = s32 (lrintf S754_nan) /\ out16 = s16 (lrintf S754_nan)
   | S754_infinity _ => False
   end).
Proof.
  intros Hi x out32 out16.
  assert (E32 : out32 = s32 (s32_of_float x)).
  { unfold out32. rewrite sample_move_d32_sS_pointwise.
    replace ((d <=? d + i) && (d + i <? d + Z.of_nat nsamples)) with true
      by (symmetry; apply andb_true_iff; split; [apply Z.leb_le | apply Z.ltb_lt]; lia).
    replace (s + (d + i - d)) with (s + i) by lia.
    unfold d32_sample. apply s32_u32. }
  assert (E16 : out16 = s16 (s16_of_float x)).
  { unfold out16. rewrite sample_move_d16_sS_pointwise.
    replace ((d <=? d + i) && (d + i <? d + Z.of_nat nsamples)) with true
      by (symmetry; apply andb_true_iff; split; [apply Z.leb_le | apply Z.ltb_lt]; lia).
    replace (s + (d + i - d)) with (s + i) by lia.
    unfold d16_sample. apply s16_u16. }
  pose proof (of_bits_valid (src (s + i))) as Hv. fold x in Hv.
  clearbody out32 out16 x. subst out32 out16.
  split; [|split].
  - intros Hmin. unfold s32_of_float, s16_of_float. rewrite Hmin. split; reflexivity.
  - intros Hmax. unfold s32_of_float, s16_of_float.
    destruct (F32.leb x NORMALIZED_FLOAT_MIN) eqn:E.
    + apply clamp_exclusive in E. congruence.
    + rewrite Hmax. split; reflexivity.
  - intros Hmin Hmax. pose proof (unclamped_cases x Hmin Hmax) as Hcase.
    destruct x as [sg|sg| |sg m e].
    + unfold s32_of_float, s16_of_float. rewrite Hmin, Hmax.
      destruct sg; split; reflexivity.
    + exact Hcase.
    + unfold s32_of_float, s16_of_float. rewrite Hmin, Hmax.
      split; [apply s32_s32 | apply s16_s16].
    + rewrite (s32_of_float_exact sg m e Hv Hmin Hmax).
      rewrite (s16_of_float_exact sg m e Hv Hmin Hmax).
      pose proof (inside_unit_exponent sg m e Hv Hmin Hmax) as He.
      destruct (valid_binary32_digits m e sg Hv) as [Hdig _].
      pose proof (digits2_pos_bounds m) as Hb.
      assert (Hm : 0 < Zpos m < 2 ^ 24).
      { split; [lia|]. apply Z.lt_le_trans with (2 ^ Zpos (digits2_pos m)); [apply Hb|].
        apply Z.pow_le_mono_r; lia. }
      pose proof (round_half_even_bound (Zpos m) (e + 31) Hm ltac:(lia)) as Hr.
      assert (E32 : round_half_even (Zpos m * 2 ^ 31) e = round_half_even (Zpos m) (e + 31)).
      { replace e with (e + 31 - 31) at 1 by lia. apply round_half_even_scale. lia. }
      rewrite E32.
      pose proof (s16_of_float_exact sg m e Hv Hmin Hmax) as H16.
      assert (R16 : - 2 ^ 15 <= s16_of_float (S754_finite sg m e) < 2 ^ 15).
      { unfold s16_of_float. rewrite Hmin, Hmax. unfold s16.
        pose proof (Z.mod_pos_bound
          (lrintf (F32.mul (S754_finite sg m e) (F32.of_Z SAMPLE_16BIT_SCALING)) + 2 ^ 15)
          (2 ^ 16) ltac:(reflexivity)).
        change (2 ^ 16) with (2 ^ 15 + 2 ^ 15) in *. lia. }
      rewrite H16 in R16.
      assert (O32 : s32 (if sg then - round_half_even (Zpos m) (e + 31)
                         else round_half_even (Zpos m) (e + 31))
                    = if sg then - round_half_even (Zpos m) (e + 31)
                      else round_half_even (Zpos m) (e + 31))
        by (destruct sg; apply s32_small; lia).
      assert (O16 : s16 (if sg then - float_then_int (Zpos m * 0x7FFF) e
                         else float_then_int (Zpos m * 0x7FFF) e)
                    = if sg then - float_then_int (Zpos m * 0x7FFF) e
                      else float_then_int (Zpos m * 0x7FFF) e)
        by (destruct sg; apply s16_small; lia).
      rewrite O32, O16. split; [reflexivity|]. split; [reflexivity|].
      cbn [spec_round_product]. rewrite <- E32.
      pose proof (round_half_even_close (Zpos m * 2 ^ 31) (Zpos m * 0x7FFFFFFF) e
                    ltac:(lia)) as C32.
      assert (Hme : 2 ^ 24 <= 2 ^ (- e)) by (apply Z.pow_le_mono_r; lia).
      specialize (C32 ltac:(change (2 ^ 31) with (0x7FFFFFFF + 1); lia)).
      pose proof (float_then_int_close m e He (proj2 Hm)) as C16.
      split; destruct sg; lia.
Qed.

(** The rounded real products [x * 0x7FFFFFFF] and [x * 0x7FFF] are not what
    is stored: 0.75 is stored as 1610612736 where the real product
    1610612735.25 rounds to 1610612735, and 0.5 + 2^-14 is stored as 16386:
    the real product 16385.49994 becomes 16385.5 in [float], a tie, where it
    rounds to 16385. *)
Lemma float_to_int_not_real_product :
  F32.leb (F32.of_bits (rounding_probes 0)) NORMALIZED_FLOAT_MIN = false /\
  F32.leb NORMALIZED_FLOAT_MAX (F32.of_bits (rounding_probes 0)) = false /\
  s32 (sample_move_d32_sS (fun _ => 0) 0 rounding_probes 0 2 0) = 1610612736 /\
  spec_round_product 0x7FFFFFFF (F32.of_bits (rounding_probes 0)) = 1610612735 /\
  F32.leb (F32.of_bits (rounding_probes 1)) NORMALIZED_FLOAT_MIN = false /\
  F32.leb NORMALIZED_FLOAT_MAX (F32.of_bits (rounding_probes 1)) = false /\
  s16 (sample_move_d16_sS (fun _ => 0) 0 rounding_probes 0 2 1) = 16386 /\
  spec_round_product 0x7FFF (F32.of_bits (rounding_probes 1)) = 16385.
Proof. vm_compute. repeat split; reflexivity. Qed.

(** *** Aggregators out of the constructor and the factory *)

Lemma calculate_silence_prefill_range C S r :
  is_u32 C -> 0 <= S ->
  BC.calculate_silence_prefill C S = Some r -> 0 <= r <= C.
Proof.
  unfold is_u32, BC.calculate_silence_prefill, BC.umod. intros HC HS.
  destruct (Z.gtb_spec S C) as [G|G].
  - destruct (Z.eqb_spec C 0); [discriminate|].
    destruct (S mod C =? 0); intros [= <-]; lia.
  - destruct (Z.ltb_spec S C) as [L|L]; [|intros [= <-]; lia].
    destruct (Z.eqb_spec S 0); [discriminate|].
    destruct (C mod S =? 0); intros [= <-]; [|lia].
    unfold u32. rewrite Z.mod_small; lia.
Qed.

(** The constructor leaves a fresh aggregator without adapters. *)
Lemma create_fresh S a r C conv :
  is_u32 C -> 0 <= S ->
  BC.create S a r C = Some conv ->
  fresh conv /\ BC.dst_frames conv = C /\ BC.InPorts conv = [] /\ BC.OutPorts conv = [].
Proof.
  intros HC HS. unfold BC.create.
  destruct (BC.calculate_silence_prefill C S) as [p|] eqn:E; [|discriminate].
  apply calculate_silence_prefill_range in E; [|assumption..].
  destruct a; [discriminate|]. destruct (negb r); [discriminate|].
  intros [= <-]. unfold fresh. cbn. repeat split; try lia. constructor.
Qed.

Lemma add_fresh conv p flags :
  fresh conv ->
  ((Z.land flags JackPortIsOutput =? 0) = true ->
   in_step_with (BC.dst_frames conv) (BC.silence_prefil conv) 0 p) ->
  fresh (BC.add conv p flags).
Proof.
  intros [Hp Hin] Hnew. unfold BC.add.
  destruct (Z.land flags JackPortIsOutput =? 0); cbn [negb].
  - split; [exact Hp|]. cbn. apply Forall_app. split; [exact Hin|].
    constructor; [apply Hnew; reflexivity | constructor].
  - split; [exact Hp | exact Hin].
Qed.

(** Registering a port with the factory keeps the aggregator fresh and its
    periods unchanged. *)
Lemma jack_port_create_convert_fresh port dst_type ios conv storage un h conv' log :
  fresh conv ->
  jack_port_create_convert port dst_type ios (Some conv) storage un = (h, Some conv', log) ->
  fresh conv' /\ BC.dst_frames conv' = BC.dst_frames conv /\
  BC.silence_prefil conv' = BC.silence_prefil conv.
Proof.
  intros Hf. unfold jack_port_create_convert.
  assert (Hwrap : forall fc,
    (if jack_port_flags port <? 0 then (None, Some conv, [msg_flags])
     else (Some (Frames
             (if negb (Z.land (jack_port_flags port) JackPortIsOutput =? 0)
              then FP.create_out fc (BC.dst_frames conv)
              else FP.create_in fc (BC.dst_frames conv) (BC.silence_prefil conv))),
           Some (BC.add conv
             (if negb (Z.land (jack_port_flags port) JackPortIsOutput =? 0)
              then FP.create_out fc (BC.dst_frames conv)
              else FP.create_in fc (BC.dst_frames conv) (BC.silence_prefil conv))
             (jack_port_flags port)), []))
    = (h, Some conv', log) ->
    fresh conv' /\ BC.dst_frames conv' = BC.dst_frames conv /\
    BC.silence_prefil conv' = BC.silence_prefil conv).
  { intros fc. destruct (jack_port_flags port <? 0).
    - intros [= _ <- _]. auto.
    - intros [= _ <- _]. split.
      + apply add_fresh; [exact Hf|]. intros ->. cbn [negb].
        repeat split.
      + unfold BC.add.
        destruct (negb (Z.land (jack_port_flags port) JackPortIsOutput =? 0));
          split; reflexivity. }
  destruct (dst_type =? JACK_PORT_CONV_FMT_DEFAULT); [apply Hwrap|].
  destruct (dst_type =? JACK_PORT_CONV_FMT_INT32); [apply Hwrap|].
  destruct (dst_type =? JACK_PORT_CONV_FMT_INT16); [apply Hwrap|].
  intros [= _ <- _]. auto.
Qed.

(** ** The [int16_t] format *)

Lemma all_from_spec f n : forall i j,
  all_from f i n = true -> i <= j < i + Z.of_nat n -> f j = true.
Proof.
  induction n as [|n IH]; intros i j H Hj.
  - cbn in Hj. lia.
  - cbn [all_from] in H. apply andb_true_iff in H. destruct H as [H1 H2].
    destruct (Z.eq_dec j i) as [->|Hne]; [exact H1|].
    apply (IH (i + 1)); [exact H2 | lia].
Qed.

Lemma float_of_s16_scaling v :
  float_of_s16 v = F32.mul (F32.of_Z v) inverse_scaling16.
Proof.
  unfold float_of_s16. f_equal.
Qed.

Lemma int16_round_trip_all :
  all_from int16_round_trip_ok 0 (Z.to_nat 65536) = true.
Proof. vm_cast_no_check (eq_refl true). Qed.

Lemma int16_in_range_all :
  all_from int16_in_range_ok (-32767) (Z.to_nat 65535) = true.
Proof. vm_cast_no_check (eq_refl true). Qed.

Lemma s16_mod z : s16 (z mod 2 ^ 16) = s16 z.
Proof. exact (s16_u16 z). Qed.

Lemma int16_sample_round_trip b :
  s16 (d16_sample (dS_s16_sample b)) = if s16 b =? -32768 then -32767 else s16 b.
Proof.
  assert (H : int16_round_trip_ok (u16 b) = true).
  { apply (all_from_spec _ _ 0 (u16 b) int16_round_trip_all).
    unfold u16. pose proof (Z.mod_pos_bound b (2 ^ 16) eq_refl). lia. }
  unfold int16_round_trip_ok, int16_there_and_back in H.
  rewrite s16_u16 in H. apply Z.eqb_eq in H.
  unfold dS_s16_sample. rewrite float_of_s16_scaling. exact H.
Qed.

(** X1.  An [int16_t] sample that [sample_move_dS_s16] converts to the
    server's float and [sample_move_d16_sS] converts back is unchanged, except
    [-32768], which comes back as [-32767]. *)
Theorem int16_round_trip (work dst src : samples) (w d s : Z) (n : nat) (i : Z) :
  0 <= i < Z.of_nat n ->
  let server := sample_move_dS_s16 work w src s n in
  s16 (sample_move_d16_sS dst d server w n (d + i))
  = if s16 (src (s + i)) =? -32768 then -32767 else s16 (src (s + i)).
Proof.
  intros Hi server. subst server.
  rewrite sample_move_d16_sS_pointwise.
  replace ((d <=? d + i) && (d + i <? d + Z.of_nat n)) with true
    by (symmetry; apply andb_true_iff; split; [apply Z.leb_le | apply Z.ltb_lt]; lia).
  rewrite sample_move_dS_s16_pointwise.
  replace (w + (d + i - d)) with (w + i) by lia.
  replace ((w <=? w + i) && (w + i <? w + Z.of_nat n)) with true
    by (symmetry; apply andb_true_iff; split; [apply Z.leb_le | apply Z.ltb_lt]; lia).
  replace (s + (w + i - w)) with (s + i) by lia.
  apply int16_sample_round_trip.
Qed.

Lemma s16_range z : - 2 ^ 15 <= s16 z < 2 ^ 15.
Proof.
  unfold s16. pose proof (Z.mod_pos_bound (z + 2 ^ 15) (2 ^ 16) eq_refl). lia.
Qed.

(** X2.  [sample_move_dS_s16] maps every [int16_t] sample but [-32768] into
    [NORMALIZED_FLOAT_MIN, NORMALIZED_FLOAT_MAX]: [32767] gives exactly [1.0f],
    [-32767] exactly [-1.0f], and [-32768] the float just below [-1.0f]. *)
Theorem int16_to_float_range (dst src : samples) (d s : Z) (n : nat) (i : Z) :
  0 <= i < Z.of_nat n ->
  let v := s16 (src (s + i)) in
  let x := F32.of_bits (sample_move_dS_s16 dst d src s n (d + i)) in
  (v <> -32768 ->
   F32.leb NORMALIZED_FLOAT_MIN x = true /\ F32.leb x NORMALIZED_FLOAT_MAX = true) /\
  (v = 32767 -> x = NORMALIZED_FLOAT_MAX) /\
  (v = -32767 -> x = NORMALIZED_FLOAT_MIN) /\
  (v = -32768 -> x = S754_finite true 8388864 (-23)).
Proof.
  intros Hi v x. subst x.
  rewrite sample_move_dS_s16_pointwise.
  replace ((d <=? d + i) && (d + i <? d + Z.of_nat n)) with true
    by (symmetry; apply andb_true_iff; split; [apply Z.leb_le | apply Z.ltb_lt]; lia).
  replace (s + (d + i - d)) with (s + i) by lia.
  unfold dS_s16_sample. fold v. rewrite float_of_s16_scaling.
  split; [|split; [|split]].
  - intros Hv. pose proof (s16_range (src (s + i))) as Hr. fold v in Hr.
    assert (H : int16_in_range_ok v = true).
    { apply (all_from_spec _ _ (-32767) v int16_in_range_all).
      change (2 ^ 15) with 32768 in Hr.
      change (Z.of_nat (Z.to_nat 65535)) with 65535. lia. }
    unfold int16_in_range_ok in H. apply andb_true_iff in H. exact H.
  - intros ->. reflexivity.
  - intros ->. reflexivity.
  - intros ->. reflexivity.
Qed.

(** ** Symmetry of the [int32_t] conversion *)

Lemma valid_binary_opp x :
  valid_binary F32.prec F32.emax (SFopp x) = valid_binary F32.prec F32.emax x.
Proof. destruct x; reflexivity. Qed.

Lemma leb_opp_min s m e :
  F32.leb NORMALIZED_FLOAT_MAX (S754_finite (negb s) m e)
  = F32.leb (S754_finite s m e) NORMALIZED_FLOAT_MIN.
Proof.
  unfold F32.leb, SFleb, SFcompare, NORMALIZED_FLOAT_MIN, NORMALIZED_FLOAT_MAX,
    F32.minus_one, F32.one.
  destruct s; cbn [negb]; [|reflexivity].
  rewrite (Z.compare_antisym e (-23)).
  destruct (e ?= -23) eqn:E; cbn [CompOpp]; try reflexivity.
  rewrite !Pos.compare_cont_spec. cbn [Pos.switch_Eq].
  rewrite (Pos.compare_antisym (2 ^ 23) m).
  destruct (2 ^ 23 ?= m)%positive; reflexivity.
Qed.

Lemma leb_opp_max s m e :
  F32.leb (S754_finite (negb s) m e) NORMALIZED_FLOAT_MIN
  = F32.leb NORMALIZED_FLOAT_MAX (S754_finite s m e).
Proof.
  rewrite <- (leb_opp_min (negb s)). now rewrite negb_involutive.
Qed.

Lemma s32_of_float_clamped s m e :
  valid_binary F32.prec F32.emax (S754_finite s m e) = true ->
  - 0x7FFFFFFF <= s32_of_float (S754_finite s m e) <= 0x7FFFFFFF /\
  s32_of_float (S754_finite (negb s) m e) = - s32_of_float (S754_finite s m e).
Proof.
  intros Hv.
  destruct (F32.leb (S754_finite s m e) NORMALIZED_FLOAT_MIN) eqn:Hmin.
  - pose proof (clamp_exclusive _ Hmin) as Hmax.
    assert (E : s32_of_float (S754_finite s m e) = - 0x7FFFFFFF)
      by (unfold s32_of_float; rewrite Hmin; reflexivity).
    assert (E' : s32_of_float (S754_finite (negb s) m e) = 0x7FFFFFFF)
      by (unfold s32_of_float; rewrite leb_opp_max, Hmax, leb_opp_min, Hmin; reflexivity).
    rewrite E, E'. lia.
  - destruct (F32.leb NORMALIZED_FLOAT_MAX (S754_finite s m e)) eqn:Hmax.
    + assert (E : s32_of_float (S754_finite s m e) = 0x7FFFFFFF)
        by (unfold s32_of_float; rewrite Hmin, Hmax; reflexivity).
      assert (E' : s32_of_float (S754_finite (negb s) m e) = - 0x7FFFFFFF)
        by (unfold s32_of_float; rewrite leb_opp_max, Hmax; reflexivity).
      rewrite E, E'. lia.
    + rewrite (s32_of_float_exact s m e Hv Hmin Hmax).
      rewrite (s32_of_float_exact (negb s) m e Hv).
      2: rewrite leb_opp_max; exact Hmax.
      2: rewrite leb_opp_min; exact Hmin.
      pose proof (inside_unit_exponent s m e Hv Hmin Hmax) as He.
      destruct (valid_binary32_digits m e s Hv) as [Hdig _].
      pose proof (digits2_pos_bounds m) as Hb.
      assert (Hm : 0 < Zpos m < 2 ^ 24).
      { split; [lia|]. apply Z.lt_le_trans with (2 ^ Zpos (digits2_pos m)); [apply Hb|].
        apply Z.pow_le_mono_r; lia. }
      pose proof (round_half_even_bound (Zpos m) (e + 31) Hm ltac:(lia)) as Hr.
      change (2 ^ 31) with 2147483648 in Hr.
      (* a tighter bound is not needed: the rounded value is below 2^31 *)
      destruct s; cbn [negb]; split; lia.
Qed.

Lemma s32_of_float_range x :
  valid_binary F32.prec F32.emax x = true -> x <> S754_nan ->
  - 0x7FFFFFFF <= s32_of_float x <= 0x7FFFFFFF /\
  s32_of_float (SFopp x) = - s32_of_float x.
Proof.
  intros Hv Hnan. destruct x as [s|s| |s m e].
  - destruct s; split; try reflexivity; vm_compute; split; discriminate.
  - destruct s; split; try reflexivity; vm_compute; split; discriminate.
  - congruence.
  - apply s32_of_float_clamped. exact Hv.
Qed.

(** X3.  [sample_move_d32_sS] never stores [INT32_MIN]: for every sample that
    is not a NaN the [int32_t] lies in [-0x7FFFFFFF, 0x7FFFFFFF], and negating
    the float negates the integer. *)
Theorem float_to_int32_symmetric (dst src src' : samples) (d s : Z) (n : nat) (i : Z) :
  0 <= i < Z.of_nat n ->
  let x := F32.of_bits (src (s + i)) in
  let out := s32 (sample_move_d32_sS dst d src s n (d + i)) in
  let out' := s32 (sample_move_d32_sS dst d src' s n (d + i)) in
  x <> S754_nan ->
  F32.of_bits (src' (s + i)) = SFopp x ->
  - 0x7FFFFFFF <= out <= 0x7FFFFFFF /\ out' = - out.
Proof.
  intros Hi x out out' Hnan Hopp. subst out out'.
  rewrite !sample_move_d32_sS_pointwise.
  replace ((d <=? d + i) && (d + i <? d + Z.of_nat n)) with true
    by (symmetry; apply andb_true_iff; split; [apply Z.leb_le | apply Z.ltb_lt]; lia).
  replace (s + (d + i - d)) with (s + i) by lia.
  unfold d32_sample. rewrite !s32_u32, Hopp. fold x.
  destruct (s32_of_float_range x (of_bits_valid _) Hnan) as [Hr Hs].
  rewrite Hs.
  rewrite !s32_small by (change (2 ^ 31) with 2147483648; lia).
  split; [exact Hr | reflexivity].
Qed.

(** ** The balance of the period adapters *)

Lemma out_step_with_counters C b o cf p p' :
  counters p' = counters p -> out_step_with C b o cf p -> out_step_with C b o cf p'.
Proof.
  unfold counters, out_step_with. intros H. injection H as H1 H2 H3 H4 H5 H6.
  rewrite H1, H2, H3, H5, H6. tauto.
Qed.

Lemma Forall_out_step_with_counters C b o cf ports ports' :
  map counters ports' = map counters ports ->
  Forall (out_step_with C b o cf) ports -> Forall (out_step_with C b o cf) ports'.
Proof.
  revert ports'. induction ports as [|p ports IH]; intros [|p' ports'] H Hall;
    try discriminate; [constructor|].
  assert (H1 : counters p' = counters p) by (cbn [map] in H; congruence).
  assert (H2 : map counters ports' = map counters ports) by (cbn [map] in H; congruence).
  inversion Hall; subst. constructor.
  - now apply (out_step_with_counters C b o cf p p').
  - now apply IH.
Qed.

Lemma update_client_frames_step C b o cf p :
  out_step_with C b o cf p -> out_step_with C b o (u32 (cf + C)) (FP.update_client_frames p).
Proof.
  intros (H1 & H2 & H3 & H4 & H5). unfold FP.update_client_frames. rewrite H1.
  unfold FP.update_client_frames_out, out_step_with.
  cbn [FP.set_client_frames FP.cls FP.dst_frames FP.shadow_frames FP.shadow_offset
         FP.client_frames].
  rewrite H5, H2. tauto.
Qed.

(** [next] on an output adapter that holds at least [S] frames: the frames
    are handed to the server and the rest stays pending. *)
Lemma next_out_step C S b o cf p :
  out_step_with C b o cf p ->
  0 <= S -> 0 <= b -> 0 <= cf -> 0 <= o ->
  b <= Z.max S C -> S <= b + cf -> b + cf < 2 ^ 32 -> o + S < 2 ^ 32 ->
  exists p',
    FP.next p S = (1, p', []) /\
    out_step_with C (b + cf - S) (if b + cf - S <=? S then 0 else o + S) 0 p'.
Proof.
  intros (H1 & H2 & H3 & H4 & H5) HS Hb Hcf Ho Hmax Hge Hsum Hoff.
  unfold FP.next. rewrite H1. unfold FP.next_out. rewrite H2, H3, H5.
  assert (E1 : (b >? (if S >? C then S else C)) = false).
  { destruct (Z.gtb_spec S C); rewrite Z.gtb_ltb; apply Z.ltb_ge; lia. }
  rewrite E1.
  rewrite (u32_small (b + cf)) by (unfold is_u32; lia).
  assert (E2 : (b + cf >=? S) = true) by (apply Z.geb_le; lia).
  rewrite E2.
  cbn [FP.set_converter FP.set_shadow_frames FP.set_shadow_offset FP.set_client_frames
         FP.shadow_frames FP.shadow_offset FP.client_frames FP.converter
         FP.cls FP.dst_frames FP.jack_offset].
  rewrite H3, H4, H5.
  rewrite (u32_small (b + cf)) by (unfold is_u32; lia).
  rewrite (u32_small (b + cf - S)) by (unfold is_u32; lia).
  rewrite (u32_small (o + S)) by (unfold is_u32; lia).
  cbn [FP.set_converter FP.set_shadow_frames FP.set_shadow_offset FP.set_client_frames
         FP.shadow_frames FP.shadow_offset FP.client_frames FP.converter
         FP.cls FP.dst_frames FP.jack_offset].
  destruct (Z.eqb_spec (b + cf - S) 0) as [E0|E0];
    cbn [FP.set_converter FP.set_shadow_frames FP.set_shadow_offset FP.set_client_frames
           FP.shadow_frames FP.shadow_offset FP.client_frames FP.converter
           FP.cls FP.dst_frames FP.jack_offset].
  - change (0 =? 0) with true. cbn [negb andb].
    eexists. split; [reflexivity|]. unfold out_step_with.
    cbn [FP.set_converter FP.set_shadow_frames FP.set_shadow_offset FP.set_client_frames
           FP.shadow_frames FP.shadow_offset FP.client_frames FP.converter
           FP.cls FP.dst_frames FP.jack_offset].
    rewrite E0. destruct (Z.leb_spec 0 S); [|lia]. tauto.
  - destruct (Z.eqb_spec (o + S) 0) as [Eo|Eo]; destruct (Z.leb_spec (b + cf - S) S) as [El|El];
      cbn [negb andb];
      (eexists; split; [reflexivity|]); unfold out_step_with;
      cbn [FP.set_converter FP.set_shadow_frames FP.set_shadow_offset FP.set_client_frames
             FP.shadow_frames FP.shadow_offset FP.client_frames FP.converter
             FP.cls FP.dst_frames FP.jack_offset]; repeat split; try assumption; lia.
Qed.

Lemma next_loop_outputs C S b o cf ports :
  Forall (out_step_with C b o cf) ports ->
  0 <= S -> 0 <= b -> 0 <= cf -> 0 <= o ->
  b <= Z.max S C -> S <= b + cf -> b + cf < 2 ^ 32 -> o + S < 2 ^ 32 ->
  exists ports',
    BC.next_loop S ports 1 = (1, ports', []) /\
    Forall (out_step_with C (b + cf - S) (if b + cf - S <=? S then 0 else o + S) 0) ports'.
Proof.
  intros Hall HS Hb Hcf Ho Hmax Hge Hsum Hoff.
  induction Hall as [|p ports Hp Hrest IH].
  - exists []. split; [reflexivity | constructor].
  - destruct (next_out_step C S b o cf p Hp HS Hb Hcf Ho Hmax Hge Hsum Hoff)
      as (p' & Hnext & Hp').
    destruct IH as (ports' & Hloop & Hall').
    exists (p' :: ports'). cbn [BC.next_loop]. rewrite Hnext.
    change (1 <? 0) with false. change (1 <? 1) with false. cbn iota.
    rewrite Hloop. split; [reflexivity|]. constructor; assumption.
Qed.

Lemma next_outputs C S b o cf conv :
  outputs_at C b o cf conv ->
  0 <= S -> 0 <= b -> 0 <= cf -> 0 <= o ->
  b <= Z.max S C -> S <= b + cf -> b + cf < 2 ^ 32 -> o + S < 2 ^ 32 ->
  exists ports',
    BC.next S (BC.OutPorts conv) = (1, ports', []) /\ ports' <> [] /\
    Forall (out_step_with C (b + cf - S) (if b + cf - S <=? S then 0 else o + S) 0) ports'.
Proof.
  intros [Hne Hall] HS Hb Hcf Ho Hmax Hge Hsum Hoff.
  destruct (next_loop_outputs C S b o cf _ Hall HS Hb Hcf Ho Hmax Hge Hsum Hoff)
    as (ports' & Hloop & Hall').
  exists ports'. unfold BC.next.
  destruct (BC.OutPorts conv) as [|p ports] eqn:E; [congruence|].
  split; [exact Hloop|]. split; [|exact Hall'].
  pose proof (next_loop_length S (p :: ports) 1) as Hlen. rewrite Hloop in Hlen.
  cbn [fst snd] in Hlen. destruct ports'; [discriminate Hlen | discriminate].
Qed.

Lemma counters_update p p' :
  counters p' = counters p ->
  counters (FP.update_client_frames p') = counters (FP.update_client_frames p).
Proof.
  intros H. unfold FP.update_client_frames, FP.update_client_frames_out.
  assert (Hc : FP.cls p' = FP.cls p) by (unfold counters in H; congruence).
  rewrite Hc. destruct (FP.cls p); [exact H|].
  unfold counters in *.
  cbn [FP.set_client_frames FP.cls FP.dst_frames FP.shadow_frames FP.jack_offset
         FP.shadow_offset FP.client_frames].
  congruence.
Qed.

Lemma map_counters_update l : forall l',
  map counters l' = map counters l ->
  map counters (map FP.update_client_frames l')
  = map counters (map FP.update_client_frames l).
Proof.
  induction l as [|p l IH]; intros [|p' l'] H; try discriminate; [reflexivity|].
  assert (H1 : counters p' = counters p) by (cbn [map] in H; congruence).
  assert (H2 : map counters l' = map counters l) by (cbn [map] in H; congruence).
  cbn [map]. rewrite (counters_update p p' H1), (IH l' H2). reflexivity.
Qed.

Lemma iter_counters_update n : forall l l',
  map counters l' = map counters l ->
  map counters (Nat.iter n (map FP.update_client_frames) l')
  = map counters (Nat.iter n (map FP.update_client_frames) l).
Proof.
  induction n as [|n IH]; intros l l' H; [exact H|].
  cbn [Nat.iter]. apply map_counters_update. apply IH. exact H.
Qed.

Lemma iter_update_length n (l : list FP.t) :
  List.length (Nat.iter n (map FP.update_client_frames) l) = List.length l.
Proof.
  induction n as [|n IH]; [reflexivity|].
  rewrite Nat.iter_succ, length_map. exact IH.
Qed.

Lemma iter_update_step C b o n : forall cf l,
  0 <= C -> 0 <= cf -> cf + Z.of_nat n * C < 2 ^ 32 ->
  Forall (out_step_with C b o cf) l ->
  Forall (out_step_with C b o (cf + Z.of_nat n * C))
    (Nat.iter n (map FP.update_client_frames) l).
Proof.
  induction n as [|n IH]; intros cf l HC Hcf Hsum Hall.
  - cbn [Nat.iter]. replace (cf + Z.of_nat 0 * C) with cf by lia. exact Hall.
  - cbn [Nat.iter]. rewrite Nat2Z.inj_succ in *.
    specialize (IH cf l HC Hcf ltac:(nia) Hall).
    apply Forall_map. revert IH. apply Forall_impl. intros p Hp.
    apply update_client_frames_step in Hp.
    rewrite u32_small in Hp by (unfold is_u32; nia).
    replace (cf + Z.succ (Z.of_nat n) * C) with (cf + Z.of_nat n * C + C) by lia.
    exact Hp.
Qed.

Section Balance.

Context {A : Type}.
Variable callback : jack_nframes_t -> A -> BC.t -> Z * A * BC.t.
Hypothesis Hcb : respects_counters callback.

Lemma converter_loop_out_counters fuel frames :
  forall (arg : A) (conv : BC.t) v,
    let x := BC.converter_loop callback fuel frames arg conv in
    loop_result x = Some (inr v) ->
    map counters (BC.OutPorts (loop_conv x))
    = map counters (Nat.iter (List.length (loop_calls x))
                      (map FP.update_client_frames) (BC.OutPorts conv)).
Proof.
  induction fuel as [|fuel IH]; intros arg conv v x; subst x.
  - cbn. discriminate.
  - cbn [BC.converter_loop].
    destruct (BC.next frames (BC.InPorts conv)) as [[ret ins] log].
    destruct (ret >=? 1).
    + pose proof (Hcb (BC.dst_frames (BC.set_InPorts conv ins)) arg (BC.set_InPorts conv ins))
        as Hresp.
      destruct (callback _ arg _) as [[cb_ret arg'] conv2].
      cbn [snd] in Hresp. destruct Hresp as (_ & Hr2 & _).
      cbn [BC.set_InPorts BC.OutPorts] in Hr2.
      destruct (cb_ret <? 0).
      * unfold loop_result. cbn [fst]. discriminate.
      * specialize (IH arg' (BC.set_OutPorts conv2
                               (map FP.update_client_frames (BC.OutPorts conv2))) v).
        destruct (BC.converter_loop callback fuel frames arg' _)
          as [[[[r a] c] calls] log'].
        unfold loop_result, loop_calls, loop_conv in *. cbn [fst snd] in *.
        intros Hr. rewrite (IH Hr). cbn [List.length BC.set_OutPorts BC.OutPorts].
        rewrite Nat.iter_succ_r. apply iter_counters_update.
        apply map_counters_update. exact Hr2.
    + unfold loop_result, loop_calls, loop_conv. cbn [fst snd]. intros _.
      reflexivity.
Qed.

End Balance.

Lemma prefill_reach C S P :
  0 < C -> 0 < S -> C < 2 ^ 32 ->
  BC.calculate_silence_prefill C S = Some P -> in_reach C S P P.
Proof.
  intros HC HS HC32. unfold BC.calculate_silence_prefill, BC.umod, in_reach.
  destruct (Z.gtb_spec S C) as [G|G].
  - destruct (Z.eqb_spec C 0); [lia|].
    destruct (Z.eqb_spec (S mod C) 0) as [E|E]; intros [= <-].
    + split; [lia|]. right. right. split; [exact E | reflexivity].
    + split; [lia|]. left. reflexivity.
  - destruct (Z.ltb_spec S C) as [L|L].
    + destruct (Z.eqb_spec S 0); [lia|].
      destruct (Z.eqb_spec (C mod S) 0) as [E|E]; intros [= <-].
      * rewrite u32_small by (unfold is_u32; lia).
        split; [lia|]. right. left. split; [exact E|]. split; [reflexivity|].
        apply Z.mod_divide in E; [|lia]. destruct E as [q Hq]. subst C.
        replace (q * S - S) with ((q - 1) * S) by ring. apply Z.mod_mul. lia.
      * split; [lia|]. left. reflexivity.
    + intros [= <-]. assert (S = C) by lia. subst S.
      split; [lia|]. right. left. split; [apply Z.mod_same; lia|].
      split; [lia | apply Z.mod_0_l; lia].
Qed.

(** The silence prefill and one server period make up a client period at
    least. *)
Lemma in_reach_period C S P a :
  0 < C -> 0 < S -> in_reach C S P a -> C <= P + S.
Proof.
  intros HC HS (Ha & [E|[(E1 & E2 & _)|(E1 & E2)]]); [lia | lia|].
  apply Z.mod_divide in E1; [|lia]. destruct E1 as [q Hq]. subst S P.
  assert (0 < q) by nia. nia.
Qed.

Lemma reach_step C S P a :
  0 < C -> 0 < S -> in_reach C S P a -> in_reach C S P ((a + S) mod C).
Proof.
  intros HC HS [Ha Hcase].
  pose proof (Z.mod_pos_bound (a + S) C HC) as Hm.
  destruct Hcase as [E|[(E1 & E2 & E3)|(E1 & E2)]].
  - split; [lia|]. left. exact E.
  - apply Z.mod_divide in E1; [|lia]. destruct E1 as [q Hq].
    apply Z.mod_divide in E3; [|lia]. destruct E3 as [r Hr].
    assert (Hdiv : ((a + S) mod C) mod S = 0).
    { rewrite (Z.mod_eq (a + S) C) by lia. subst C a.
      replace (r * S + S - q * S * ((r * S + S) / (q * S)))
        with ((r + 1 - q * ((r * S + S) / (q * S))) * S) by ring.
      apply Z.mod_mul. lia. }
    split.
    + split; [lia|]. apply Z.mod_divide in Hdiv; [|lia]. destruct Hdiv as [t Ht].
      assert (Hlt : t * S < q * S) by lia.
      assert (Htq : t <= q - 1) by nia.
      assert (t * S <= (q - 1) * S) by (apply Z.mul_le_mono_nonneg_r; lia).
      lia.
    + right. left. split; [|split; [exact E2 | exact Hdiv]].
      subst C. apply Z.mod_mul. lia.
  - assert (a = 0) by lia. subst a P. rewrite Z.add_0_l, E1.
    split; [lia|]. right. right. split; [exact E1 | reflexivity].
Qed.

Lemma reach_enough C S P a :
  0 < C -> 0 < S -> in_reach C S P a ->
  (P - a) + (a + S) / C * C - S = P - (a + S) mod C /\ 0 <= P - (a + S) mod C.
Proof.
  intros HC HS H. destruct (reach_step C S P a HC HS H) as [Hb _].
  pose proof (Z.div_mod (a + S) C ltac:(lia)). lia.
Qed.

Section Steady.

Context {A : Type}.
Variable callback : jack_nframes_t -> A -> BC.t -> Z * A * BC.t.
Hypothesis Hcb : respects_counters callback.
Hypothesis Hzero : forall n arg conv, fst (fst (callback n arg conv)) = 0.

Variables C S P : jack_nframes_t.
Hypothesis HC : 0 < C.
Hypothesis HS : 0 < S.
Hypothesis Hsum : S + C < 2 ^ 32.
Hypothesis HP : P <= C.

Lemma converter_steady (fuel : nat) (arg : A) (conv : BC.t) :
  (Z.to_nat (S / C) + 2 <= fuel)%nat ->
  steady C S P conv ->
  exists o,
    BC.converter callback fuel S arg conv = Some o /\
    BC.out_ret o = 0 /\ steady C S P (BC.out_conv o).
Proof.
  intros Hfuel (a & so & Hreach & Hso & Hext & Hzero_off & Hin & Hout).
  destruct Hreach as [Ha Hcase].
  assert (Hreach : in_reach C S P a) by (split; assumption).
  assert (Hn : 0 <= (a + S) / C <= S / C + 1).
  { split; [apply Z.div_pos; lia|].
    replace (a + S) with (a + S - C + 1 * C) by lia. rewrite Z.div_add by lia.
    assert ((a + S - C) / C <= S / C) by (apply Z.div_le_mono; lia). lia. }
  destruct (converter_loop_count callback Hcb Hzero C S HC Hsum
              (Z.to_nat ((a + S) / C)) fuel arg conv a 0)
    as (H1 & H2 & H3); try assumption; try lia.
  { rewrite Z2Nat.id by lia. f_equal. lia. }
  pose proof (converter_loop_out_counters callback Hcb fuel S arg conv 0) as H4.
  cbv zeta in H4. specialize (H4 H1). rewrite H2 in H4.
  destruct (reach_enough C S P a HC HS Hreach) as [Hbal Hpos].
  destruct (reach_step C S P a HC HS Hreach) as [Ha' Hcase'].
  pose proof (Z.div_mod (a + S) C ltac:(lia)) as Hdm.
  set (k := (a + S) / C) in *. set (a' := (a + S) mod C) in *.
  replace (a + S - 0) with (a + S) in H3 by lia. fold a' in H3.
  unfold BC.converter.
  destruct (BC.converter_loop callback fuel S arg conv) as [[[[r x] c] calls] log].
  unfold loop_result, loop_calls, loop_conv in *. cbn [fst snd] in *. subst r.
  destruct Hout as [Hne Hall].
  assert (Hout' : outputs_at C (P - a) so (k * C) c).
  { split.
    - intros E. rewrite E in H4. symmetry in H4. cbn [map] in H4.
      apply map_counters_nil in H4.
      assert (Hlen : List.length (Nat.iter (Z.to_nat k) (map FP.update_client_frames)
                                    (BC.OutPorts conv)) = List.length (BC.OutPorts conv)).
      { apply iter_update_length. }
      rewrite H4 in Hlen. destruct (BC.OutPorts conv); [congruence | discriminate].
    - apply (Forall_out_step_with_counters C (P - a) so (k * C) _ _ H4).
      pose proof (iter_update_step C (P - a) so (Z.to_nat k) 0 (BC.OutPorts conv)
                    ltac:(lia) ltac:(lia)) as Hit.
      rewrite Z2Nat.id in Hit by lia. rewrite Z.add_0_l in Hit.
      apply Hit; [nia | exact Hall]. }
  assert (Hso0 : 1 <= k -> so = 0).
  { intros Hk. apply Hzero_off. nia. }
  destruct (next_outputs C S (P - a) so (k * C) c Hout') as (ports' & Hnext & Hne' & Hall');
    try lia; try nia.
  rewrite Hnext. eexists. split; [reflexivity|].
  cbn [BC.out_ret BC.out_conv]. split; [reflexivity|].
  exists a', (if P - a + k * C - S <=? S then 0 else so + S).
  split; [split; assumption|].
  replace (P - a + k * C - S) with (P - a') in * by lia.
  split; [destruct (P - a' <=? S); lia|].
  split.
  { destruct (Z.leb_spec (P - a') S); [lia|].
    destruct (Z.eq_dec k 0) as [Hk|Hk]; [rewrite Hk in *; lia|].
    rewrite Hso0 by lia. lia. }
  split.
  { intros Hle. destruct (Z.leb_spec (P - a') S); [reflexivity | lia]. }
  split.
  - destruct H3 as [H3a H3b]. split; assumption.
  - split; assumption.
Qed.

End Steady.

Lemma steady_fresh C S P conv :
  0 < C -> 0 < S -> C < 2 ^ 32 ->
  BC.dst_frames conv = C -> BC.silence_prefil conv = P ->
  BC.calculate_silence_prefill C S = Some P ->
  fresh conv -> fresh_outputs conv ->
  BC.InPorts conv <> [] -> BC.OutPorts conv <> [] ->
  steady C S P conv.
Proof.
  intros HC HS HC32 Hd Hp Hcalc [Hr Hin] Hout Hne1 Hne2.
  unfold fresh_outputs in Hout. rewrite Hd, ?Hp in *.
  exists P, 0. split; [apply prefill_reach; assumption|].
  split; [lia|]. split; [lia|]. split; [reflexivity|].
  split; [split; assumption|]. rewrite Z.sub_diag. split; assumption.
Qed.

Lemma begin_cycle_steady C S P conv c :
  steady C S P conv -> steady C S P (BC.begin_cycle conv c).
Proof.
  intros (a & o & H1 & H2 & H3 & H4 & Hin & [Hne Hall]).
  exists a, o. repeat (split; [assumption|]). split.
  - apply begin_cycle_inputs. exact Hin.
  - unfold outputs_at, BC.begin_cycle. cbn [BC.set_OutPorts BC.OutPorts].
    pose proof (refresh_counters (BC.OutPorts conv) (snd c)) as Hc.
    split.
    + intros E. rewrite E in Hc. symmetry in Hc. apply map_counters_nil in Hc. congruence.
    + apply (Forall_out_step_with_counters C (P - a) o 0 _ _ Hc Hall).
Qed.

Lemma free_slot_step C b cf p :
  out_step_with C b 0 cf p -> 0 <= b -> 0 <= cf -> b + cf < 2 ^ 32 ->
  FP.free_slot p = b + cf.
Proof.
  intros (_ & _ & H3 & H4 & H5) Hb Hcf Hsum. unfold FP.free_slot.
  rewrite H3, H4, H5, Z.add_0_l.
  rewrite (u32_small b) by (unfold is_u32; lia).
  apply u32_small. unfold is_u32. lia.
Qed.

Section Slots.

Context {A : Type}.
Variable callback : jack_nframes_t -> A -> BC.t -> Z * A * BC.t.
Hypothesis Hcb : respects_counters callback.

Variables C S B b : jack_nframes_t.
Hypothesis HC : 0 < C.
Hypothesis Hsum : S + C < 2 ^ 32.
Hypothesis HB : B < 2 ^ 32.
Hypothesis Hb : 0 <= b.

Lemma converter_loop_slots (n : nat) :
  forall (fuel : nat) (arg : A) (conv : BC.t) (sf off cf : jack_nframes_t),
    inputs_at C sf off conv ->
    0 <= sf <= C -> 0 <= off <= S ->
    (sf + S - off) / C = Z.of_nat n ->
    Forall (out_step_with C b 0 cf) (BC.OutPorts conv) ->
    0 <= cf -> b + cf + Z.of_nat n * C <= B ->
    Forall (slots_below B) (loop_calls (BC.converter_loop callback fuel S arg conv)).
Proof.
  induction n as [|n IH]; intros fuel arg conv sf off cf [Hne Hall] Hsf Hoff Hdiv Hout Hcf Hbound;
    (destruct fuel as [|fuel]; [constructor|]); cbn [BC.converter_loop];
    pose proof (next_uniform C sf off S (BC.InPorts conv) Hne Hall) as Hnext;
    destruct (BC.next S (BC.InPorts conv)) as [[ret ins] log];
    destruct Hnext as (Hret & Hne' & Hall');
    destruct (in_step_nowrap C S sf off HC Hsum Hsf Hoff) as (E1 & E2 & E3);
    cbv zeta in E1, E2, E3; rewrite E1 in Hret; rewrite E2, E3 in Hall'.
  - assert (Hlt : sf + S - off < C).
    { apply Z.div_small_iff in Hdiv; lia. }
    destruct (Z.geb_spec (sf + S - off) C); [lia|]. subst ret.
    change (0 >=? 1) with false. cbn iota. constructor.
  - assert (Hge : C <= sf + S - off).
    { destruct (Z.lt_ge_cases (sf + S - off) C) as [Hlt|]; [|assumption].
      rewrite Z.div_small in Hdiv by lia. lia. }
    destruct (Z.geb_spec (sf + S - off) C); [|lia]. subst ret.
    change (1 >=? 1) with true. cbn iota.
    pose proof (Hcb (BC.dst_frames (BC.set_InPorts conv ins)) arg (BC.set_InPorts conv ins))
      as Hresp.
    destruct (callback _ arg _) as [[cb_ret arg'] conv2].
    cbn [fst snd] in Hresp. destruct Hresp as (Hr1 & Hr2 & _).
    cbn [BC.set_InPorts BC.InPorts BC.OutPorts] in Hr1, Hr2.
    rewrite Nat2Z.inj_succ in Hbound.
    assert (Hcall : slots_below B
              {| BC.inv_nframes := BC.dst_frames (BC.set_InPorts conv ins);
                 BC.inv_before := conv;
                 BC.inv_state := BC.set_InPorts conv ins; BC.inv_ret := cb_ret |}).
    { unfold slots_below. cbn [BC.inv_state BC.set_InPorts BC.OutPorts].
      revert Hout. apply Forall_impl. intros p Hp.
      rewrite (free_slot_step C b cf p Hp) by nia.
      destruct Hp as (_ & Hd & Hf & Ho & Hc). rewrite Hd, Ho, Hf, Hc.
      repeat split; nia. }
    destruct (cb_ret <? 0).
    + unfold loop_calls. cbn [fst snd]. constructor; [exact Hcall | constructor].
    + specialize (IH fuel arg'
                    (BC.set_OutPorts conv2 (map FP.update_client_frames (BC.OutPorts conv2)))
                    0 (off + C - sf) (cf + C)).
      destruct (BC.converter_loop callback fuel S arg' _) as [[[[r a] c] calls] log'].
      unfold loop_calls in *. cbn [fst snd] in *.
      constructor; [exact Hcall|]. apply IH.
      * apply (inputs_at_counters C 0 (off + C - sf) (BC.set_InPorts conv ins)).
        -- cbn [BC.set_OutPorts BC.set_InPorts BC.InPorts]. exact Hr1.
        -- split; assumption.
      * lia.
      * lia.
      * replace (sf + S - off) with (0 + S - (off + C - sf) + 1 * C) in Hdiv by lia.
        rewrite Z.div_add in Hdiv by lia. lia.
      * cbn [BC.set_OutPorts BC.OutPorts]. apply Forall_map.
        apply (Forall_out_step_with_counters C b 0 cf _ _ Hr2) in Hout.
        revert Hout. apply Forall_impl. intros p Hp.
        apply update_client_frames_step in Hp.
        rewrite u32_small in Hp by (unfold is_u32; nia). exact Hp.
      * lia.
      * lia.
Qed.

End Slots.

Section SteadyRun.

Context {A : Type}.
Variable callback : jack_nframes_t -> A -> BC.t -> Z * A * BC.t.
Hypothesis Hcb : respects_counters callback.
Hypothesis Hzero : forall n arg conv, fst (fst (callback n arg conv)) = 0.

Variables C S P : jack_nframes_t.
Hypothesis HC : 0 < C.
Hypothesis HS : 0 < S.
Hypothesis Hsum : S + C < 2 ^ 32.
Hypothesis HP : P <= C.

Lemma converter_steady_slots (fuel : nat) (arg : A) (conv : BC.t) :
  steady C S P conv ->
  Forall (slots_below (P + S)) (loop_calls (BC.converter_loop callback fuel S arg conv)).
Proof.
  intros (a & so & Hreach & Hso & Hext & Hzero_off & Hin & Hout).
  destruct Hreach as [Ha Hcase].
  assert (Hn : 0 <= (a + S) / C) by (apply Z.div_pos; lia).
  pose proof (Z.div_mod (a + S) C ltac:(lia)) as Hdm.
  pose proof (Z.mod_pos_bound (a + S) C HC) as Hmod.
  destruct (Z.eq_dec ((a + S) / C) 0) as [Hk|Hk].
  - destruct fuel as [|fuel]; [constructor|].
    destruct (converter_loop_count callback Hcb Hzero C S HC Hsum
                O (Datatypes.S fuel) arg conv a 0)
      as (_ & H2 & _); try assumption; try lia.
    { rewrite Z.sub_0_r. exact Hk. }
    destruct (loop_calls _); [constructor | discriminate].
  - assert (so = 0) by (apply Hzero_off; nia). subst so.
    apply (converter_loop_slots callback Hcb C S (P + S) (P - a) HC Hsum ltac:(lia) ltac:(lia)
             (Z.to_nat ((a + S) / C)) fuel arg conv a 0 0); try assumption; try lia.
    + rewrite Z2Nat.id by lia. f_equal. lia.
    + apply Hout.
Qed.

Lemma run_steady (fuel : nat) :
  (Z.to_nat (S / C) + 2 <= fuel)%nat ->
  forall (cycles : list BC.cycle) (arg : A) (conv : BC.t),
    steady C S P conv ->
    exists rs arg' conv',
      BC.run callback fuel S cycles arg conv = Some (rs, arg', conv') /\
      Forall (fun r => fst r = 0 /\ Forall (slots_below (P + S)) (snd r)) rs /\
      steady C S P conv'.
Proof.
  intros Hfuel. induction cycles as [|c cycles IH]; intros arg conv Hst.
  - exists [], arg, conv. split; [reflexivity|]. split; [constructor | exact Hst].
  - pose proof (begin_cycle_steady C S P conv c Hst) as Hst0.
    pose proof (converter_steady_slots fuel arg _ Hst0) as Hslots.
    destruct (converter_steady callback Hcb Hzero C S P HC HS Hsum HP fuel arg _ Hfuel Hst0)
      as (o & Ho & Hret & Hst').
    destruct (IH (BC.out_arg o) (BC.out_conv o) Hst') as (rs & arg' & conv' & Hrun & Hall & Hfin).
    exists ((BC.out_ret o, BC.out_calls o) :: rs), arg', conv'.
    cbn [BC.run]. rewrite Ho, Hrun. split; [reflexivity|]. split; [|exact Hfin].
    constructor; [|exact Hall]. cbn [fst snd]. split; [exact Hret|].
    unfold BC.converter in Ho.
    destruct (BC.converter_loop callback fuel S arg (BC.begin_cycle conv c))
      as [[[[r x] c1] calls] log].
    unfold loop_calls in Hslots. cbn [fst snd] in Hslots.
    destruct r as [[v|v]|]; [| |discriminate].
    + injection Ho as <-. exact Hslots.
    + destruct (BC.next S (BC.OutPorts c1)) as [[outport_ret outs] log'].
      injection Ho as <-. exact Hslots.
Qed.

End SteadyRun.

(** X14.  No underrun and constant latency.  On an aggregator fresh from the
    factory with at least one input and one output adapter, whose shadow
    buffers of [BUFFER_SIZE_MAX] frames hold [silence_prefil + S] frames, and
    with a client that returns [0], every process callback of a run returns
    [0]; after the run the frames pending in an input adapter and those
    pending in an output adapter add up to [silence_prefil], the latter lie
    below frame [BUFFER_SIZE_MAX] of the shadow buffer, and the client
    period, which an input adapter collects from frame 0 of its shadow
    buffer on, is at most [BUFFER_SIZE_MAX]. *)
Theorem period_adaptation_balance {A : Type}
  (callback : jack_nframes_t -> A -> BC.t -> Z * A * BC.t)
  (S BUFFER_SIZE_MAX : jack_nframes_t) (cycles : list BC.cycle) (arg : A) (conv : BC.t)
  (fuel : nat) :
  respects_counters callback ->
  (forall n arg conv, fst (fst (callback n arg conv)) = 0) ->
  0 < BC.dst_frames conv -> 0 < S -> S + BC.dst_frames conv < 2 ^ 32 ->
  BC.calculate_silence_prefill (BC.dst_frames conv) S = Some (BC.silence_prefil conv) ->
  BC.silence_prefil conv + S <= BUFFER_SIZE_MAX ->
  fresh conv -> fresh_outputs conv ->
  BC.InPorts conv <> [] -> BC.OutPorts conv <> [] ->
  (Z.to_nat (S / BC.dst_frames conv) + 2 <= fuel)%nat ->
  exists rs arg' conv' a o,
    BC.run callback fuel S cycles arg conv = Some (rs, arg', conv') /\
    Forall (fun r => fst r = 0) rs /\
    0 <= a <= BC.silence_prefil conv /\
    inputs_at (BC.dst_frames conv) a 0 conv' /\
    outputs_at (BC.dst_frames conv) (BC.silence_prefil conv - a) o 0 conv' /\
    0 <= o /\ o + (BC.silence_prefil conv - a) <= BUFFER_SIZE_MAX /\
    BC.dst_frames conv <= BUFFER_SIZE_MAX.
Proof.
  intros Hcb Hzero HC HS Hsum Hcalc Hcap Hfresh Hout Hne1 Hne2 Hfuel.
  assert (HP : BC.silence_prefil conv <= BC.dst_frames conv) by apply Hfresh.
  pose proof (in_reach_period _ _ _ _ HC HS
                (prefill_reach _ _ _ HC HS ltac:(lia) Hcalc)) as Hper.
  destruct (run_steady callback Hcb Hzero _ S _ HC HS Hsum HP fuel Hfuel cycles arg conv)
    as (rs & arg' & conv' & Hrun & Hall & (a & o & Hreach & Ho & Hext & _ & Hin & Hout')).
  { apply steady_fresh; try assumption; try reflexivity; lia. }
  exists rs, arg', conv', a, o. split; [exact Hrun|].
  split; [revert Hall; apply Forall_impl; intros r Hr; apply Hr|].
  split; [apply Hreach|]. split; [exact Hin|]. split; [exact Hout'|].
  split; [exact Ho|]. split; lia.
Qed.

(** X15.  In such a run, at every client invocation and on every output
    adapter, the shadow offset is [0], the free slot that [get] hands out
    starts at frame [shadow_frames + client_frames], and a whole client
    period fits between the slot and frame [silence_prefil + S], hence below
    frame [BUFFER_SIZE_MAX] of the shadow buffer. *)
Theorem output_slots_bounded {A : Type}
  (callback : jack_nframes_t -> A -> BC.t -> Z * A * BC.t)
  (S BUFFER_SIZE_MAX : jack_nframes_t) (cycles : list BC.cycle) (arg : A) (conv : BC.t)
  (fuel : nat) :
  respects_counters callback ->
  (forall n arg conv, fst (fst (callback n arg conv)) = 0) ->
  0 < BC.dst_frames conv -> 0 < S -> S + BC.dst_frames conv < 2 ^ 32 ->
  BC.calculate_silence_prefill (BC.dst_frames conv) S = Some (BC.silence_prefil conv) ->
  BC.silence_prefil conv + S <= BUFFER_SIZE_MAX ->
  fresh conv -> fresh_outputs conv ->
  BC.InPorts conv <> [] -> BC.OutPorts conv <> [] ->
  (Z.to_nat (S / BC.dst_frames conv) + 2 <= fuel)%nat ->
  exists rs arg' conv',
    BC.run callback fuel S cycles arg conv = Some (rs, arg', conv') /\
    Forall (fun r =>
              Forall (fun call => slots_below (BC.silence_prefil conv + S) call /\
                                  slots_below BUFFER_SIZE_MAX call) (snd r)) rs.
Proof.
  intros Hcb Hzero HC HS Hsum Hcalc Hcap Hfresh Hout Hne1 Hne2 Hfuel.
  assert (HP : BC.silence_prefil conv <= BC.dst_frames conv) by apply Hfresh.
  destruct (run_steady callback Hcb Hzero _ S _ HC HS Hsum HP fuel Hfuel cycles arg conv)
    as (rs & arg' & conv' & Hrun & Hall & _).
  { apply steady_fresh; try assumption; try reflexivity; lia. }
  exists rs, arg', conv'. split; [exact Hrun|].
  revert Hall. apply Forall_impl. intros r [_ Hr].
  revert Hr. apply Forall_impl. intros call Hcall. split; [exact Hcall|].
  revert Hcall. unfold slots_below. apply Forall_impl.
  intros p (H1 & H2 & H3 & H4). repeat split; try assumption. lia.
Qed.

(** ** The period adapters as a delay line *)

Lemma same_format_refl c : same_format c c.
Proof. repeat split. Qed.

Lemma same_format_trans c1 c2 c3 :
  same_format c1 c2 -> same_format c2 c3 -> same_format c1 c3.
Proof.
  unfold same_format. intros (A1 & A2 & A3) (B1 & B2 & B3). repeat split; congruence.
Qed.

Lemma from_jack_by_format c c' f :
  same_format c c' -> from_jack_by c f -> from_jack_by c' f.
Proof. intros (_ & _ & H). unfold from_jack_by. now rewrite H. Qed.

Lemma to_jack_by_format c c' g :
  same_format c c' -> to_jack_by c g -> to_jack_by c' g.
Proof. intros (_ & _ & H). unfold to_jack_by. now rewrite H. Qed.

(** [next] on an input adapter that can complete a client period. *)
Lemma next_in_ready_data C S sf off f p :
  in_step_with C sf off p ->
  0 < C -> S + C < 2 ^ 32 -> 0 <= sf <= C -> 0 <= off <= S -> C <= sf + S - off ->
  from_jack_by (FP.converter p) f ->
  port_buffer (SB.port (FP.converter p)) <> NULL ->
  exists p',
    FP.next p S = (1, p', []) /\
    in_step_with C 0 (off + C - sf) p' /\
    same_format (FP.converter p) (FP.converter p') /\
    SB.port (FP.converter p') = SB.port (FP.converter p) /\
    forall i, SB.shadow (FP.converter p') i =
              if in_range sf (C - sf) i
              then f (port_data (SB.port (FP.converter p)) (off + (i - sf)))
              else SB.shadow (FP.converter p) i.
Proof.
  intros (Hcls & Hdst & Hsf & Hoff) HC Hsum Hsfr Hoffr Hge Hf Hnull.
  destruct (next_in_cases p S f Hf Hnull) as (Hready & _ & _).
  rewrite Hdst, Hsf, Hoff in Hready.
  rewrite (u32_small (S - off)) in Hready by (unfold is_u32; lia).
  rewrite (u32_small (sf + (S - off))) in Hready by (unfold is_u32; lia).
  rewrite (u32_small (C - sf)) in Hready by (unfold is_u32; lia).
  rewrite (u32_small (off + (C - sf))) in Hready by (unfold is_u32; lia).
  destruct (Hready ltac:(lia) ltac:(lia)) as (sh & Hsh & Hnext).
  eexists. unfold FP.next. rewrite Hcls. split; [exact Hnext|].
  unfold in_step_with.
  cbn [FP.set_shadow_frames FP.set_jack_offset FP.set_converter FP.cls FP.dst_frames
         FP.shadow_frames FP.jack_offset FP.converter SB.set_shadow SB.port SB.shadow].
  split; [repeat split; try assumption; lia|].
  split; [repeat split|]. split; [reflexivity|]. exact Hsh.
Qed.

(** [next] on an input adapter that cannot: the rest of the server buffer is
    kept for the next cycle. *)
Lemma next_in_pending_data C S sf off f p :
  in_step_with C sf off p ->
  0 < C -> S + C < 2 ^ 32 -> 0 <= sf <= C -> 0 <= off <= S -> sf + S - off < C ->
  from_jack_by (FP.converter p) f ->
  port_buffer (SB.port (FP.converter p)) <> NULL ->
  exists p',
    FP.next p S = (0, p', []) /\
    in_step_with C (sf + S - off) 0 p' /\
    same_format (FP.converter p) (FP.converter p') /\
    SB.port (FP.converter p') = SB.port (FP.converter p) /\
    forall i, SB.shadow (FP.converter p') i =
              if in_range sf (S - off) i
              then f (port_data (SB.port (FP.converter p)) (off + (i - sf)))
              else SB.shadow (FP.converter p) i.
Proof.
  intros (Hcls & Hdst & Hsf & Hoff) HC Hsum Hsfr Hoffr Hlt Hf Hnull.
  destruct (next_in_cases p S f Hf Hnull) as (_ & Hpend & _).
  rewrite Hdst, Hsf, Hoff in Hpend.
  rewrite (u32_small (S - off)) in Hpend by (unfold is_u32; lia).
  rewrite (u32_small (sf + (S - off))) in Hpend by (unfold is_u32; lia).
  destruct (Hpend ltac:(lia) ltac:(lia)) as (sh & Hsh & Hnext).
  eexists. unfold FP.next. rewrite Hcls. split; [exact Hnext|].
  unfold in_step_with.
  cbn [FP.set_shadow_frames FP.set_jack_offset FP.set_converter FP.cls FP.dst_frames
         FP.shadow_frames FP.jack_offset FP.converter SB.set_shadow SB.port SB.shadow].
  split; [repeat split; try assumption; lia|].
  split; [repeat split|]. split; [reflexivity|]. exact Hsh.
Qed.

(** [next] on an output adapter that holds at least [S] frames, with the
    samples: the server buffer gets the [S] oldest frames, the rest stays
    pending from the new offset. *)
Lemma next_out_drain_data C S b o cf g p :
  out_step_with C b o cf p ->
  0 < S -> 0 <= b -> 0 <= cf -> 0 <= o ->
  b <= Z.max S C -> S <= b + cf -> b + cf < 2 ^ 32 -> o + S < 2 ^ 32 ->
  to_jack_by (FP.converter p) g ->
  port_buffer (SB.port (FP.converter p)) <> NULL ->
  let o' := if b + cf - S <=? S then 0 else o + S in
  exists p',
    FP.next p S = (1, p', []) /\
    out_step_with C (b + cf - S) o' 0 p' /\
    same_format (FP.converter p) (FP.converter p') /\
    port_buffer (SB.port (FP.converter p')) = port_buffer (SB.port (FP.converter p)) /\
    (forall i, port_data (SB.port (FP.converter p')) i =
               if in_range 0 S i then g (SB.shadow (FP.converter p) (o + i))
               else port_data (SB.port (FP.converter p)) i) /\
    (forall i, 0 <= i < b + cf - S ->
               SB.shadow (FP.converter p') (o' + i) = SB.shadow (FP.converter p) (o + S + i)).
Proof.
  intros (H1 & H2 & H3 & H4 & H5) HS Hb Hcf Ho Hmax Hge Hsum Hoff Hg Hnull o'.
  destruct (copy_to_jack_port (FP.converter p) g
              (fun i => SB.shadow (FP.converter p) (o + i)) 0 0 S Hg Hnull ltac:(lia))
    as (d & Hcopy & Hd).
  unfold FP.next. rewrite H1. unfold FP.next_out. rewrite H2, H3, H5.
  assert (E1 : (b >? (if S >? C then S else C)) = false).
  { destruct (Z.gtb_spec S C); rewrite Z.gtb_ltb; apply Z.ltb_ge; lia. }
  rewrite E1.
  rewrite (u32_small (b + cf)) by (unfold is_u32; lia).
  assert (E2 : (b + cf >=? S) = true) by (apply Z.geb_le; lia).
  rewrite E2.
  cbn [FP.set_converter FP.set_shadow_frames FP.set_shadow_offset FP.set_client_frames
         FP.shadow_frames FP.shadow_offset FP.client_frames FP.converter
         FP.cls FP.dst_frames FP.jack_offset].
  rewrite H3, H4, H5, Hcopy.
  rewrite (u32_small (b + cf)) by (unfold is_u32; lia).
  rewrite (u32_small (b + cf - S)) by (unfold is_u32; lia).
  rewrite (u32_small (o + S)) by (unfold is_u32; lia).
  assert (Hd0 : forall i, d i = if in_range 0 S i
                                then g (SB.shadow (FP.converter p) (o + i))
                                else port_data (SB.port (FP.converter p)) i).
  { intros i. rewrite Hd. replace (0 + (i - 0)) with i by lia. reflexivity. }
  subst o'.
  destruct (Z.eqb_spec (b + cf - S) 0) as [E0|E0];
    cbn [FP.set_converter FP.set_shadow_frames FP.set_shadow_offset FP.set_client_frames
           FP.shadow_frames FP.shadow_offset FP.client_frames FP.converter
           FP.cls FP.dst_frames FP.jack_offset].
  - change (0 =? 0) with true. cbn [negb andb].
    eexists. split; [reflexivity|]. unfold out_step_with.
    cbn [FP.set_converter FP.set_shadow_frames FP.set_shadow_offset FP.set_client_frames
           FP.shadow_frames FP.shadow_offset FP.client_frames FP.converter
           FP.cls FP.dst_frames FP.jack_offset
           SB.set_port SB.set_shadow SB.port SB.shadow set_port_data port_buffer port_data].
    rewrite E0. destruct (Z.leb_spec 0 S); [|lia].
    split; [tauto|]. split; [repeat split|]. split; [reflexivity|].
    split; [exact Hd0|]. intros i Hi. lia.
  - destruct (Z.eqb_spec (o + S) 0) as [Eo|Eo]; [lia|].
    destruct (Z.leb_spec (b + cf - S) S) as [El|El]; cbn [negb andb];
      (eexists; split; [reflexivity|]); unfold out_step_with;
      cbn [FP.set_converter FP.set_shadow_frames FP.set_shadow_offset FP.set_client_frames
             FP.shadow_frames FP.shadow_offset FP.client_frames FP.converter
             FP.cls FP.dst_frames FP.jack_offset
             SB.set_port SB.set_shadow SB.port SB.shadow set_port_data port_buffer
             port_data];
      (split; [repeat split; assumption|]); (split; [repeat split|]);
      (split; [reflexivity|]); (split; [exact Hd0|]); intros i Hi.
    + unfold memmove, memcpy.
      replace ((0 <=? 0 + i) && (0 + i <? 0 + (b + cf - S))) with true
        by (symmetry; apply andb_true_iff; split; [apply Z.leb_le | apply Z.ltb_lt]; lia).
      f_equal. lia.
    + reflexivity.
Qed.

(** The example client moves one client period from the start of the input
    shadow buffer to the free slot of the output shadow buffer, and nothing
    else. *)
Lemma inprocess_copies C arg conv inp ins outp outs :
  BC.InPorts conv = inp :: ins -> BC.OutPorts conv = outp :: outs ->
  FP.cls inp = FP.FramesIn -> FP.dst_frames inp = C ->
  FP.cls outp = FP.FramesOut -> FP.dst_frames outp = C ->
  shadows_present inp outp ->
  InprocessPeriod.inprocess C arg conv
  = Some (0, arg,
          BC.set_OutPorts conv
            (FP.set_converter outp
               (SB.set_shadow (FP.converter outp)
                  (memcpy (SB.shadow (FP.converter outp)) (FP.free_slot outp)
                     (SB.shadow (FP.converter inp)) 0 C)) :: outs)).
Proof.
  intros Hin Hout Hc1 Hd1 Hc2 Hd2 (Ha1 & Ha2 & Hsz).
  assert (Hss : SB.sample_size (FP.converter outp) <> 0) by lia.
  assert (Hfree : 0 <= FP.free_slot outp) by (unfold FP.free_slot; apply (u32_range _)).
  unfold InprocessPeriod.inprocess. rewrite Hin, Hout.
  unfold FP.get. rewrite Hc1, Hc2. unfold FP.get_in, FP.get_out.
  rewrite Hd1, Hd2, Z.eqb_refl. cbn [negb fst].
  unfold SB.get_shadow_buffer at 1 2.
  replace (SB.aligned_buffer (FP.converter inp) + 0 * SB.sample_size (FP.converter inp)
           =? NULL) with false by (symmetry; apply Z.eqb_neq; unfold NULL; lia).
  replace (SB.aligned_buffer (FP.converter outp)
           + FP.free_slot outp * SB.sample_size (FP.converter outp) =? NULL)
    with false by (symmetry; apply Z.eqb_neq; unfold NULL; nia).
  cbn [orb].
  unfold InprocessPeriod.frame_of, SB.get_shadow_buffer.
  replace (SB.aligned_buffer (FP.converter inp) + 0 * SB.sample_size (FP.converter inp)
           - SB.aligned_buffer (FP.converter inp)) with 0 by lia.
  rewrite Zdiv_0_l.
  replace (SB.aligned_buffer (FP.converter outp)
           + FP.free_slot outp * SB.sample_size (FP.converter outp)
           - SB.aligned_buffer (FP.converter outp))
    with (FP.free_slot outp * SB.sample_size (FP.converter outp)) by lia.
  rewrite Z.div_mul by exact Hss.
  unfold FP.set.
  cbn [FP.set_converter FP.cls]. rewrite Hc2.
  unfold FP.set_out.
  cbn [FP.set_converter FP.converter FP.dst_frames src_ptr SB.set_shadow
         SB.aligned_buffer SB.sample_size].
  unfold SB.get_shadow_buffer, FP.free_slot.
  cbn [FP.set_converter FP.converter FP.dst_frames FP.shadow_offset FP.shadow_frames
         FP.client_frames src_ptr SB.set_shadow SB.aligned_buffer SB.sample_size].
  rewrite Z.eqb_refl. reflexivity.
Qed.

Lemma memcpy_at dst doff src soff n i :
  memcpy dst doff src soff n i =
  if in_range doff n i then src (soff + (i - doff)) else dst i.
Proof. reflexivity. Qed.

Lemma shadows_present_format inp outp inp' outp' :
  same_format (FP.converter inp) (FP.converter inp') ->
  same_format (FP.converter outp) (FP.converter outp') ->
  shadows_present inp outp -> shadows_present inp' outp'.
Proof.
  intros (E1 & _) (E2 & E3 & _) (H1 & H2 & H3). unfold shadows_present.
  rewrite E1, E2, E3. repeat split; assumption.
Qed.

Section DelayLine.

(** The client: any callback that does what [inprocess] does wherever
    [inprocess] returns. *)
Variable callback : jack_nframes_t -> unit -> BC.t -> Z * unit * BC.t.
Hypothesis Hagree :
  forall n conv r, InprocessPeriod.inprocess n tt conv = Some r -> callback n tt conv = r.

Variables C S : jack_nframes_t.
Variables f Y : Z -> Z.
Hypothesis HC : 0 < C.
Hypothesis HS : 0 < S.
Hypothesis Hsum : S + C < 2 ^ 32.

(** The loop of the process callback with the example client, one input and
    one output adapter.  [V] is the position in the client's stream [Y] of
    the first frame of the server buffer, [W] the position of the oldest
    frame pending in the output shadow buffer. *)
Lemma converter_loop_delay (V W b o Bd : Z) (n : nat) :
  forall (fuel : nat) (conv : BC.t) (inp outp : FP.t) (sf off cf : jack_nframes_t),
    (n < fuel)%nat ->
    ((0 < n)%nat -> o = 0) -> o + b + cf + Z.of_nat n * C <= Bd ->
    BC.InPorts conv = [inp] -> BC.OutPorts conv = [outp] -> BC.dst_frames conv = C ->
    in_step_with C sf off inp -> out_step_with C b o cf outp ->
    0 <= sf <= C -> 0 <= off <= S -> (sf + S - off) / C = Z.of_nat n ->
    0 <= b -> 0 <= cf -> 0 <= o -> o + b + cf + Z.of_nat n * C < 2 ^ 32 ->
    b + cf = V - W + off - sf ->
    from_jack_by (FP.converter inp) f ->
    port_buffer (SB.port (FP.converter inp)) <> NULL ->
    shadows_present inp outp ->
    (forall i, 0 <= i < S -> f (port_data (SB.port (FP.converter inp)) i) = Y (V + i)) ->
    (forall i, 0 <= i < sf -> SB.shadow (FP.converter inp) i = Y (V + off - sf + i)) ->
    (forall i, 0 <= i < b + cf -> SB.shadow (FP.converter outp) (o + i) = Y (W + i)) ->
    exists conv' inp' outp' calls log,
      BC.converter_loop callback fuel S tt conv
        = (Some (inr 0), tt, conv', calls, log) /\
      Forall (inprocess_returns_at Bd) calls /\
      BC.InPorts conv' = [inp'] /\ BC.OutPorts conv' = [outp'] /\
      BC.dst_frames conv' = C /\ BC.silence_prefil conv' = BC.silence_prefil conv /\
      in_step_with C ((sf + S - off) mod C) 0 inp' /\
      out_step_with C b o (cf + Z.of_nat n * C) outp' /\
      same_format (FP.converter inp) (FP.converter inp') /\
      same_format (FP.converter outp) (FP.converter outp') /\
      SB.port (FP.converter outp') = SB.port (FP.converter outp) /\
      (forall i, 0 <= i < (sf + S - off) mod C ->
         SB.shadow (FP.converter inp') i = Y (V + S - (sf + S - off) mod C + i)) /\
      (forall i, 0 <= i < b + cf + Z.of_nat n * C ->
         SB.shadow (FP.converter outp') (o + i) = Y (W + i)).
Proof.
  induction n as [|n IH];
    intros fuel conv inp outp sf off cf Hfuel Ho0 HBd Hin Hout Hdst Hinp Houtp Hsf Hoff Hdiv
      Hb Hcf Ho Hbound Hpos Hf Hnull Hss Hport Hshin Hshout;
    (destruct fuel as [|fuel]; [lia|]); cbn [BC.converter_loop]; rewrite Hin;
    unfold BC.next; cbn [BC.next_loop].
  - (* fewer than [C] frames are at hand *)
    assert (Hlt : sf + S - off < C).
    { apply Z.div_small_iff in Hdiv; lia. }
    destruct (next_in_pending_data C S sf off f inp Hinp HC Hsum Hsf Hoff Hlt Hf Hnull)
      as (inp' & Hnext & Hinp' & Hfmt & Hprt & Hsh).
    rewrite Hnext. change (0 <? 0) with false. change (0 <? 1) with true. cbn iota.
    change (0 >=? 1) with false. cbn iota.
    exists (BC.set_InPorts conv [inp']), inp', outp, [], ([] ++ []).
    split; [reflexivity|]. split; [constructor|].
    cbn [BC.set_InPorts BC.InPorts BC.OutPorts BC.dst_frames BC.silence_prefil].
    rewrite Z.mod_small by lia.
    split; [reflexivity|]. split; [exact Hout|]. split; [exact Hdst|].
    split; [reflexivity|]. split; [exact Hinp'|].
    split; [rewrite Z.mul_0_l, Z.add_0_r; exact Houtp|].
    split; [exact Hfmt|]. split; [apply same_format_refl|]. split; [reflexivity|].
    split.
    + intros i Hi. rewrite Hsh. unfold in_range.
      destruct (Z.leb_spec sf i) as [L|L]; destruct (Z.ltb_spec i (sf + (S - off))) as [L'|L'];
        cbn [andb]; try lia.
      * rewrite Hport by lia. f_equal. lia.
      * rewrite Hshin by lia. f_equal. lia.
    + intros i Hi. apply Hshout. lia.
  - (* a full client period is at hand *)
    assert (Hge : C <= sf + S - off).
    { destruct (Z.lt_ge_cases (sf + S - off) C) as [Hlt|]; [|assumption].
      rewrite Z.div_small in Hdiv by lia. lia. }
    destruct (next_in_ready_data C S sf off f inp Hinp HC Hsum Hsf Hoff Hge Hf Hnull)
      as (inp1 & Hnext & Hinp1 & Hfmt & Hprt & Hsh).
    rewrite Hnext. change (1 <? 0) with false. change (1 <? 1) with false. cbn iota.
    change (1 >=? 1) with true. cbn iota.
    destruct Hinp1 as (Hc1 & Hd1 & Hsf1 & Hoff1).
    destruct Houtp as (Hc2 & Hd2 & Hsf2 & Hso2 & Hcf2).
    rewrite Nat2Z.inj_succ in Hbound.
    change (BC.dst_frames (BC.set_InPorts conv [inp1])) with (BC.dst_frames conv).
    rewrite Hdst.
    assert (Hss1 : shadows_present inp1 outp).
    { apply (shadows_present_format inp outp); [exact Hfmt | apply same_format_refl | exact Hss]. }
    assert (Hcopy := inprocess_copies C tt (BC.set_InPorts conv [inp1]) inp1 [] outp []
                       eq_refl Hout Hc1 Hd1 Hc2 Hd2 Hss1).
    rewrite (Hagree _ _ _ Hcopy).
    change (0 <? 0) with false. cbn iota.
    cbn [BC.set_OutPorts BC.set_InPorts BC.InPorts BC.OutPorts BC.dst_frames map].
    set (outp1 := FP.update_client_frames _).
    assert (Hslot : FP.free_slot outp = o + b + cf).
    { unfold FP.free_slot. rewrite Hsf2, Hso2, Hcf2.
      rewrite (u32_small (o + b)) by (unfold is_u32; nia).
      apply u32_small. unfold is_u32. nia. }
    assert (Houtp1 : out_step_with C b o (cf + C) outp1).
    { subst outp1. unfold FP.update_client_frames. cbn [FP.set_converter FP.cls].
      rewrite Hc2. unfold FP.update_client_frames_out, out_step_with.
      cbn [FP.set_converter FP.set_client_frames FP.cls FP.dst_frames FP.shadow_frames
             FP.shadow_offset FP.client_frames].
      rewrite Hcf2, Hd2, u32_small by (unfold is_u32; nia). tauto. }
    assert (Hconv1 : FP.converter outp1
                     = SB.set_shadow (FP.converter outp)
                         (memcpy (SB.shadow (FP.converter outp)) (FP.free_slot outp)
                            (SB.shadow (FP.converter inp1)) 0 C)).
    { subst outp1. unfold FP.update_client_frames. cbn [FP.set_converter FP.cls].
      rewrite Hc2. reflexivity. }
    match goal with
    | |- context [BC.converter_loop _ fuel S tt ?c] => set (conv3 := c)
    end.
    assert (Hz : o = 0) by (apply Ho0; lia).
    destruct (IH fuel conv3 inp1 outp1 0 (off + C - sf) (cf + C))
      as (conv' & inp' & outp' & calls & log & Hloop & Hcalls & Hin' & Hout' & Hdst' & Hpre' &
          Hinp' & Houtp' & Hfmt1 & Hfmt2 & Hprt2 & Hshin' & Hshout');
      try reflexivity; try assumption; try lia.
    + repeat split; assumption.
    + replace (sf + S - off) with (0 + S - (off + C - sf) + 1 * C) in Hdiv by lia.
      rewrite Z.div_add in Hdiv by lia. lia.
    + apply (from_jack_by_format _ _ f Hfmt Hf).
    + rewrite Hprt. exact Hnull.
    + apply (shadows_present_format inp1 outp); [apply same_format_refl | | exact Hss1].
      rewrite Hconv1. repeat split.
    + intros i Hi. rewrite Hprt. apply Hport. exact Hi.
    + intros i Hi. rewrite Hconv1. cbn [SB.set_shadow SB.shadow].
      rewrite memcpy_at, Hslot. unfold in_range.
      destruct (Z.leb_spec (o + b + cf) (o + i)) as [L|L];
        destruct (Z.ltb_spec (o + i) (o + b + cf + C)) as [L'|L']; cbn [andb]; try lia.
      * rewrite Hsh. unfold in_range.
        destruct (Z.leb_spec sf (0 + (o + i - (o + b + cf)))) as [M|M];
          destruct (Z.ltb_spec (0 + (o + i - (o + b + cf))) (sf + (C - sf))) as [M'|M'];
          cbn [andb]; try lia.
        -- rewrite Hport by lia. f_equal. lia.
        -- rewrite Hshin by lia. f_equal. lia.
      * apply Hshout. lia.
    + rewrite Hloop.
      exists conv', inp', outp'. do 2 eexists. split; [reflexivity|].
      split.
      { constructor; [|exact Hcalls]. split.
        - cbn [BC.inv_nframes BC.inv_state BC.set_InPorts BC.dst_frames].
          rewrite Hcopy. discriminate.
        - unfold slots_below. cbn [BC.inv_state BC.set_InPorts BC.OutPorts].
          rewrite Hout. constructor; [|constructor].
          rewrite Hslot, Hso2, Hsf2, Hcf2, Hd2. repeat split; lia. }
      split; [exact Hin'|]. split; [exact Hout'|]. split; [exact Hdst'|].
      split; [exact Hpre'|].
      replace (sf + S - off) with (0 + S - (off + C - sf) + 1 * C) by lia.
      rewrite Z.mod_add by lia.
      split; [exact Hinp'|].
      split; [replace (cf + Z.of_nat (Datatypes.S n) * C) with (cf + C + Z.of_nat n * C)
                by lia; exact Houtp'|].
      split; [exact (same_format_trans _ _ _ Hfmt Hfmt1)|].
      split.
      { apply (same_format_trans _ (FP.converter outp1)); [|exact Hfmt2].
        rewrite Hconv1. repeat split. }
      split; [rewrite Hprt2, Hconv1; reflexivity|].
      split; [exact Hshin'|].
      intros i Hi. apply Hshout'. lia.
Qed.

End DelayLine.

Section DelayCycle.

Variable callback : jack_nframes_t -> unit -> BC.t -> Z * unit * BC.t.
Hypothesis Hagree :
  forall n conv r, InprocessPeriod.inprocess n tt conv = Some r -> callback n tt conv = r.

Variables C S P : jack_nframes_t.
Variables f g Y : Z -> Z.
Hypothesis HC : 0 < C.
Hypothesis HS : 0 < S.
Hypothesis Hsum : S + C < 2 ^ 32.
Hypothesis HP : P <= C.

Lemma converter_delay (fuel : nat) (m : Z) (conv : BC.t) (c : BC.cycle) :
  (Z.to_nat (S / C) + 2 <= fuel)%nat ->
  delay_state C S P f g Y m conv ->
  cycle_feeds S f Y (P + m * S) c ->
  exists out outp',
    BC.converter callback fuel S tt (BC.begin_cycle conv c) = Some out /\
    Forall (inprocess_returns_at (P + S)) (BC.out_calls out) /\
    BC.out_ret out = 0 /\ BC.out_arg out = tt /\
    delay_state C S P f g Y (m + 1) (BC.out_conv out) /\
    BC.OutPorts (BC.out_conv out) = [outp'] /\
    forall i, 0 <= i < S ->
      port_data (SB.port (FP.converter outp')) i = g (Y (m * S + i)).
Proof.
  intros Hfuel (inp & outp & a & o & Hin & Hout & Hdst & Hreach & Ho & Hext & Ho0 &
                Hinp & Houtp & Hf & Hg & Hss & Hshin & Hshout)
    (pin & pout & -> & Hpin & Hpout & Hfeed).
  destruct Hreach as [Ha Hcase].
  assert (Hreach : in_reach C S P a) by (split; assumption).
  assert (Hn : 0 <= (a + S) / C <= S / C + 1).
  { split; [apply Z.div_pos; lia|].
    replace (a + S) with (a + S - C + 1 * C) by lia. rewrite Z.div_add by lia.
    assert ((a + S - C) / C <= S / C) by (apply Z.div_le_mono; lia). lia. }
  destruct (reach_enough C S P a HC HS Hreach) as [Hbal Hpos].
  destruct (reach_step C S P a HC HS Hreach) as [Ha' Hcase'].
  pose proof (Z.div_mod (a + S) C ltac:(lia)) as Hdm.
  pose proof (Z.mod_pos_bound (a + S) C HC) as Hmod.
  set (k := (a + S) / C) in *. set (a' := (a + S) mod C) in *.
  assert (Hk0 : 1 <= k -> o = 0) by (intros Hk; apply Ho0; nia).
  set (inp0 := BC.refresh_port inp pin). set (outp0 := BC.refresh_port outp pout).
  assert (Hbegin : BC.begin_cycle conv ([pin], [pout])
                   = BC.set_OutPorts (BC.set_InPorts conv [inp0]) [outp0]).
  { unfold BC.begin_cycle. cbn [fst snd]. rewrite Hin, Hout. reflexivity. }
  rewrite Hbegin.
  destruct (converter_loop_delay callback Hagree C S f Y HC Hsum (P + m * S) (m * S)
              (P - a) o (P + S)
              (Z.to_nat k) fuel (BC.set_OutPorts (BC.set_InPorts conv [inp0]) [outp0])
              inp0 outp0 a 0 0)
    as (conv' & inp' & outp' & calls & log & Hloop & Hcalls & Hin' & Hout' & Hdst' & Hpre' &
        Hinp' & Houtp' & Hfmt1 & Hfmt2 & Hprt2 & Hshin' & Hshout');
    try reflexivity; try assumption; try lia.
  - rewrite Z2Nat.id by lia. rewrite Z.sub_0_r. reflexivity.
  - intros i Hi. replace (P + m * S + 0 - a + i) with (m * S + P - a + i) by lia.
    apply Hshin. exact Hi.
  - intros i Hi. apply Hshout. lia.
  - rewrite Z2Nat.id in * by lia. rewrite Z.add_0_l in *.
    replace (a + S - 0) with (a + S) in * by lia. fold a' in Hinp', Hshin'.
    destruct (next_out_drain_data C S (P - a) o (k * C) g outp' Houtp')
      as (outp'' & Hnext & Houtp'' & Hfmt3 & Hbuf & Hdata & Hrest);
      try lia; try nia.
    { apply (to_jack_by_format (FP.converter outp0)); [exact Hfmt2|exact Hg]. }
    { rewrite Hprt2. exact Hpout. }
    cbv zeta in Houtp'', Hrest.
    replace (P - a + k * C - S) with (P - a') in * by lia.
    unfold BC.converter. rewrite Hloop, Hout'. unfold BC.next. cbn [BC.next_loop].
    rewrite Hnext. change (1 <? 0) with false. change (1 <? 1) with false. cbn iota.
    eexists. exists outp''. split; [reflexivity|].
    cbn [BC.out_ret BC.out_arg BC.out_conv BC.out_calls BC.set_OutPorts BC.OutPorts
           BC.InPorts BC.dst_frames].
    split; [exact Hcalls|].
    split; [reflexivity|]. split; [reflexivity|]. split; [|split; [reflexivity|]].
    + exists inp', outp'', a', (if P - a' <=? S then 0 else o + S).
      split; [exact Hin'|]. split; [reflexivity|]. split; [exact Hdst'|].
      split; [split; assumption|].
      split; [destruct (P - a' <=? S); lia|].
      split.
      { destruct (Z.leb_spec (P - a') S); [lia|].
        destruct (Z.eq_dec k 0) as [E|E]; [rewrite E in *; lia|].
        rewrite Hk0 by lia. lia. }
      split.
      { intros Hle. destruct (Z.leb_spec (P - a') S); [reflexivity | lia]. }
      split; [exact Hinp'|]. split; [exact Houtp''|].
      split; [apply (from_jack_by_format (FP.converter inp0)); [exact Hfmt1 | exact Hf]|].
      split.
      { apply (to_jack_by_format (FP.converter outp0));
          [exact (same_format_trans _ _ _ Hfmt2 Hfmt3) | exact Hg]. }
      split.
      { apply (shadows_present_format inp0 outp0);
          [exact Hfmt1 | exact (same_format_trans _ _ _ Hfmt2 Hfmt3) | exact Hss]. }
      split.
      * intros i Hi. rewrite Hshin' by exact Hi. f_equal. lia.
      * intros i Hi. rewrite Hrest by exact Hi.
        replace (o + S + i) with (o + (S + i)) by lia.
        rewrite Hshout' by lia. f_equal. lia.
    + intros i Hi. rewrite Hdata. rewrite in_range_true by lia.
      rewrite Hshout' by lia. reflexivity.
Qed.

End DelayCycle.

Section DelayRun.

Variable callback : jack_nframes_t -> unit -> BC.t -> Z * unit * BC.t.
Hypothesis Hagree :
  forall n conv r, InprocessPeriod.inprocess n tt conv = Some r -> callback n tt conv = r.

Variables C S P : jack_nframes_t.
Variables f g Y : Z -> Z.
Hypothesis HC : 0 < C.
Hypothesis HS : 0 < S.
Hypothesis Hsum : S + C < 2 ^ 32.
Hypothesis HP : P <= C.

Lemma run_delay (fuel : nat) :
  (Z.to_nat (S / C) + 2 <= fuel)%nat ->
  forall (cycles : list BC.cycle) (m : Z) (conv : BC.t),
    delay_state C S P f g Y m conv ->
    (forall j c, nth_error cycles j = Some c ->
                 cycle_feeds S f Y (P + (m + Z.of_nat j) * S) c) ->
    exists rs conv',
      BC.run callback fuel S cycles tt conv = Some (rs, tt, conv') /\
      Forall (fun r => fst r = 0 /\ Forall (inprocess_returns_at (P + S)) (snd r)) rs /\
      delay_state C S P f g Y (m + Z.of_nat (List.length cycles)) conv' /\
      (cycles <> [] ->
       exists outp',
         BC.OutPorts conv' = [outp'] /\
         forall i, 0 <= i < S ->
           port_data (SB.port (FP.converter outp')) i
           = g (Y ((m + Z.of_nat (List.length cycles) - 1) * S + i))).
Proof.
  intros Hfuel. induction cycles as [|c cycles IH]; intros m conv Hst Hfeed.
  - exists [], conv. split; [reflexivity|]. split; [constructor|].
    cbn [List.length Z.of_nat]. rewrite Z.add_0_r. split; [exact Hst | congruence].
  - destruct (converter_delay callback Hagree C S P f g Y HC HS Hsum HP fuel m conv c
                Hfuel Hst)
      as (out & outp1 & Hconv & Hcalls & Hret & Harg & Hst' & Hout1 & Hdata1).
    { specialize (Hfeed O c eq_refl). cbn [Z.of_nat] in Hfeed.
      rewrite Z.add_0_r in Hfeed. exact Hfeed. }
    destruct (IH (m + 1) (BC.out_conv out) Hst') as (rs & conv' & Hrun & Hall & Hfin & Hlast).
    { intros j c' Hj. specialize (Hfeed (Datatypes.S j) c' Hj).
      rewrite Nat2Z.inj_succ in Hfeed.
      replace (m + 1 + Z.of_nat j) with (m + Z.succ (Z.of_nat j)) by lia. exact Hfeed. }
    exists ((BC.out_ret out, BC.out_calls out) :: rs), conv'.
    cbn [BC.run]. rewrite Hconv, Harg, Hrun.
    split; [reflexivity|].
    split; [constructor; [split; [exact Hret | exact Hcalls] | exact Hall]|].
    cbn [List.length]. rewrite Nat2Z.inj_succ.
    replace (m + Z.succ (Z.of_nat (List.length cycles)))
      with (m + 1 + Z.of_nat (List.length cycles)) by lia.
    split; [exact Hfin|]. intros _.
    destruct cycles as [|c2 cycles].
    + cbn [BC.run] in Hrun. injection Hrun as <- <-.
      exists outp1. split; [exact Hout1|]. intros i Hi.
      cbn [List.length Z.of_nat]. rewrite Hdata1 by exact Hi. do 2 f_equal. lia.
    + apply Hlast. discriminate.
Qed.

End DelayRun.

Lemma period_pair_state C S dst_type pin pout si so ui uo conv Y :
  0 <= si -> 0 <= so ->
  0 < C -> 0 < S -> C < 2 ^ 32 ->
  dst_type = JACK_PORT_CONV_FMT_DEFAULT \/ dst_type = JACK_PORT_CONV_FMT_INT32 ->
  0 <= port_flags pin -> Z.land (port_flags pin) JackPortIsOutput = 0 ->
  0 <= port_flags pout -> Z.land (port_flags pout) JackPortIsOutput <> 0 ->
  period_pair C S dst_type pin pout si so ui uo = Some conv ->
  (forall u, 0 <= u < BC.silence_prefil conv -> Y u = 0) ->
  BC.silence_prefil conv <= C /\
  delay_state C S (BC.silence_prefil conv) (from_jack_sample dst_type)
    (to_jack_sample dst_type) Y 0 conv.
Proof.
  intros Hsi Hso HC HS HC32 Htype Hfi Hli Hfo Hlo Hpair HY.
  pose proof (GET_32BYTE_ALIGN_BUFFER_bounds si) as Hbi.
  pose proof (GET_32BYTE_ALIGN_BUFFER_bounds so) as Hbo.
  assert (Hpres : forall ci co,
            SB.aligned_buffer (FP.converter ci) = GET_32BYTE_ALIGN_BUFFER si ->
            SB.aligned_buffer (FP.converter co) = GET_32BYTE_ALIGN_BUFFER so ->
            SB.sample_size (FP.converter co) = 4 -> shadows_present ci co).
  { intros ci co E1 E2 E3. unfold shadows_present. rewrite E1, E2, E3. lia. }
  unfold period_pair, BC.create in Hpair.
  destruct (BC.calculate_silence_prefill C S) as [P|] eqn:Hcalc; [|discriminate].
  pose proof (calculate_silence_prefill_range C S P ltac:(unfold is_u32; lia) ltac:(lia) Hcalc)
    as HPr.
  pose proof (prefill_reach C S P HC HS HC32 Hcalc) as Hreach.
  cbn [negb] in Hpair.
  unfold jack_port_create_convert, jack_port_flags in Hpair.
  apply Z.ltb_ge in Hfi, Hfo. apply Z.eqb_eq in Hli. apply Z.eqb_neq in Hlo.
  destruct Htype as [-> | ->];
    cbn [Z.eqb JACK_PORT_CONV_FMT_DEFAULT JACK_PORT_CONV_FMT_INT32 JACK_PORT_CONV_FMT_INT16
           Pos.eqb] in Hpair;
    rewrite Hfi, Hli in Hpair; cbn [negb] in Hpair;
    rewrite Hfo, Hlo in Hpair; cbn [negb] in Hpair;
    injection Hpair as <-;
    unfold BC.add in HY |- *; rewrite Hli, Hlo in HY |- *; cbn [negb] in HY |- *;
    cbn [BC.set_InPorts BC.set_OutPorts BC.InPorts BC.OutPorts BC.dst_frames
           BC.silence_prefil app] in *;
    (split; [lia|]);
    eexists _, _, P, 0;
    (split; [reflexivity|]); (split; [reflexivity|]); (split; [reflexivity|]);
    (split; [exact Hreach|]); (split; [lia|]); (split; [lia|]); (split; [reflexivity|]);
    (split; [repeat split|]); (split; [rewrite Z.sub_diag; repeat split|]).
  - split; [intros b; reflexivity|]. split; [intros b; reflexivity|].
    split; [apply Hpres; reflexivity|]. split.
    + intros i Hi.
      cbn [FP.create_in FP.converter SB.silence_shadow SB.set_shadow SB.shadow SB.create
             SB.create_integer].
      unfold memset0.
      replace ((0 <=? i) && (i <? P)) with true
        by (symmetry; apply andb_true_iff; split; [apply Z.leb_le | apply Z.ltb_lt]; lia).
      symmetry. apply HY. lia.
    + intros i Hi. lia.
  - split; [apply sample_move_d32_sS_pointwise|].
    split; [apply sample_move_dS_s32_pointwise|].
    split; [apply Hpres; reflexivity|]. split.
    + intros i Hi.
      cbn [FP.create_in FP.converter SB.silence_shadow SB.set_shadow SB.shadow SB.create
             SB.create_integer].
      unfold memset0.
      replace ((0 <=? i) && (i <? P)) with true
        by (symmetry; apply andb_true_iff; split; [apply Z.leb_le | apply Z.ltb_lt]; lia).
      symmetry. apply HY. lia.
    + intros i Hi. lia.
Qed.

Lemma server_input_feeds S P f cycles :
  0 < S -> 0 <= P -> Forall usable_cycle cycles ->
  forall j c, nth_error cycles j = Some c ->
    cycle_feeds S f (client_stream P f (server_input S cycles)) (P + (0 + Z.of_nat j) * S) c.
Proof.
  intros HS HP Hall j c Hj.
  assert (Hc : usable_cycle c).
  { rewrite Forall_forall in Hall. apply Hall. eapply nth_error_In. exact Hj. }
  destruct Hc as (pin & pout & -> & Hpin & Hpout).
  exists pin, pout. repeat split; try assumption.
  intros i Hi. unfold client_stream.
  destruct (Z.ltb_spec (P + (0 + Z.of_nat j) * S + i) P) as [L|L]; [nia|].
  f_equal. unfold server_input.
  replace (P + (0 + Z.of_nat j) * S + i - P) with (i + Z.of_nat j * S) by lia.
  rewrite Z.div_add, Z.mod_add by lia.
  rewrite Z.div_small, Z.mod_small by lia. rewrite Z.add_0_l, Nat2Z.id, Hj.
  reflexivity.
Qed.

(** X16.  The example client behind period adapters is a delay line of
    [silence_prefil] frames.  With one input and one output port of the
    default or the [int32_t] format, shadow buffers of [BUFFER_SIZE_MAX]
    frames that hold [silence_prefil + S] frames, and a server that offers
    both buffers in every cycle: [inprocess] returns 0 at every invocation,
    its slot of the output shadow buffer ends at or before frame
    [BUFFER_SIZE_MAX], the client period it reads from frame 0 of the input
    shadow buffer is at most [BUFFER_SIZE_MAX], and the frames the server
    finds in the output buffer
    after any number of process callbacks are [silence_prefil] frames of
    silence followed by the frames it delivered, each passed through the two
    sample conversions.  The client is any callback that does what
    [inprocess] does wherever [inprocess] returns. *)
Theorem period_adaptation_delay_line
  (callback : jack_nframes_t -> unit -> BC.t -> Z * unit * BC.t)
  (C S BUFFER_SIZE_MAX : jack_nframes_t) (dst_type : Z) (pin pout : jack_port_t)
  (storage_in storage_out : Z) (u_in u_out : samples)
  (conv : BC.t) (cycles : list BC.cycle) (fuel : nat) :
  (forall n conv r, InprocessPeriod.inprocess n tt conv = Some r -> callback n tt conv = r) ->
  0 < C -> 0 < S -> S + C < 2 ^ 32 ->
  dst_type = JACK_PORT_CONV_FMT_DEFAULT \/ dst_type = JACK_PORT_CONV_FMT_INT32 ->
  0 <= storage_in -> 0 <= storage_out ->
  0 <= port_flags pin -> Z.land (port_flags pin) JackPortIsOutput = 0 ->
  0 <= port_flags pout -> Z.land (port_flags pout) JackPortIsOutput <> 0 ->
  period_pair C S dst_type pin pout storage_in storage_out u_in u_out = Some conv ->
  BC.silence_prefil conv + S <= BUFFER_SIZE_MAX ->
  Forall usable_cycle cycles -> cycles <> [] ->
  (Z.to_nat (S / C) + 2 <= fuel)%nat ->
  exists rs conv' outp',
    BC.run callback fuel S cycles tt conv = Some (rs, tt, conv') /\
    Forall (fun r => fst r = 0 /\
                     Forall (inprocess_returns_at BUFFER_SIZE_MAX) (snd r)) rs /\
    C <= BUFFER_SIZE_MAX /\
    BC.OutPorts conv' = [outp'] /\
    forall i, 0 <= i < S ->
      port_data (SB.port (FP.converter outp')) i
      = to_jack_sample dst_type
          (client_stream (BC.silence_prefil conv) (from_jack_sample dst_type)
             (server_input S cycles) ((Z.of_nat (List.length cycles) - 1) * S + i)).
Proof.
  intros Hagree HC HS Hsum Htype Hsi Hso Hfi Hli Hfo Hlo Hpair Hcap Hcycles Hne Hfuel.
  set (P := BC.silence_prefil conv) in *.
  set (Y := client_stream P (from_jack_sample dst_type) (server_input S cycles)).
  destruct (period_pair_state C S dst_type pin pout storage_in storage_out u_in u_out conv Y)
    as [HP Hst]; try assumption; try lia.
  { intros u Hu. unfold Y, client_stream. fold P in Hu.
    destruct (Z.ltb_spec u P); [reflexivity | lia]. }
  fold P in HP, Hst.
  assert (HP0 : 0 <= P /\ C <= P + S).
  { destruct Hst as (_ & _ & a & _ & _ & _ & _ & Hreach & _).
    pose proof (in_reach_period C S P a HC HS Hreach) as Hper.
    destruct Hreach as [Ha _]. lia. }
  destruct HP0 as [HP0 Hper].
  destruct (run_delay callback Hagree C S P _ _ Y HC HS Hsum HP fuel Hfuel cycles 0 conv Hst)
    as (rs & conv' & Hrun & Hall & _ & Hlast).
  { apply server_input_feeds; assumption. }
  destruct (Hlast Hne) as (outp' & Hout & Hdata).
  exists rs, conv', outp'.
  split; [exact Hrun|]. split; [|split; [lia | split; [exact Hout | exact Hdata]]].
  revert Hall. apply Forall_impl. intros r [Hr Hcalls]. split; [exact Hr|].
  revert Hcalls. apply Forall_impl. intros call [Hdef Hslots]. split; [exact Hdef|].
  revert Hslots. unfold slots_below. apply Forall_impl.
  intros p (H1 & H2 & H3 & H4). repeat split; try assumption. lia.
Qed.

(** ** Creating aggregators and converters *)

(** X4.  [jack_buffer_create_convert] returns [NULL] exactly when the
    constructor throws (argument [NULL], or the process callback not
    registered); otherwise the aggregator has the client period, the silence
    prefill of [calculate_silence_prefill], at most one client period, and no
    adapter yet. *)
Theorem jack_buffer_create_convert_fresh (S C : jack_nframes_t) (arg_is_null registered : bool) :
  0 < C < 2 ^ 32 -> 0 < S ->
  match jack_buffer_create_convert S arg_is_null registered C with
  | None => arg_is_null = true \/ registered = false
  | Some conv =>
      arg_is_null = false /\ registered = true /\
      BC.dst_frames conv = C /\
      BC.calculate_silence_prefill C S = Some (BC.silence_prefil conv) /\
      0 <= BC.silence_prefil conv <= C /\
      BC.InPorts conv = [] /\ BC.OutPorts conv = [] /\
      fresh conv /\ fresh_outputs conv
  end.
Proof.
  intros HC HS. unfold jack_buffer_create_convert, BC.create.
  destruct (BC.calculate_silence_prefill C S) as [P|] eqn:E.
  - pose proof (calculate_silence_prefill_range C S P ltac:(unfold is_u32; lia) ltac:(lia) E)
      as HP.
    destruct arg_is_null; [left; reflexivity|].
    destruct registered; cbn [negb]; [|right; reflexivity].
    cbn [BC.dst_frames BC.silence_prefil BC.InPorts BC.OutPorts].
    unfold fresh, fresh_outputs.
    cbn [BC.dst_frames BC.silence_prefil BC.InPorts BC.OutPorts].
    repeat split; try lia; try constructor.
  - exfalso. unfold BC.calculate_silence_prefill, BC.umod in E.
    destruct (S >? C).
    + destruct (Z.eqb_spec C 0); [lia|]. destruct (S mod C =? 0); discriminate.
    + destruct (S <? C); [|discriminate].
      destruct (Z.eqb_spec S 0); [lia|]. destruct (C mod S =? 0); discriminate.
Qed.

Lemma add_fresh_outputs conv p flags :
  fresh_outputs conv ->
  ((Z.land flags JackPortIsOutput =? 0) = false ->
   out_step_with (BC.dst_frames conv) 0 0 0 p) ->
  fresh_outputs (BC.add conv p flags).
Proof.
  intros Hout Hnew. unfold BC.add, fresh_outputs in *.
  destruct (Z.land flags JackPortIsOutput =? 0); cbn [negb].
  - exact Hout.
  - cbn. apply Forall_app. split; [exact Hout|].
    constructor; [apply Hnew; reflexivity | constructor].
Qed.

Lemma jack_port_create_convert_fresh_outputs port dst_type ios conv storage un h conv' log :
  fresh_outputs conv ->
  jack_port_create_convert port dst_type ios (Some conv) storage un = (h, Some conv', log) ->
  fresh_outputs conv'.
Proof.
  intros Hf. unfold jack_port_create_convert.
  assert (Hwrap : forall fc,
    (if jack_port_flags port <? 0 then (None, Some conv, [msg_flags])
     else (Some (Frames
             (if negb (Z.land (jack_port_flags port) JackPortIsOutput =? 0)
              then FP.create_out fc (BC.dst_frames conv)
              else FP.create_in fc (BC.dst_frames conv) (BC.silence_prefil conv))),
           Some (BC.add conv
             (if negb (Z.land (jack_port_flags port) JackPortIsOutput =? 0)
              then FP.create_out fc (BC.dst_frames conv)
              else FP.create_in fc (BC.dst_frames conv) (BC.silence_prefil conv))
             (jack_port_flags port)), []))
    = (h, Some conv', log) ->
    fresh_outputs conv').
  { intros fc. destruct (jack_port_flags port <? 0).
    - intros [= _ <- _]. exact Hf.
    - intros [= _ <- _]. apply add_fresh_outputs; [exact Hf|]. intros ->. cbn [negb].
      repeat split. }
  destruct (dst_type =? JACK_PORT_CONV_FMT_DEFAULT); [apply Hwrap|].
  destruct (dst_type =? JACK_PORT_CONV_FMT_INT32); [apply Hwrap|].
  destruct (dst_type =? JACK_PORT_CONV_FMT_INT16); [apply Hwrap|].
  intros [= _ <- _]. exact Hf.
Qed.

(** X6.  Called with an aggregator, [jack_port_create_convert] leaves the
    client period and the silence prefill alone and keeps every adapter in
    its initial state, whatever the format and the port flags are: port after
    port can be registered before the first process callback. *)
Theorem factory_keeps_fresh (port : jack_port_t) (dst_type : Z)
  (init_output_silence : bool) (conv : BC.t) (storage : Z) (uninitialised : samples) :
  fresh conv -> fresh_outputs conv ->
  exists h conv' log,
    jack_port_create_convert port dst_type init_output_silence (Some conv)
      storage uninitialised = (h, Some conv', log) /\
    fresh conv' /\ fresh_outputs conv' /\
    BC.dst_frames conv' = BC.dst_frames conv /\
    BC.silence_prefil conv' = BC.silence_prefil conv.
Proof.
  intros Hf Ho.
  destruct (jack_port_create_convert port dst_type init_output_silence (Some conv)
              storage uninitialised) as [[h iconv'] log] eqn:E.
  assert (Hs : exists conv', iconv' = Some conv').
  { revert E. unfold jack_port_create_convert.
    destruct (dst_type =? JACK_PORT_CONV_FMT_DEFAULT);
      [|destruct (dst_type =? JACK_PORT_CONV_FMT_INT32);
        [|destruct (dst_type =? JACK_PORT_CONV_FMT_INT16)]];
      try destruct (jack_port_flags port <? 0); intros [= _ <- _]; eexists; reflexivity. }
  destruct Hs as [conv' ->].
  exists h, conv', log. split; [reflexivity|].
  destruct (jack_port_create_convert_fresh _ _ _ _ _ _ _ _ _ Hf E) as (H1 & H2 & H3).
  pose proof (jack_port_create_convert_fresh_outputs _ _ _ _ _ _ _ _ _ Ho E) as H4.
  repeat split; assumption || apply H1.
Qed.

(** X7.  The C++ entry point [jack_port_create_converter] returns what
    [jack_port_create_convert] returns without an aggregator for the format
    of the type, also for a type that is not supported: never a period
    adapter. *)
Theorem jack_port_create_converter_plain (port : jack_port_t) (dst_type : type_info)
  (init_output_silence : bool) (storage : Z) (uninitialised : samples) :
  let '(h, iconv, log) :=
    jack_port_create_convert port (format_of_type dst_type) init_output_silence None
      storage uninitialised in
  jack_port_create_converter port dst_type init_output_silence storage uninitialised
  = (h, log) /\
  iconv = None /\
  (forall p, h <> Some (Frames p)).
Proof.
  destruct dst_type; cbn; repeat split; discriminate.
Qed.

(** X5.  [jack_port_create_convert] with an aggregator: an unsupported format
    or a failing [jack_port_flags] gives [NULL], one line of log and an
    unchanged aggregator; otherwise the handle is a period adapter over a
    converter of the format's sample size on the port, appended to the input
    list (with [silence_prefil] frames of silence pending) or to the output
    list (nothing pending, and the shadow buffer as allocated, whatever
    [init_output_silence] is) by the output bit of the flags. *)
Theorem jack_port_create_convert_registers (port : jack_port_t) (dst_type : Z)
  (init_output_silence : bool) (conv : BC.t) (storage : Z) (uninitialised : samples) :
  let '(h, iconv, log) :=
    jack_port_create_convert port dst_type init_output_silence (Some conv)
      storage uninitialised in
  if negb (supported_format dst_type) then
    h = None /\ iconv = Some conv /\ log = [msg_unsupported]
  else if port_flags port <? 0 then
    h = None /\ iconv = Some conv /\ log = [msg_flags]
  else
    exists p conv',
      h = Some (Frames p) /\ iconv = Some conv' /\ log = [] /\
      BC.dst_frames conv' = BC.dst_frames conv /\
      BC.silence_prefil conv' = BC.silence_prefil conv /\
      FP.dst_frames p = BC.dst_frames conv /\
      SB.sample_size (FP.converter p) = format_sample_size dst_type /\
      SB.aligned_buffer (FP.converter p) = GET_32BYTE_ALIGN_BUFFER storage /\
      SB.port (FP.converter p) = port /\
      if Z.land (port_flags port) JackPortIsOutput =? 0 then
        BC.InPorts conv' = BC.InPorts conv ++ [p] /\
        BC.OutPorts conv' = BC.OutPorts conv /\
        counters p = (FP.FramesIn, BC.dst_frames conv, BC.silence_prefil conv, 0, 0, 0) /\
        forall i, SB.shadow (FP.converter p) i =
                  if (0 <=? i) && (i <? BC.silence_prefil conv) then 0 else uninitialised i
      else
        BC.OutPorts conv' = BC.OutPorts conv ++ [p] /\
        BC.InPorts conv' = BC.InPorts conv /\
        counters p = (FP.FramesOut, BC.dst_frames conv, 0, 0, 0, 0) /\
        SB.shadow (FP.converter p) = uninitialised.
Proof.
  unfold jack_port_create_convert, supported_format, format_sample_size, jack_port_flags.
  destruct (Z.eqb_spec dst_type JACK_PORT_CONV_FMT_DEFAULT) as [->|H0].
  - cbn [orb negb Z.eqb JACK_PORT_CONV_FMT_DEFAULT JACK_PORT_CONV_FMT_INT16].
    destruct (port_flags port <? 0); [repeat split|].
    unfold BC.add.
    destruct (Z.land (port_flags port) JackPortIsOutput =? 0); cbn [negb];
      eexists _, _; repeat split.
  - destruct (Z.eqb_spec dst_type JACK_PORT_CONV_FMT_INT32) as [->|H2].
    + cbn [orb negb Z.eqb JACK_PORT_CONV_FMT_INT32 JACK_PORT_CONV_FMT_INT16 Pos.eqb].
      destruct (port_flags port <? 0); [repeat split|].
      unfold BC.add.
      destruct (Z.land (port_flags port) JackPortIsOutput =? 0); cbn [negb];
        eexists _, _; repeat split.
    + destruct (Z.eqb_spec dst_type JACK_PORT_CONV_FMT_INT16) as [->|H1].
      * cbn [orb negb].
        destruct (port_flags port <? 0); [repeat split|].
        unfold BC.add.
        destruct (Z.land (port_flags port) JackPortIsOutput =? 0); cbn [negb];
          eexists _, _; repeat split.
      * cbn [orb negb]. repeat split.
Qed.

(** X8.  Every sample of the shadow buffer with a frame number below
    [BUFFER_SIZE_MAX] lies inside the member array [buffer], of
    [BUFFER_SIZE_MAX + BUF_ALIGN_BYTES / sizeof(uint32_t)] words, for a sample
    of at most four bytes; the aligned start is past the start of the array by
    at most [BUF_ALIGN_BYTES]. *)
Theorem shadow_area_inside_storage (c : SB.t) (BUFFER_SIZE_MAX : Z) (i : Z) :
  constructed c ->
  0 < SB.sample_size c <= 4 -> 0 <= i < BUFFER_SIZE_MAX ->
  let first := SB.storage c in
  let size := 4 * (BUFFER_SIZE_MAX + BUF_ALIGN_BYTES / 4) in
  SB.storage c < SB.aligned_buffer c <= SB.storage c + BUF_ALIGN_BYTES /\
  first <= SB.get_shadow_buffer c i /\
  SB.get_shadow_buffer c i + SB.sample_size c <= first + size.
Proof.
  intros Hc Hss Hi first size. subst first size.
  unfold constructed in Hc. unfold SB.get_shadow_buffer. rewrite Hc.
  pose proof (GET_32BYTE_ALIGN_BUFFER_bounds (SB.storage c)) as Hb.
  change (BUF_ALIGN_BYTES / 4) with 8. unfold BUF_ALIGN_BYTES.
  split; [exact Hb|]. split; nia.
Qed.


(** X10.  Through the C API on the default format without an aggregator:
    [jack_port_convert_get] returns the server buffer itself.
    [jack_port_convert_set] with that very pointer copies nothing; with
    another pointer it copies [frames] samples into the server buffer.  It
    does not return exactly when it is given another pointer and the server
    has no buffer for the port or the pointer given is null: the [memcpy] then
    goes through a null pointer. *)
Theorem api_forward_zero_copy (port : jack_port_t) (init_output_silence : bool)
  (storage : Z) (uninitialised : samples) (src : source) (frames : jack_nframes_t) :
  let '(h, iconv, log) :=
    jack_port_create_convert port JACK_PORT_CONV_FMT_DEFAULT init_output_silence None
      storage uninitialised in
  let '(ptr, h1, log1) := jack_port_convert_get h frames in
  iconv = None /\ log = [] /\ log1 = [] /\ ptr = port_buffer port /\
  match jack_port_convert_set h1 src frames with
  | None =>
      src_ptr src <> ptr /\ (port_buffer port = NULL \/ src_ptr src = NULL)
  | Some (h2, log2) =>
      (src_ptr src = ptr \/ port_buffer port <> NULL /\ src_ptr src <> NULL) /\
      log2 = [] /\
      exists c, h2 = Some (Forward c) /\
        port_buffer (FW.port c) = port_buffer port /\
        forall i, port_data (FW.port c) i =
                  if negb (src_ptr src =? ptr) && in_range 0 frames i
                  then src_data src i else port_data port i
  end.
Proof.
  unfold jack_port_create_convert.
  cbn [Z.eqb JACK_PORT_CONV_FMT_DEFAULT].
  unfold jack_port_convert_get, IJackPortConverter_get, FW.get, FW.get_buffer,
    jack_port_get_buffer, FW.create.
  cbn [FW.port FW.buffer].
  unfold jack_port_convert_set, IJackPortConverter_set, FW.set, FW.get_buffer,
    jack_port_get_buffer.
  cbn [FW.port FW.buffer].
  repeat (split; [reflexivity|]).
  destruct (Z.eqb_spec (src_ptr src) (port_buffer port)) as [Hp|Hp]; cbn [negb andb].
  - split; [left; exact Hp|]. split; [reflexivity|].
    eexists. split; [reflexivity|]. split; reflexivity.
  - destruct (Z.eqb_spec (port_buffer port) NULL) as [Hb|Hb]; cbn [orb].
    + split; [exact Hp | left; exact Hb].
    + destruct (Z.eqb_spec (src_ptr src) NULL) as [Hs|Hs].
      * split; [exact Hp | right; exact Hs].
      * split; [right; split; assumption|]. split; [reflexivity|].
        eexists. split; [reflexivity|]. split; [reflexivity|]. intros i.
        cbn [FW.port set_port_data port_data]. unfold memcpy, in_range.
        replace (0 + (i - 0)) with i by lia. reflexivity.
Qed.

(** ** The result of the process callback *)

Lemma next_values p frames :
  let '(v, p', log) := FP.next p frames in
  ((v = 0 \/ v = 1) /\ log = []) \/ (v = - EINVAL /\ p' = p).
Proof.
  unfold FP.next. destruct (FP.cls p).
  - unfold FP.next_in, FP.append_from_jack.
    destruct (FP.shadow_frames p >? FP.dst_frames p); [right; split; reflexivity|].
    destruct (_ >=? FP.dst_frames p); left; split; auto.
  - unfold FP.next_out.
    destruct (FP.shadow_frames p >? _); [right; split; reflexivity|].
    left; split; auto.
Qed.

Lemma next_loop_result frames ports : forall result,
  result = 0 \/ result = 1 ->
  let '(r, ports', log) := BC.next_loop frames ports result in
  (r <= result /\ (r = 0 \/ r = 1) /\ log = [] /\
   Forall2 (stepped frames) ports ports' /\
   (r = 1 <-> result = 1 /\
              Forall (fun p => fst (fst (FP.next p frames)) = 1) ports)) \/
  (r = - EINVAL /\
   exists done p rest done' plog,
     ports = done ++ p :: rest /\ ports' = done' ++ p :: rest /\
     FP.next p frames = (- EINVAL, p, plog) /\ Forall2 (stepped frames) done done').
Proof.
  induction ports as [|p ports IH]; intros result Hres; cbn [BC.next_loop].
  - left. split; [lia|]. split; [lia|]. split; [reflexivity|]. split; [constructor|].
    split; [intros ->; split; [reflexivity | constructor] | intros [-> _]; reflexivity].
  - pose proof (next_values p frames) as Hv.
    destruct (FP.next p frames) as [[v p'] plog] eqn:E.
    destruct Hv as [[Hv ->]|[-> ->]].
    + assert (Hpos : (v <? 0) = false) by (apply Z.ltb_ge; lia). rewrite Hpos.
      specialize (IH (if v <? result then v else result)).
      assert (Hres' : (if v <? result then v else result) = 0 \/
                      (if v <? result then v else result) = 1).
      { destruct (v <? result); lia. }
      specialize (IH Hres').
      destruct (BC.next_loop frames ports _) as [[r rest'] log'].
      destruct IH as [(H1 & H2 & -> & H4 & H5)|(-> & done & q & rest & done' & qlog & A1 & A2 & A3 & A4)].
      * left.
        split; [destruct (Z.ltb_spec v result); lia|]. split; [exact H2|].
        split; [reflexivity|].
        split; [constructor; [exists v; split; [exact E | exact Hv] | exact H4]|].
        rewrite H5. split.
        -- intros [Hm Hall]. destruct (Z.ltb_spec v result); [lia|].
           split; [exact Hm|]. constructor; [|exact Hall]. rewrite E. cbn [fst]. lia.
        -- intros [-> Hall]. inversion Hall as [|? ? Hp Hrest]; subst.
           rewrite E in Hp. cbn [fst] in Hp. subst v.
           change (1 <? 1) with false. cbn iota. split; [reflexivity | exact Hrest].
      * right. split; [reflexivity|].
        exists (p :: done), q, rest, (p' :: done'), qlog.
        rewrite A1, A2. repeat split; try assumption.
        constructor; [exists v; split; [exact E | exact Hv] | exact A4].
    + change (- EINVAL <? 0) with true. cbn iota. right. split; [reflexivity|].
      exists [], p, ports, [], plog.
      split; [reflexivity|]. split; [reflexivity|]. split; [exact E | constructor].
Qed.

Lemma JackBufferConverter_next_result_aux (frames : jack_nframes_t) (ports : list FP.t) :
  let '(r, ports', log) := BC.next frames ports in
  (r = -1 /\ ports = [] /\ ports' = [] /\ log = [BC.msg_no_ports]) \/
  (ports <> [] /\ (r = 0 \/ r = 1) /\ log = [] /\
   Forall2 (stepped frames) ports ports' /\
   (r = 1 <-> Forall (fun p => fst (fst (FP.next p frames)) = 1) ports)) \/
  (r = - EINVAL /\
   exists done p rest done' plog,
     ports = done ++ p :: rest /\ ports' = done' ++ p :: rest /\
     FP.next p frames = (- EINVAL, p, plog) /\ Forall2 (stepped frames) done done').
Proof.
  unfold BC.next. destruct ports as [|p ports].
  - left. repeat split.
  - pose proof (next_loop_result frames (p :: ports) 1 (or_intror eq_refl)) as H.
    destruct (BC.next_loop frames (p :: ports) 1) as [[r ports'] log].
    destruct H as [(H1 & H2 & H3 & H4 & H5)|H].
    + right. left. split; [discriminate|]. split; [exact H2|]. split; [exact H3|].
      split; [exact H4|]. rewrite H5. tauto.
    + right. right. exact H.
Qed.

(** X11.  [JackBufferConverter::next] returns [-1] and logs on an empty list;
    [-EINVAL] as soon as an adapter refuses, the adapters behind it not
    advanced; otherwise it advances every adapter and returns [1] exactly when
    every adapter returned [1], else [0]. *)
Theorem JackBufferConverter_next_result (frames : jack_nframes_t) (ports : list FP.t) :
  let '(r, ports', log) := BC.next frames ports in
  (r = -1 /\ ports = [] /\ ports' = [] /\ log = [BC.msg_no_ports]) \/
  (ports <> [] /\ (r = 0 \/ r = 1) /\ log = [] /\
   Forall2 (stepped frames) ports ports' /\
   (r = 1 <-> Forall (fun p => fst (fst (FP.next p frames)) = 1) ports)) \/
  (r = - EINVAL /\
   exists done p rest done' plog,
     ports = done ++ p :: rest /\ ports' = done' ++ p :: rest /\
     FP.next p frames = (- EINVAL, p, plog) /\ Forall2 (stepped frames) done done').
Proof. exact (JackBufferConverter_next_result_aux frames ports). Qed.

Lemma next_log frames ports :
  let '(r, ports', log) := BC.next frames ports in
  (r = 0 \/ r = 1) /\ log = [] \/ r < 0.
Proof.
  pose proof (JackBufferConverter_next_result_aux frames ports) as H.
  destruct (BC.next frames ports) as [[r ports'] log].
  destruct H as [(-> & _)|[(_ & H & -> & _)|(-> & _)]].
  - right. lia.
  - left. split; [exact H | reflexivity].
  - right. unfold EINVAL. lia.
Qed.

Section Result.

Context {A : Type}.
Variable callback : jack_nframes_t -> A -> BC.t -> Z * A * BC.t.

Lemma converter_loop_result fuel frames :
  forall (arg : A) (conv : BC.t),
    let x := BC.converter_loop callback fuel frames arg conv in
    match loop_result x with
    | None => True
    | Some (inl v) =>
        v < 0 /\ exists calls call, loop_calls x = calls ++ [call] /\ BC.inv_ret call = v /\
                                   Forall (fun c => 0 <= BC.inv_ret c) calls
    | Some (inr v) =>
        v <= 0 /\ Forall (fun c => 0 <= BC.inv_ret c) (loop_calls x) /\
        (v = 0 -> snd x = [])
    end.
Proof.
  induction fuel as [|fuel IH]; intros arg conv x; subst x.
  - exact I.
  - cbn [BC.converter_loop].
    pose proof (next_log frames (BC.InPorts conv)) as Hlog.
    destruct (BC.next frames (BC.InPorts conv)) as [[ret ins] log].
    destruct (Z.geb_spec ret 1) as [Hret|Hret].
    + destruct (callback _ arg _) as [[cb_ret arg'] conv2].
      destruct (Z.ltb_spec cb_ret 0) as [Hcb|Hcb].
      * unfold loop_result, loop_calls. cbn [fst snd].
        split; [exact Hcb|]. exists []. eexists.
        split; [reflexivity|]. split; [reflexivity | constructor].
      * specialize (IH arg' (BC.set_OutPorts conv2
                               (map FP.update_client_frames (BC.OutPorts conv2)))).
        destruct (BC.converter_loop callback fuel frames arg' _)
          as [[[[r a] c] calls] log'].
        unfold loop_result, loop_calls in *. cbn [fst snd] in *.
        destruct Hlog as [[_ ->]|Hneg]; [|lia].
        destruct r as [[v|v]|]; [| |exact I].
        -- destruct IH as (Hv & calls0 & call & -> & Hc & Hall).
           split; [exact Hv|]. eexists (_ :: calls0). exists call.
           split; [reflexivity|]. split; [exact Hc|].
           constructor; [exact Hcb | exact Hall].
        -- destruct IH as (Hv & Hall & Hnil).
           split; [exact Hv|]. split; [constructor; [exact Hcb | exact Hall]|].
           exact Hnil.
    + unfold loop_result, loop_calls. cbn [fst snd].
      split; [lia|]. split; [constructor|].
      intros ->. destruct Hlog as [[_ ->]|Hneg]; [reflexivity | lia].
Qed.

End Result.

(** X12.  The process callback [converter] never returns a positive value.
    When it returns [0] nothing was logged and no client invocation failed;
    and a failed client invocation is the last one, its value the result. *)
Theorem converter_result {A : Type}
  (callback : jack_nframes_t -> A -> BC.t -> Z * A * BC.t)
  (fuel : nat) (frames : jack_nframes_t) (arg : A) (conv : BC.t) (o : BC.outcome A) :
  BC.converter callback fuel frames arg conv = Some o ->
  BC.out_ret o <= 0 /\
  (BC.out_ret o = 0 ->
   BC.out_log o = [] /\ Forall (fun c => 0 <= BC.inv_ret c) (BC.out_calls o)) /\
  (Exists (fun c => BC.inv_ret c < 0) (BC.out_calls o) ->
   exists calls call,
     BC.out_calls o = calls ++ [call] /\ BC.out_ret o = BC.inv_ret call /\
     Forall (fun c => 0 <= BC.inv_ret c) calls).
Proof.
  unfold BC.converter.
  pose proof (converter_loop_result callback fuel frames arg conv) as H. cbv zeta in H.
  destruct (BC.converter_loop callback fuel frames arg conv) as [[[[r a] c] calls] log].
  unfold loop_result, loop_calls in H. cbn [fst snd] in H.
  destruct r as [[v|v]|]; [| |discriminate].
  - destruct H as (Hv & calls0 & call & -> & Hc & Hall).
    intros [= <-]. cbn [BC.out_ret BC.out_log BC.out_calls].
    split; [lia|]. split; [lia|]. intros _.
    exists calls0, call. repeat split; [symmetry; exact Hc | exact Hall].
  - destruct H as (Hv & Hall & Hnil).
    pose proof (next_log frames (BC.OutPorts c)) as Hlog.
    destruct (BC.next frames (BC.OutPorts c)) as [[outport_ret outs] log'].
    intros [= <-]. cbn [BC.out_ret BC.out_log BC.out_calls].
    split; [destruct (Z.ltb_spec outport_ret 0); lia|]. split.
    + intros H0. destruct (Z.ltb_spec outport_ret 0) as [L|L]; [lia|].
      destruct Hlog as [[_ ->]|Hneg]; [|lia].
      rewrite (Hnil H0). split; [reflexivity | exact Hall].
    + intros Hex. exfalso. apply Exists_exists in Hex. destruct Hex as (call & Hin & Hneg).
      rewrite Forall_forall in Hall. specialize (Hall call Hin). lia.
Qed.

(** X13.  On an aggregator without input adapter the process callback never
    calls the client: it logs that no ports are registered, still advances the
    output adapters, and returns [-1] or [-EINVAL]. *)
Theorem converter_without_inputs {A : Type}
  (callback : jack_nframes_t -> A -> BC.t -> Z * A * BC.t)
  (fuel : nat) (frames : jack_nframes_t) (arg : A) (conv : BC.t) :
  BC.InPorts conv = [] -> (1 <= fuel)%nat ->
  exists o,
    BC.converter callback fuel frames arg conv = Some o /\
    BC.out_calls o = [] /\ BC.out_arg o = arg /\
    (BC.out_ret o = -1 \/ BC.out_ret o = - EINVAL) /\
    In BC.msg_no_ports (BC.out_log o) /\
    BC.InPorts (BC.out_conv o) = [] /\
    BC.OutPorts (BC.out_conv o) = snd (fst (BC.next frames (BC.OutPorts conv))).
Proof.
  intros Hin Hfuel. destruct fuel as [|fuel]; [lia|].
  unfold BC.converter. cbn [BC.converter_loop]. rewrite Hin. cbn [BC.next].
  change (-1 >=? 1) with false. cbn iota.
  cbn [BC.set_InPorts BC.OutPorts].
  pose proof (JackBufferConverter_next_result_aux frames (BC.OutPorts conv)) as H.
  destruct (BC.next frames (BC.OutPorts conv)) as [[outport_ret outs] log'].
  eexists. split; [reflexivity|].
  cbn [BC.out_calls BC.out_arg BC.out_ret BC.out_log BC.out_conv BC.set_OutPorts
         BC.InPorts BC.OutPorts fst snd].
  repeat split.
  - destruct H as [(-> & _)|[(_ & [-> | ->] & _)|(-> & _)]]; cbn; auto.
  - left. reflexivity.
Qed.

(** ** The [int32_t] format *)

Lemma inverse_scaling32_as_float :
  F32.of_double (F64.div F64.one (F64.of_Z SAMPLE_32BIT_SCALING))
  = S754_finite false (2 ^ 23) (-54).
Proof. vm_compute. reflexivity. Qed.

Lemma pow2_xI n : 2 ^ Zpos n~1 = 2 * 2 ^ Zpos n * 2 ^ Zpos n.
Proof.
  rewrite (Pos2Z.inj_xI n). replace (2 * Zpos n + 1) with (1 + Zpos n + Zpos n) by lia.
  rewrite !Z.pow_add_r by lia. reflexivity.
Qed.

Lemma pow2_xO n : 2 ^ Zpos n~0 = 2 ^ Zpos n * 2 ^ Zpos n.
Proof.
  rewrite (Pos2Z.inj_xO n). replace (2 * Zpos n) with (Zpos n + Zpos n) by lia.
  rewrite Z.pow_add_r by lia. reflexivity.
Qed.

Lemma iter_shr_1_m n : forall rec,
  0 <= shr_m rec -> shr_m (iter_pos shr_1 n rec) = shr_m rec / 2 ^ Zpos n.
Proof.
  induction n as [n IH|n IH|]; intros rec H; cbn [iter_pos].
  - assert (Hp : 0 < 2 ^ Zpos n) by (apply Z.pow_pos_nonneg; lia).
    assert (H1 : 0 <= shr_m (shr_1 rec)) by (rewrite shr_1_m by exact H; apply Z.div_pos; lia).
    assert (H2 : 0 <= shr_m (iter_pos shr_1 n (shr_1 rec))).
    { rewrite IH by exact H1. apply Z.div_pos; [exact H1 | exact Hp]. }
    rewrite IH, IH, shr_1_m by assumption.
    rewrite !Z.div_div by lia. rewrite pow2_xI. f_equal. ring.
  - assert (Hp : 0 < 2 ^ Zpos n) by (apply Z.pow_pos_nonneg; lia).
    assert (H2 : 0 <= shr_m (iter_pos shr_1 n rec)).
    { rewrite IH by exact H. apply Z.div_pos; [exact H | exact Hp]. }
    rewrite IH, IH by assumption.
    rewrite !Z.div_div by lia. rewrite pow2_xO. f_equal.
  - apply shr_1_m. exact H.
Qed.

(** No bit is lost when the bits shifted out are zero. *)
Lemma shr_1_exact m :
  shr_1 {| shr_m := 2 * m; shr_r := false; shr_s := false |}
  = {| shr_m := m; shr_r := false; shr_s := false |}.
Proof. destruct m; reflexivity. Qed.

Lemma iter_shr_1_exact n : forall m,
  iter_pos shr_1 n {| shr_m := 2 ^ Zpos n * m; shr_r := false; shr_s := false |}
  = {| shr_m := m; shr_r := false; shr_s := false |}.
Proof.
  induction n as [n IH|n IH|]; intros m; cbn [iter_pos].
  - rewrite pow2_xI.
    replace (2 * 2 ^ Zpos n * 2 ^ Zpos n * m) with (2 * (2 ^ Zpos n * (2 ^ Zpos n * m)))
      by ring.
    rewrite shr_1_exact, IH, IH. reflexivity.
  - rewrite pow2_xO.
    replace (2 ^ Zpos n * 2 ^ Zpos n * m) with (2 ^ Zpos n * (2 ^ Zpos n * m)) by ring.
    rewrite IH, IH. reflexivity.
  - change (2 ^ 1) with 2. apply shr_1_exact.
Qed.

Lemma digits24 m : digits2_pos m = 24%positive <-> 2 ^ 23 <= Zpos m < 2 ^ 24.
Proof.
  split.
  - intros H. pose proof (digits2_pos_bounds m) as Hb. rewrite H in Hb. exact Hb.
  - intros H. apply Pos2Z.inj. apply digits2_pos_unique; [exact H | lia].
Qed.

(** A significand of 24 bits with an exponent in range is kept as it is. *)
Lemma binary_round_aux_canonical s m e :
  digits2_pos m = 24%positive -> -149 <= e <= 104 ->
  binary_round_aux F32.prec F32.emax s (Zpos m) e loc_Exact = S754_finite s m e.
Proof.
  intros Hd He.
  unfold binary_round_aux, shr_fexp, fexp, emin, F32.prec, F32.emax.
  cbn [Zdigits2 shr_record_of_loc]. rewrite Hd.
  replace (Z.max (24 + e - 24) (3 - 128 - 24) - e) with 0 by lia.
  cbn [shr shr_m loc_of_shr_record round_nearest_even Zdigits2]. rewrite Hd.
  replace (Z.max (24 + e - 24) (3 - 128 - 24) - e) with 0 by lia.
  cbn [shr shr_m].
  replace (e <=? 128 - 24) with true by (symmetry; apply Z.leb_le; lia).
  reflexivity.
Qed.

(** Trailing zero bits beyond the 24th are dropped without rounding. *)
Lemma binary_round_aux_exact s p e m n :
  0 < n -> Zpos p = 2 ^ n * Zpos m -> digits2_pos m = 24%positive ->
  -149 <= e + n <= 104 ->
  binary_round_aux F32.prec F32.emax s (Zpos p) e loc_Exact = S754_finite s m (e + n).
Proof.
  intros Hn Hp Hd He.
  assert (Hm : 2 ^ 23 <= Zpos m < 2 ^ 24) by (apply digits24; exact Hd).
  assert (Hdp : Zpos (digits2_pos p) = 24 + n).
  { apply digits2_pos_unique; [|lia]. rewrite Hp.
    replace (24 + n - 1) with (n + 23) by lia. replace (24 + n) with (n + 24) by lia.
    rewrite !Z.pow_add_r by lia.
    assert (0 < 2 ^ n) by (apply Z.pow_pos_nonneg; lia). nia. }
  rewrite <- (binary_round_aux_canonical s m (e + n) Hd He).
  unfold binary_round_aux at 1. unfold shr_fexp at 1. unfold fexp, emin, F32.prec, F32.emax.
  cbn [Zdigits2 shr_record_of_loc]. rewrite Hdp.
  replace (Z.max (24 + n + e - 24) (3 - 128 - 24) - e) with n by lia.
  destruct n as [|n|n]; try lia.
  cbn [shr]. rewrite Hp, iter_shr_1_exact.
  cbn [shr_m loc_of_shr_record round_nearest_even].
  unfold binary_round_aux, shr_fexp, fexp, emin, F32.prec, F32.emax.
  cbn [Zdigits2 shr_record_of_loc]. rewrite Hd.
  replace (Z.max (24 + (e + Zpos n) - 24) (3 - 128 - 24) - (e + Zpos n)) with 0 by lia.
  cbn [shr shr_m loc_of_shr_record round_nearest_even Zdigits2]. rewrite Hd.
  replace (Z.max (24 + (e + Zpos n) - 24) (3 - 128 - 24) - (e + Zpos n)) with 0 by lia.
  reflexivity.
Qed.

Lemma round_nearest_even_cases m l :
  round_nearest_even m l = m \/ round_nearest_even m l = m + 1.
Proof.
  unfold round_nearest_even. destruct l as [|[| |]]; auto. destruct (Z.even m); auto.
Qed.

(** A significand of more than 24 bits is rounded to 24 bits; the carry of
    the rounding, if any, gives the next power of two. *)
Lemma binary_round_aux_bound s p e n :
  0 < n -> Zpos (digits2_pos p) = 24 + n -> -149 <= e + n -> e + n + 1 <= 104 ->
  exists m e',
    binary_round_aux F32.prec F32.emax s (Zpos p) e loc_Exact = S754_finite s m e' /\
    digits2_pos m = 24%positive /\
    (e' = e + n \/ e' = e + n + 1 /\ m = (2 ^ 23)%positive).
Proof.
  intros Hn Hdp He1 He2.
  pose proof (digits2_pos_bounds p) as Hb. rewrite Hdp in Hb.
  replace (24 + n - 1) with (23 + n) in Hb by lia.
  rewrite !Z.pow_add_r in Hb by lia.
  assert (H2n : 0 < 2 ^ n) by (apply Z.pow_pos_nonneg; lia).
  unfold binary_round_aux. unfold shr_fexp at 1. unfold fexp, emin, F32.prec, F32.emax.
  cbn [Zdigits2 shr_record_of_loc]. rewrite Hdp.
  replace (Z.max (24 + n + e - 24) (3 - 128 - 24) - e) with n by lia.
  destruct n as [|n|n]; try lia.
  cbn [shr].
  set (rec := iter_pos shr_1 n {| shr_m := Zpos p; shr_r := false; shr_s := false |}).
  assert (Hq : shr_m rec = Zpos p / 2 ^ Zpos n).
  { unfold rec. rewrite iter_shr_1_m by (cbn; lia). reflexivity. }
  assert (Hqb : 2 ^ 23 <= shr_m rec < 2 ^ 24).
  { rewrite Hq. split.
    - apply Z.div_le_lower_bound; lia.
    - apply Z.div_lt_upper_bound; lia. }
  destruct (round_nearest_even_cases (shr_m rec) (loc_of_shr_record rec)) as [Hr|Hr];
    rewrite Hr.
  - destruct (shr_m rec) as [|m|m] eqn:Em; try lia.
    assert (Hd : digits2_pos m = 24%positive) by (apply digits24; exact Hqb).
    exists m, (e + Zpos n). split; [|split; [exact Hd | left; reflexivity]].
    unfold shr_fexp, fexp, emin. cbn [Zdigits2 shr_record_of_loc]. rewrite Hd.
    replace (Z.max (24 + (e + Zpos n) - 24) (3 - 128 - 24) - (e + Zpos n)) with 0 by lia.
    cbn [shr shr_m].
    replace (e + Zpos n <=? 128 - 24) with true by (symmetry; apply Z.leb_le; lia).
    reflexivity.
  - destruct (Z.eq_dec (shr_m rec + 1) (2 ^ 24)) as [Hc|Hc].
    + rewrite Hc. exists (2 ^ 23)%positive, (e + Zpos n + 1).
      split; [|split; [reflexivity | right; split; reflexivity]].
      unfold shr_fexp, fexp, emin.
      change (Zdigits2 (2 ^ 24)) with 25.
      replace (Z.max (25 + (e + Zpos n) - 24) (3 - 128 - 24) - (e + Zpos n)) with 1 by lia.
      cbn [shr shr_record_of_loc iter_pos].
      change (shr_1 {| shr_m := 2 ^ 24; shr_r := false; shr_s := false |})
        with {| shr_m := 2 ^ 23; shr_r := false; shr_s := false |}.
      cbn [shr_m]. change (2 ^ 23) with (Zpos (2 ^ 23)).
      cbv iota beta.
      replace (e + Zpos n + 1 <=? 128 - 24) with true by (symmetry; apply Z.leb_le; lia).
      reflexivity.
    + destruct (shr_m rec + 1) as [|m|m] eqn:Em; try lia.
      assert (Hd : digits2_pos m = 24%positive) by (apply digits24; lia).
      exists m, (e + Zpos n). split; [|split; [exact Hd | left; reflexivity]].
      unfold shr_fexp, fexp, emin. cbn [Zdigits2 shr_record_of_loc]. rewrite Hd.
      replace (Z.max (24 + (e + Zpos n) - 24) (3 - 128 - 24) - (e + Zpos n)) with 0 by lia.
      cbn [shr shr_m].
      replace (e + Zpos n <=? 128 - 24) with true by (symmetry; apply Z.leb_le; lia).
      reflexivity.
Qed.

Lemma iter_xO m d : Zpos (Pos.iter xO m d) = Zpos m * 2 ^ Zpos d.
Proof.
  induction d as [|d IH] using Pos.peano_ind.
  - cbn [Pos.iter]. rewrite (Pos2Z.inj_xO m). change (2 ^ 1) with 2. lia.
  - rewrite Pos.iter_succ, (Pos2Z.inj_xO (Pos.iter xO m d)), IH, Pos2Z.inj_succ, Z.pow_succ_r by lia.
    ring.
Qed.

Lemma fits24_divide p n :
  0 <= n -> 2 ^ (23 + n) <= p -> fits24 p -> p mod 2 ^ n = 0.
Proof.
  intros Hn Hp (v & k & Hk & Hv & ->).
  assert (H23 : 0 < 2 ^ (23 + n)) by (apply Z.pow_pos_nonneg; lia).
  destruct (Z.lt_ge_cases k n) as [L|G].
  - exfalso.
    assert (2 ^ k * 2 <= 2 ^ n).
    { replace n with (k + 1 + (n - k - 1)) by lia.
      rewrite !Z.pow_add_r by lia. change (2 ^ 1) with 2.
      assert (0 < 2 ^ k) by (apply Z.pow_pos_nonneg; lia).
      assert (0 < 2 ^ (n - k - 1)) by (apply Z.pow_pos_nonneg; lia). nia. }
    rewrite Z.pow_add_r in Hp by lia.
    assert (0 < 2 ^ k) by (apply Z.pow_pos_nonneg; lia). nia.
  - replace k with (k - n + n) by lia. rewrite Z.pow_add_r by lia.
    rewrite Z.mul_assoc. apply Z.mod_mul.
    assert (0 < 2 ^ n) by (apply Z.pow_pos_nonneg; lia). lia.
Qed.

(** The [float] of an integer of magnitude below [2^31]. *)
Lemma of_Z_shape s p :
  Zpos p < 2 ^ 31 ->
  exists m e,
    binary_round F32.prec F32.emax s p 0 = S754_finite s m e /\
    digits2_pos m = 24%positive /\ -23 <= e <= 8 /\
    (e = 8 -> m = (2 ^ 23)%positive) /\
    (fits24 (Zpos p) -> round_half_even (Zpos m) e = Zpos p).
Proof.
  intros Hp.
  pose proof (digits2_pos_bounds p) as Hb.
  set (D := Zpos (digits2_pos p)) in *.
  assert (HD : 1 <= D <= 31).
  { split; [unfold D; lia|].
    destruct (Z.lt_ge_cases 31 D) as [L|G]; [|exact G].
    assert (2 ^ 31 <= 2 ^ (D - 1)) by (apply Z.pow_le_mono_r; lia). lia. }
  unfold binary_round, shl_align, fexp, emin, F32.prec, F32.emax. fold D.
  replace (Z.max (D + 0 - 24) (3 - 128 - 24) - 0) with (D - 24) by lia.
  destruct (D - 24) as [|n|d] eqn:En.
  - (* exactly 24 bits *)
    assert (Hd : digits2_pos p = 24%positive) by (apply Pos2Z.inj; fold D; lia).
    exists p, 0.
    split; [apply (binary_round_aux_canonical s p 0 Hd); lia|].
    split; [exact Hd|]. split; [lia|]. split; [lia|].
    intros _. unfold round_half_even. cbn. lia.
  - (* more than 24 bits *)
    assert (HDn : D = 24 + Zpos n) by lia.
    destruct (Z.eq_dec (Zpos p mod 2 ^ Zpos n) 0) as [Hz|Hnz].
    + assert (Hq : Zpos p = 2 ^ Zpos n * (Zpos p / 2 ^ Zpos n)).
      { apply Z.div_exact; [|exact Hz]. apply Z.pow_nonzero; lia. }
      assert (H2n : 0 < 2 ^ Zpos n) by (apply Z.pow_pos_nonneg; lia).
      rewrite HDn in Hb. replace (24 + Zpos n - 1) with (23 + Zpos n) in Hb by lia.
      rewrite !Z.pow_add_r in Hb by lia.
      destruct (Zpos p / 2 ^ Zpos n) as [|m|m] eqn:Em; try lia.
      assert (Hd : digits2_pos m = 24%positive) by (apply digits24; nia).
      exists m, (Zpos n).
      split; [apply (binary_round_aux_exact s p 0 m (Zpos n)); try assumption; lia|].
      split; [exact Hd|]. split; [lia|]. split.
      * intros E8. exfalso. rewrite E8 in Hq, H2n.
        apply digits24 in Hd. change (2 ^ 8) with 256 in *.
        change (2 ^ 23) with 8388608 in *. change (2 ^ 31) with 2147483648 in *. lia.
      * intros _. unfold round_half_even. cbn [Z.leb Z.compare]. lia.
    + destruct (binary_round_aux_bound s p 0 (Zpos n)) as (m & e' & Hr & Hd & He');
        try lia.
      exists m, e'. split; [exact Hr|]. split; [exact Hd|]. split; [lia|]. split.
      * intros E8. destruct He' as [He'|[_ Hm]]; [lia | exact Hm].
      * intros Hf. exfalso. apply Hnz. apply fits24_divide; [lia | | exact Hf].
        rewrite HDn in Hb. replace (24 + Zpos n - 1) with (23 + Zpos n) in Hb by lia.
        apply Hb.
  - (* fewer than 24 bits *)
    rewrite Z.max_l by lia.
    assert (Hd : digits2_pos (Pos.iter xO p d) = 24%positive).
    { apply digits24. rewrite iter_xO.
      replace 23 with (D - 1 + Zpos d) by lia. replace 24 with (D + Zpos d) by lia.
      rewrite !Z.pow_add_r by lia.
      assert (0 < 2 ^ Zpos d) by (apply Z.pow_pos_nonneg; lia). nia. }
    exists (Pos.iter xO p d), (D + 0 - 24).
    split; [apply binary_round_aux_canonical; [exact Hd | lia]|].
    split; [exact Hd|]. split; [lia|]. split; [lia|].
    intros _. rewrite iter_xO.
    replace (D + 0 - 24) with (0 - Zpos d) by lia.
    rewrite round_half_even_scale by lia. unfold round_half_even. cbn. lia.
Qed.

(** The product by [(float)(1.0 / 0x7FFFFFFF) = 2^-31] only lowers the
    exponent. *)
Lemma mul_inverse_scaling32 s m e :
  digits2_pos m = 24%positive -> -23 <= e <= 8 ->
  F32.mul (S754_finite s m e) (S754_finite false (2 ^ 23) (-54)) = S754_finite s m (e - 31).
Proof.
  intros Hd He. unfold F32.mul, SFmul. rewrite xorb_false_r.
  replace (e - 31) with (e + -54 + 23) by lia.
  apply binary_round_aux_exact; [lia | | exact Hd | lia].
  rewrite Pos2Z.inj_mul. change (Zpos (2 ^ 23)) with (2 ^ 23). lia.
Qed.

Lemma fits24_opp z : fits24 z -> fits24 (- z).
Proof.
  intros (v & k & Hk & Hv & ->). exists (- v), k. split; [exact Hk|]. split; lia.
Qed.

(** The float that [sample_move_dS_s32] computes for a sample other than 0
    and [INT32_MIN]. *)
Lemma float_of_s32_shape z :
  z <> 0 -> - 2 ^ 31 < z < 2 ^ 31 ->
  exists m e,
    float_of_s32 z = S754_finite (z <? 0) m (e - 31) /\
    digits2_pos m = 24%positive /\ -23 <= e <= 8 /\
    (e = 8 -> m = (2 ^ 23)%positive) /\
    (fits24 z -> round_half_even (Zpos m) e = Z.abs z).
Proof.
  intros Hz Hr. unfold float_of_s32. rewrite inverse_scaling32_as_float.
  unfold F32.of_Z, binary_normalize.
  destruct z as [|p|p]; [congruence| |].
  - destruct (of_Z_shape false p) as (m & e & H1 & H2 & H3 & H4 & H5); [lia|].
    exists m, e. rewrite H1, mul_inverse_scaling32 by assumption.
    repeat split; try assumption; lia.
  - destruct (of_Z_shape true p) as (m & e & H1 & H2 & H3 & H4 & H5); [lia|].
    exists m, e. rewrite H1, mul_inverse_scaling32 by assumption.
    repeat split; try assumption; try lia.
    intros Hf. apply H5. apply fits24_opp in Hf. exact Hf.
Qed.

(** The bit pattern of a normal float decodes to the float. *)
Lemma of_bits_to_bits_normal s m e :
  digits2_pos m = 24%positive -> -149 <= e <= 104 ->
  F32.of_bits (F32.to_bits (S754_finite s m e)) = S754_finite s m e.
Proof.
  intros Hd He. apply digits24 in Hd.
  change (2 ^ 23) with 8388608 in Hd. change (2 ^ 24) with 16777216 in Hd.
  unfold F32.to_bits.
  replace (Zpos m <? 2 ^ 23) with false by (symmetry; apply Z.ltb_ge; exact (proj1 Hd)).
  set (b := F32.sign_bit s + (e + 150) * 2 ^ 23 + (Zpos m - 2 ^ 23)).
  assert (Hs : 0 <= F32.sign_bit s /\ F32.sign_bit s = (if s then 1 else 0) * 2 ^ 31)
    by (destruct s; cbn; lia).
  assert (Hm : b mod 2 ^ 23 = Zpos m - 2 ^ 23).
  { symmetry. apply Z.mod_unique_pos with ((if s then 1 else 0) * 2 ^ 8 + (e + 150)).
    - change (2 ^ 23) with 8388608. lia.
    - unfold b. rewrite (proj2 Hs). change (2 ^ 31) with (2 ^ 23 * 2 ^ 8). ring. }
  assert (He' : (b / 2 ^ 23) mod 2 ^ 8 = e + 150).
  { replace (b / 2 ^ 23) with ((if s then 1 else 0) * 2 ^ 8 + (e + 150)).
    - symmetry. apply Z.mod_unique_pos with (if s then 1 else 0).
      + change (2 ^ 8) with 256. lia.
      + ring.
    - apply Z.div_unique_pos with (Zpos m - 2 ^ 23).
      + change (2 ^ 23) with 8388608. lia.
      + unfold b. rewrite (proj2 Hs). change (2 ^ 31) with (2 ^ 23 * 2 ^ 8). ring. }
  assert (Hb : Z.testbit b 31 = s).
  { rewrite Z.testbit_odd, Z.shiftr_div_pow2 by lia.
    replace (b / 2 ^ 31) with (if s then 1 else 0); [destruct s; reflexivity|].
    apply Z.div_unique_pos with ((e + 150) * 2 ^ 23 + (Zpos m - 2 ^ 23)).
    - change (2 ^ 23) with 8388608. change (2 ^ 31) with 2147483648. lia.
    - unfold b. rewrite (proj2 Hs). ring. }
  unfold F32.of_bits. rewrite Hb.
  change (Z.land (Z.shiftr b 23) 255) with (Z.land (Z.shiftr b 23) (Z.ones 8)).
  change (2 ^ 23 - 1) with (Z.ones 23).
  rewrite !Z.land_ones, Z.shiftr_div_pow2 by lia.
  rewrite Hm, He'.
  replace (e + 150 =? 0) with false by (symmetry; apply Z.eqb_neq; lia).
  replace (e + 150 =? 255) with false by (symmetry; apply Z.eqb_neq; lia).
  replace (Zpos m - 2 ^ 23 + 2 ^ 23) with (Zpos m) by lia.
  f_equal. lia.
Qed.

(** The floats of magnitude at most one among the normal ones. *)
Lemma within_unit s m e :
  digits2_pos m = 24%positive -> e <= -23 -> (e = -23 -> m = (2 ^ 23)%positive) ->
  F32.leb NORMALIZED_FLOAT_MIN (S754_finite s m e) = true /\
  F32.leb (S754_finite s m e) NORMALIZED_FLOAT_MAX = true /\
  (e < -23 ->
   F32.leb (S754_finite s m e) NORMALIZED_FLOAT_MIN = false /\
   F32.leb NORMALIZED_FLOAT_MAX (S754_finite s m e) = false).
Proof.
  intros Hd He Hm.
  unfold F32.leb, SFleb, SFcompare, NORMALIZED_FLOAT_MIN, NORMALIZED_FLOAT_MAX,
    F32.minus_one, F32.one.
  destruct (Z.compare_spec e (-23)) as [E|L|G]; [|clear Hm|lia].
  - rewrite (Hm E), Z.compare_antisym. subst e. cbn.
    destruct s; repeat split; try reflexivity; lia.
  - rewrite (Z.compare_antisym e (-23)).
    apply Z.compare_lt_iff in L. rewrite L. cbn [CompOpp].
    destruct s; repeat split; reflexivity.
Qed.

Lemma s32_range z : - 2 ^ 31 <= s32 z < 2 ^ 31.
Proof.
  unfold s32. pose proof (Z.mod_pos_bound (z + 2 ^ 31) (2 ^ 32) eq_refl). lia.
Qed.

(** The bit pattern that [sample_move_dS_s32] stores decodes to the float it
    computed. *)
Lemma dS_s32_sample_decodes b : F32.of_bits (dS_s32_sample b) = float_of_s32 (s32 b).
Proof.
  unfold dS_s32_sample. pose proof (s32_range b) as Hr.
  destruct (Z.eq_dec (s32 b) 0) as [E0|N0]; [rewrite E0; reflexivity|].
  destruct (Z.eq_dec (s32 b) (- 2 ^ 31)) as [Em|Nm]; [rewrite Em; reflexivity|].
  destruct (float_of_s32_shape (s32 b) N0 ltac:(lia)) as (m & e & -> & Hd & He & _).
  apply of_bits_to_bits_normal; [exact Hd | lia].
Qed.

(** X17.  [sample_move_dS_s32] maps every [int32_t] sample into
    [NORMALIZED_FLOAT_MIN, NORMALIZED_FLOAT_MAX]: [INT32_MIN] gives exactly
    [-1.0f], [INT32_MAX] exactly [1.0f] and [0] gives [0.0f].  The float
    stored is the sample converted to [float] times 2^-31, which is what the
    scaling [(float)(1.0 / 0x7FFFFFFF)] is. *)
Theorem int32_to_float_range (dst src : samples) (d s : Z) (n : nat) (i : Z) :
  0 <= i < Z.of_nat n ->
  let v := s32 (src (s + i)) in
  let x := F32.of_bits (sample_move_dS_s32 dst d src s n (d + i)) in
  F32.leb NORMALIZED_FLOAT_MIN x = true /\ F32.leb x NORMALIZED_FLOAT_MAX = true /\
  (v = - 2 ^ 31 -> x = NORMALIZED_FLOAT_MIN) /\
  (v = 2 ^ 31 - 1 -> x = NORMALIZED_FLOAT_MAX) /\
  (v = 0 -> x = S754_zero false) /\
  x = F32.mul (F32.of_Z v) (S754_finite false (2 ^ 23) (-54)).
Proof.
  intros Hi v x. subst x.
  rewrite sample_move_dS_s32_pointwise.
  replace ((d <=? d + i) && (d + i <? d + Z.of_nat n)) with true
    by (symmetry; apply andb_true_iff; split; [apply Z.leb_le | apply Z.ltb_lt]; lia).
  replace (s + (d + i - d)) with (s + i) by lia.
  rewrite dS_s32_sample_decodes. fold v.
  assert (Hr : - 2 ^ 31 <= v < 2 ^ 31) by apply s32_range.
  split; [|split]; [| |repeat split; try (intros ->; reflexivity);
                        unfold float_of_s32; rewrite inverse_scaling32_as_float; reflexivity].
  - destruct (Z.eq_dec v 0) as [E0|N0]; [rewrite E0; reflexivity|].
    destruct (Z.eq_dec v (- 2 ^ 31)) as [Em|Nm]; [rewrite Em; reflexivity|].
    destruct (float_of_s32_shape v N0 ltac:(lia)) as (m & e & -> & Hd & He & Hc & _).
    apply (within_unit (v <? 0) m (e - 31) Hd); [lia|]. intros E. apply Hc. lia.
  - destruct (Z.eq_dec v 0) as [E0|N0]; [rewrite E0; reflexivity|].
    destruct (Z.eq_dec v (- 2 ^ 31)) as [Em|Nm]; [rewrite Em; reflexivity|].
    destruct (float_of_s32_shape v N0 ltac:(lia)) as (m & e & -> & Hd & He & Hc & _).
    apply (within_unit (v <? 0) m (e - 31) Hd); [lia|]. intros E. apply Hc. lia.
Qed.

Lemma int32_sample_round_trip b :
  fits24 (s32 b) ->
  s32 (d32_sample (dS_s32_sample b))
  = if s32 b =? - 2 ^ 31 then - 0x7FFFFFFF else s32 b.
Proof.
  intros Hf. unfold d32_sample. rewrite s32_u32, dS_s32_sample_decodes.
  pose proof (s32_range b) as Hr. set (v := s32 b) in *.
  destruct (Z.eqb_spec v (- 2 ^ 31)) as [Em|Nm]; [rewrite Em; reflexivity|].
  destruct (Z.eq_dec v 0) as [E0|N0]; [rewrite E0; reflexivity|].
  destruct (float_of_s32_shape v N0 ltac:(lia)) as (m & e & -> & Hd & He & Hc & Hx).
  specialize (Hx Hf).
  assert (He7 : e <= 7).
  { destruct (Z.eq_dec e 8) as [E8|]; [|lia]. exfalso.
    rewrite (Hc E8), E8 in Hx. change (round_half_even (Zpos (2 ^ 23)) 8) with (2 ^ 31) in Hx.
    lia. }
  assert (Hv : valid_binary F32.prec F32.emax (S754_finite (v <? 0) m (e - 31)) = true).
  { unfold valid_binary, bounded, canonical_mantissa, fexp, emin, F32.prec, F32.emax.
    rewrite Hd. apply andb_true_iff. split; [apply Z.eqb_eq | apply Z.leb_le]; lia. }
  destruct (within_unit (v <? 0) m (e - 31) Hd ltac:(lia) ltac:(intros; exfalso; lia))
    as (_ & _ & Hin).
  destruct (Hin ltac:(lia)) as [Hmin Hmax].
  rewrite (s32_of_float_exact _ _ _ Hv Hmin Hmax).
  replace (e - 31 + 31) with e by lia. rewrite Hx.
  destruct (Z.ltb_spec v 0); rewrite s32_small; lia.
Qed.

(** X18.  An [int32_t] sample of at most 24 significant bits that
    [sample_move_dS_s32] converts to the server's float and
    [sample_move_d32_sS] converts back is unchanged, except [INT32_MIN],
    which comes back as [-0x7FFFFFFF]. *)
Theorem int32_round_trip (work dst src : samples) (w d s : Z) (n : nat) (i : Z) :
  0 <= i < Z.of_nat n ->
  fits24 (s32 (src (s + i))) ->
  let server := sample_move_dS_s32 work w src s n in
  s32 (sample_move_d32_sS dst d server w n (d + i))
  = if s32 (src (s + i)) =? - 2 ^ 31 then - 0x7FFFFFFF else s32 (src (s + i)).
Proof.
  intros Hi Hf server. subst server.
  rewrite sample_move_d32_sS_pointwise.
  replace ((d <=? d + i) && (d + i <? d + Z.of_nat n)) with true
    by (symmetry; apply andb_true_iff; split; [apply Z.leb_le | apply Z.ltb_lt]; lia).
  rewrite sample_move_dS_s32_pointwise.
  replace (w + (d + i - d)) with (w + i) by lia.
  replace ((w <=? w + i) && (w + i <? w + Z.of_nat n)) with true
    by (symmetry; apply andb_true_iff; split; [apply Z.leb_le | apply Z.ltb_lt]; lia).
  replace (s + (w + i - w)) with (s + i) by lia.
  apply int32_sample_round_trip. exact Hf.
Qed.

(** ** The properties at concrete inputs *)

Lemma silence_prefill_table_witness :
  BC.create 64 false true 64
  = Some {| BC.InPorts := []; BC.OutPorts := []; BC.dst_frames := 64; BC.silence_prefil := 0 |} /\
  BC.create 128 false true 64
  = Some {| BC.InPorts := []; BC.OutPorts := []; BC.dst_frames := 64; BC.silence_prefil := 0 |} /\
  BC.create 100 false true 64
  = Some {| BC.InPorts := []; BC.OutPorts := []; BC.dst_frames := 64; BC.silence_prefil := 64 |} /\
  BC.create 32 false true 128
  = Some {| BC.InPorts := []; BC.OutPorts := []; BC.dst_frames := 128; BC.silence_prefil := 96 |} /\
  BC.create 48 false true 128
  = Some {| BC.InPorts := []; BC.OutPorts := []; BC.dst_frames := 128; BC.silence_prefil := 128 |}.
Proof.
  assert (U : forall x, 0 <= x < 2 ^ 32 -> is_u32 x) by (intros x H; exact H).
  split; [|split; [|split; [|split]]].
  - apply (proj1 (silence_prefill_table 64 64 (U 64 ltac:(lia)) (U 64 ltac:(lia)))).
    reflexivity.
  - apply (proj1 (proj2 (silence_prefill_table 64 128 (U 64 ltac:(lia)) (U 128 ltac:(lia)))));
      [lia | lia | reflexivity].
  - apply (proj1 (proj2 (proj2
             (silence_prefill_table 64 100 (U 64 ltac:(lia)) (U 100 ltac:(lia))))));
      [lia | lia | vm_compute; discriminate].
  - apply (proj1 (proj2 (proj2 (proj2
             (silence_prefill_table 128 32 (U 128 ltac:(lia)) (U 32 ltac:(lia)))))));
      [lia | lia | reflexivity].
  - apply (proj2 (proj2 (proj2 (proj2
             (silence_prefill_table 128 48 (U 128 ltac:(lia)) (U 48 ltac:(lia)))))));
      [lia | lia | vm_compute; discriminate].
Defined.

Lemma FramesInPortConverter_next_spec_witness :
  exists p',
    FP.next_in partial_in_adapter 100 = (1, p', []) /\
    FP.shadow_frames p' = 0 /\ FP.jack_offset p' = 36 /\
    SB.shadow (FP.converter p') 27 = 0 /\
    SB.shadow (FP.converter p') 28 = d32_sample (0x3F000000 + (0 + (28 - 28))) /\
    SB.shadow (FP.converter p') 63 = d32_sample (0x3F000000 + (0 + (63 - 28))) /\
    SB.shadow (FP.converter p') 64 = 7.
Proof.
  destruct (FramesInPortConverter_next_spec partial_in_adapter 100) as [_ H].
  destruct H as (p' & E & _ & _ & _ & _ & _ & _ & Hsf & Hoff & _ & Hsh).
  - vm_compute. discriminate.
  - specialize (Hsh d32_sample sample_move_d32_sS_pointwise).
    exists p'. split; [exact E|]. split; [exact Hsf|]. split; [exact Hoff|].
    split; [exact (Hsh 27)|]. split; [exact (Hsh 28)|].
    split; [exact (Hsh 63) | exact (Hsh 64)].
Defined.

Lemma FramesOutPortConverter_next_spec_witness :
  fst (fst (FP.next_out example_out_adapter 100)) = 1 /\
  FP.shadow_frames (snd (fst (FP.next_out example_out_adapter 100))) = 28 /\
  FP.shadow_offset (snd (fst (FP.next_out example_out_adapter 100))) = 0 /\
  FP.client_frames (snd (fst (FP.next_out example_out_adapter 100))) = 0.
Proof.
  destruct (FramesOutPortConverter_next_spec example_out_adapter 100 dS_s32_sample)
    as (p' & E & _ & _ & _ & _ & Hsf & Hso & Hcf & _).
  - apply sample_move_dS_s32_pointwise.
  - vm_compute. discriminate.
  - lia.
  - vm_compute. discriminate.
  - rewrite E. cbn [fst snd]. rewrite Hsf, Hso, Hcf.
    split; [|split; [|split]]; reflexivity.
Defined.

Lemma example_aggregator_fresh : fresh (example_aggregator 64 100).
Proof.
  split; [vm_compute; split; discriminate|].
  repeat constructor.
Qed.

Lemma example_aggregator_inputs :
  Forall (input_adapter (BC.dst_frames (example_aggregator 64 100)))
    (BC.InPorts (example_aggregator 64 100)).
Proof. repeat constructor; vm_compute; congruence. Qed.


Lemma client_invocation_ready_witness :
  Forall (invoked_ready 100 64)
    (loop_calls (BC.converter_loop checked_inprocess 3 100 tt
                   (example_aggregator 64 100))).
Proof.
  apply (client_invocation_ready checked_inprocess 3 100 tt
           (example_aggregator 64 100) checked_inprocess_respects_counters).
  - vm_compute. split; [discriminate | reflexivity].
  - exact example_aggregator_inputs.
Defined.

Lemma float_to_int_samples_witness :
  s32 (sample_move_d32_sS (fun _ => 0) 0 rounding_probes 0 2 1) = 1073872896 /\
  s16 (sample_move_d16_sS (fun _ => 0) 0 rounding_probes 0 2 1) = 16386.
Proof.
  destruct (float_to_int_samples (fun _ => 0) rounding_probes 0 0 2 1) as (_ & _ & H).
  - vm_compute. split; [discriminate | reflexivity].
  - destruct (H eq_refl eq_refl) as (H32 & H16 & _). split; [exact H32 | exact H16].
Defined.

Lemma get_alignment_witness :
  aligned32 (fst (SB.get loud_converter 4)) /\
  (aligned32 (fst (FP.get_out example_out_adapter 64))
   <-> (FP.free_slot example_out_adapter * 4) mod 32 = 0).
Proof.
  destruct (get_alignment loud_converter) as (H1 & _).
  - reflexivity.
  - split; [apply H1|].
    destruct (get_alignment (FP.converter example_out_adapter)) as (_ & _ & H3).
    + reflexivity.
    + exact (proj2 (H3 example_out_adapter eq_refl)).
Defined.

Lemma set_after_get_witness :
  port_data (SB.port (get_then_set example_float_converter 4)) 0
  = port_data (SB.port (snd (SB.get example_float_converter 4))) 0 /\
  port_data (SB.port (get_then_set example_float_converter 4)) 3
  = port_data (SB.port (snd (SB.get example_float_converter 4))) 3.
Proof.
  destruct (set_after_get 4) as (_ & H).
  - lia.
  - destruct (H example_float_converter (fun b => b) (fun b => b)) as (_ & _ & _ & H4).
    + intros b. reflexivity.
    + intros b. reflexivity.
    + split; apply H4; reflexivity.
Defined.

Lemma converter_without_outputs_witness :
  exists o,
    BC.converter idle_client 129 64 tt input_only_aggregator = Some o /\
    BC.out_ret o = -1.
Proof.
  destruct (converter_without_outputs idle_client idle_client_respects_counters
              64 tt input_only_aggregator)
    with (fuel := 129%nat) as (o & Ho & _ & _ & Hnone).
  - reflexivity.
  - vm_compute. repeat split; congruence.
  - vm_compute. lia.
  - exists o. split; [exact Ho|]. apply Hnone.
    apply (converter_calls_nonneg idle_client 129 64 tt input_only_aggregator o).
    + intros n a c. cbn. lia.
    + exact Ho.
Defined.

Lemma example_aggregator_fresh_outputs : fresh_outputs (example_aggregator 64 100).
Proof. repeat constructor. Qed.

Lemma example_cycles_usable T : Forall usable_cycle (example_cycles T).
Proof.
  apply Forall_forall. intros c Hc. apply repeat_spec in Hc. subst c.
  exists example_in_port, example_out_port.
  split; [reflexivity|]. split; vm_compute; discriminate.
Qed.

Lemma int16_round_trip_witness :
  s16 (sample_move_d16_sS (fun _ => 0) 0
         (sample_move_dS_s16 (fun _ => 0) 0 (fun i => 0x8000 + i) 0 4) 0 4 (0 + 0))
  = -32767 /\
  s16 (sample_move_d16_sS (fun _ => 0) 0
         (sample_move_dS_s16 (fun _ => 0) 0 (fun i => 0x8000 + i) 0 4) 0 4 (0 + 3))
  = -32765.
Proof.
  split.
  - exact (int16_round_trip (fun _ => 0) (fun _ => 0) (fun i => 0x8000 + i) 0 0 0 4 0
             ltac:(lia)).
  - exact (int16_round_trip (fun _ => 0) (fun _ => 0) (fun i => 0x8000 + i) 0 0 0 4 3
             ltac:(lia)).
Defined.

Lemma int16_to_float_range_witness :
  F32.of_bits (sample_move_dS_s16 (fun _ => 0) 0 (fun _ => 32767) 0 4 (0 + 1))
  = NORMALIZED_FLOAT_MAX.
Proof.
  destruct (int16_to_float_range (fun _ => 0) (fun _ => 32767) 0 0 4 1) as (_ & H & _).
  - lia.
  - apply H. reflexivity.
Defined.

Lemma float_to_int32_symmetric_witness :
  - 0x7FFFFFFF
  <= s32 (sample_move_d32_sS (fun _ => 0) 0 (fun _ => 0x3F000000) 0 4 (0 + 1))
  <= 0x7FFFFFFF /\
  s32 (sample_move_d32_sS (fun _ => 0) 0 (fun _ => 0xBF000000) 0 4 (0 + 1))
  = - s32 (sample_move_d32_sS (fun _ => 0) 0 (fun _ => 0x3F000000) 0 4 (0 + 1)).
Proof.
  apply (float_to_int32_symmetric (fun _ => 0) (fun _ => 0x3F000000) (fun _ => 0xBF000000)
           0 0 4 1).
  - lia.
  - vm_compute. discriminate.
  - reflexivity.
Defined.

Lemma jack_buffer_create_convert_fresh_witness :
  exists conv,
    jack_buffer_create_convert 100 false true 64 = Some conv /\
    BC.dst_frames conv = 64 /\ BC.silence_prefil conv = 64 /\
    BC.InPorts conv = [] /\ BC.OutPorts conv = [].
Proof.
  pose proof (jack_buffer_create_convert_fresh 100 64 false true) as H.
  destruct (jack_buffer_create_convert 100 false true 64) as [conv|] eqn:E.
  - destruct H as (_ & _ & H1 & H2 & _ & H3 & H4 & _); [lia | lia |].
    exists conv. split; [reflexivity|]. split; [exact H1|].
    split; [injection H2 as <-; reflexivity|]. split; assumption.
  - discriminate E.
Defined.

Lemma factory_keeps_fresh_witness :
  exists h conv' log,
    jack_port_create_convert example_in_port JACK_PORT_CONV_FMT_INT16 true
      (Some (example_aggregator 64 100)) 0x9000 (fun _ => 5) = (h, Some conv', log) /\
    fresh conv' /\ fresh_outputs conv' /\
    BC.dst_frames conv' = BC.dst_frames (example_aggregator 64 100) /\
    BC.silence_prefil conv' = BC.silence_prefil (example_aggregator 64 100).
Proof.
  apply factory_keeps_fresh.
  - exact example_aggregator_fresh.
  - exact example_aggregator_fresh_outputs.
Defined.

Lemma shadow_area_inside_storage_witness :
  SB.storage example_float_converter <= SB.get_shadow_buffer example_float_converter 8191 /\
  SB.get_shadow_buffer example_float_converter 8191 + SB.sample_size example_float_converter
  <= SB.storage example_float_converter + 4 * (8192 + BUF_ALIGN_BYTES / 4).
Proof.
  destruct (shadow_area_inside_storage example_float_converter 8192 8191) as (_ & H).
  - reflexivity.
  - vm_compute. split; [reflexivity | discriminate].
  - lia.
  - exact H.
Defined.


Lemma example_aggregator_ready : inputs_at 64 64 0 (example_aggregator 64 100).
Proof.
  split; [|exact (proj2 example_aggregator_fresh)].
  intros H. apply (f_equal (@List.length _)) in H. vm_compute in H. discriminate H.
Qed.

Lemma converter_result_witness :
  exists o,
    BC.converter checked_inprocess 3 100 tt (example_aggregator 64 100) = Some o /\
    BC.out_ret o <= 0.
Proof.
  destruct (converter_count checked_inprocess checked_inprocess_respects_counters
              checked_inprocess_returns_zero 64 100 ltac:(lia) ltac:(lia) ltac:(lia) 3 tt
              (example_aggregator 64 100) 64) as (o & Ho & _).
  - vm_compute. lia.
  - exact example_aggregator_ready.
  - lia.
  - exists o. split; [exact Ho|].
    exact (proj1 (converter_result checked_inprocess 3 100 tt
                    (example_aggregator 64 100) o Ho)).
Defined.

Lemma converter_without_inputs_witness :
  exists o,
    BC.converter checked_inprocess 1 100 tt
      (BC.set_InPorts (example_aggregator 64 100) []) = Some o /\
    BC.out_calls o = [] /\ BC.out_arg o = tt /\
    (BC.out_ret o = -1 \/ BC.out_ret o = - EINVAL) /\
    In BC.msg_no_ports (BC.out_log o) /\
    BC.InPorts (BC.out_conv o) = [] /\
    BC.OutPorts (BC.out_conv o)
    = snd (fst (BC.next 100 (BC.OutPorts (BC.set_InPorts (example_aggregator 64 100) [])))).
Proof.
  apply (converter_without_inputs checked_inprocess 1 100 tt
           (BC.set_InPorts (example_aggregator 64 100) [])).
  - reflexivity.
  - lia.
Defined.

Lemma period_adaptation_balance_witness :
  exists rs arg' conv' a o,
    BC.run checked_inprocess 3 100 (example_cycles 16) tt (example_aggregator 64 100)
      = Some (rs, arg', conv') /\
    Forall (fun r => fst r = 0) rs /\
    0 <= a <= BC.silence_prefil (example_aggregator 64 100) /\
    inputs_at (BC.dst_frames (example_aggregator 64 100)) a 0 conv' /\
    outputs_at (BC.dst_frames (example_aggregator 64 100))
      (BC.silence_prefil (example_aggregator 64 100) - a) o 0 conv' /\
    0 <= o /\ o + (BC.silence_prefil (example_aggregator 64 100) - a) <= 8192 /\
    BC.dst_frames (example_aggregator 64 100) <= 8192.
Proof.
  refine (period_adaptation_balance checked_inprocess 100 8192 (example_cycles 16) tt
            (example_aggregator 64 100) 3 checked_inprocess_respects_counters
            checked_inprocess_returns_zero _ _ _ _ _ example_aggregator_fresh
            example_aggregator_fresh_outputs _ _ _).
  - reflexivity.
  - reflexivity.
  - reflexivity.
  - reflexivity.
  - vm_compute. discriminate.
  - intros H. apply (f_equal (@List.length _)) in H. vm_compute in H. discriminate H.
  - intros H. apply (f_equal (@List.length _)) in H. vm_compute in H. discriminate H.
  - vm_compute. lia.
Defined.

Lemma output_slots_bounded_witness :
  exists rs arg' conv',
    BC.run checked_inprocess 3 100 (example_cycles 16) tt (example_aggregator 64 100)
      = Some (rs, arg', conv') /\
    Forall (fun r =>
              Forall (fun call =>
                        slots_below (BC.silence_prefil (example_aggregator 64 100) + 100)
                          call /\
                        slots_below 8192 call) (snd r)) rs.
Proof.
  refine (output_slots_bounded checked_inprocess 100 8192 (example_cycles 16) tt
            (example_aggregator 64 100) 3 checked_inprocess_respects_counters
            checked_inprocess_returns_zero _ _ _ _ _ example_aggregator_fresh
            example_aggregator_fresh_outputs _ _ _).
  - reflexivity.
  - reflexivity.
  - reflexivity.
  - reflexivity.
  - vm_compute. discriminate.
  - intros H. apply (f_equal (@List.length _)) in H. vm_compute in H. discriminate H.
  - intros H. apply (f_equal (@List.length _)) in H. vm_compute in H. discriminate H.
  - vm_compute. lia.
Defined.

Lemma period_adaptation_delay_line_witness :
  exists rs conv' outp',
    BC.run checked_inprocess 3 100 (example_cycles 16) tt (example_aggregator 64 100)
      = Some (rs, tt, conv') /\
    Forall (fun r => fst r = 0 /\ Forall (inprocess_returns_at 8192) (snd r)) rs /\
    64 <= 8192 /\
    BC.OutPorts conv' = [outp'] /\
    forall i, 0 <= i < 100 ->
      port_data (SB.port (FP.converter outp')) i
      = to_jack_sample JACK_PORT_CONV_FMT_INT32
          (client_stream (BC.silence_prefil (example_aggregator 64 100))
             (from_jack_sample JACK_PORT_CONV_FMT_INT32)
             (server_input 100 (example_cycles 16))
             ((Z.of_nat (List.length (example_cycles 16)) - 1) * 100 + i)).
Proof.
  refine (period_adaptation_delay_line checked_inprocess 64 100 8192
            JACK_PORT_CONV_FMT_INT32
            example_in_port example_out_port 0x3004 0x7008 (fun _ => 7) (fun _ => 9)
            (example_aggregator 64 100) (example_cycles 16) 3
            _ _ _ _ _ _ _ _ _ _ _ _ _ (example_cycles_usable 16) _ _).
  - intros n conv r H. unfold checked_inprocess. rewrite H. reflexivity.
  - reflexivity.
  - reflexivity.
  - reflexivity.
  - right. reflexivity.
  - vm_compute. discriminate.
  - vm_compute. discriminate.
  - vm_compute. discriminate.
  - reflexivity.
  - vm_compute. discriminate.
  - vm_compute. discriminate.
  - reflexivity.
  - vm_compute. discriminate.
  - intros H. apply (f_equal (@List.length _)) in H. vm_compute in H. discriminate H.
  - vm_compute. lia.
Defined.

Lemma int32_to_float_range_witness :
  F32.leb NORMALIZED_FLOAT_MIN
    (F32.of_bits (sample_move_dS_s32 (fun _ => 0) 0 (fun _ => 0x7FFFFFA5) 0 4 (0 + 1)))
  = true /\
  F32.leb (F32.of_bits (sample_move_dS_s32 (fun _ => 0) 0 (fun _ => 0x7FFFFFA5) 0 4 (0 + 1)))
    NORMALIZED_FLOAT_MAX
  = true.
Proof.
  destruct (int32_to_float_range (fun _ => 0) (fun _ => 0x7FFFFFA5) 0 0 4 1) as (H1 & H2 & _).
  - lia.
  - split; [exact H1 | exact H2].
Defined.

Lemma int32_round_trip_witness :
  s32 (sample_move_d32_sS (fun _ => 0) 0
         (sample_move_dS_s32 (fun _ => 0) 0 (fun _ => 0x12345600) 0 4) 0 4 (0 + 1))
  = 0x12345600.
Proof.
  refine (int32_round_trip (fun _ => 0) (fun _ => 0) (fun _ => 0x12345600) 0 0 0 4 1 _ _).
  - lia.
  - exists 0x123456, 8. split; [lia|]. split; [lia | reflexivity].
Defined.
